(** * pgkit: schema dump, SQL script execution and verification engines

    A shallow embedding of the three service engines of the tool
    ([services/sql_executor.py], [services/schema_dumper.py],
    [services/verification_service.py]) and of the two steps of the
    application that group a table selection and assemble its dump
    ([ui/app.py]), together with the properties the design document states
    about them and further properties read off the code.

    Conventions of the embedding:
    - a Python [str] is a list of Unicode code points ([list N]);
    - the database connection, the file system and the catalog are external
      collaborators: their answers are supplied by records of functions, so
      every theorem quantifies over every possible behaviour of them;
    - the logging sink only receives messages and never influences control
      flow, so it is left out of the state;
    - wall-clock time ([elapsed_sec], the generation time stamp) is a value
      supplied from outside. *)

From Stdlib Require Import String Ascii Strings.Byte ZArith NArith List Bool Lia.
From Stdlib Require Import DecimalString DecimalZ.
From stdpp Require Import base list gmap.

Import ListNotations.
Local Open Scope bool_scope.
Local Open Scope list_scope.

(** ** Python strings *)

Definition str := list N.

(** A literal of the source, as code points. *)
Definition lit (s : string) : str :=
  List.map N_of_ascii (list_ascii_of_string s).
Arguments lit s : simpl never.

(** The line feed and the double quote. *)
Definition nl : N := 10%N.
Definition dq : str := [34%N].

(** [str.isspace] on one code point: the characters [str.strip()] removes. *)
Definition is_space (c : N) : bool :=
  ((9 <=? c) && (c <=? 13) || (28 <=? c) && (c <=? 32)
   || (c =? 133) || (c =? 160) || (c =? 5760)
   || (8192 <=? c) && (c <=? 8202)
   || (c =? 8232) || (c =? 8233) || (c =? 8239) || (c =? 8287)
   || (c =? 12288))%N.

(** Removal of the leading, respectively trailing, characters that
    satisfy [p]. *)
Fixpoint lstrip_by (p : N -> bool) (s : str) : str :=
  match s with
  | c :: s' => if p c then lstrip_by p s' else s
  | [] => []
  end.

Definition rstrip_by (p : N -> bool) (s : str) : str :=
  rev (lstrip_by p (rev s)).

Definition lstrip (s : str) : str := lstrip_by is_space s.

Definition rstrip (s : str) : str := rstrip_by is_space s.

(** [s.rstrip(ch)] for a one-character argument. *)
Definition rstrip_char (ch : N) (s : str) : str :=
  rstrip_by (fun c => (c =? ch)%N) s.

Definition strip (s : str) : str := rstrip (lstrip s).

Definition is_empty (s : str) : bool :=
  match s with [] => true | _ => false end.

Fixpoint startswith (p s : str) : bool :=
  match p, s with
  | [], _ => true
  | a :: p', b :: s' => (a =? b)%N && startswith p' s'
  | _ :: _, [] => false
  end.

Definition endswith (p s : str) : bool := startswith (rev p) (rev s).

(** [sub in s]. *)
Fixpoint contains (sub s : str) : bool :=
  startswith sub s ||
  match s with
  | [] => false
  | _ :: s' => contains sub s'
  end.

(** [s.count(sub)] for a non-empty [sub]: occurrences are counted from the
    left and do not overlap; [skip] is the number of characters of the last
    match still to be passed over. *)
Fixpoint count_from (sub : str) (skip : nat) (s : str) : nat :=
  match s with
  | [] => 0
  | _ :: s' =>
      match skip with
      | S k => count_from sub k s'
      | O => if startswith sub s
             then S (count_from sub (length sub - 1) s')
             else count_from sub 0 s'
      end
  end.

Definition count (sub s : str) : nat := count_from sub 0 s.

(** [s.split(sep)] for a one-character separator. *)
Fixpoint split (sep : N) (s : str) : list str :=
  match s with
  | [] => [[]]
  | c :: s' =>
      if (c =? sep)%N then [] :: split sep s'
      else match split sep s' with
           | l :: ls => (c :: l) :: ls
           | [] => [[c]]
           end
  end.

(** [sep.join(parts)]. *)
Fixpoint join (sep : str) (parts : list str) : str :=
  match parts with
  | [] => []
  | [p] => p
  | p :: ps => p ++ sep ++ join sep ps
  end.

(** [s.replace(old, new)] for a one-character [old]. *)
Definition replace (old : N) (new : str) (s : str) : str :=
  flat_map (fun c => if (c =? old)%N then new else [c]) s.

(** [s.upper()].  ASCII letters are mapped here; the case mapping of the
    other code points comes from the Unicode tables of the interpreter and
    is a parameter. *)
Definition upper_char (unicode_upper : N -> str) (c : N) : str :=
  if ((97 <=? c) && (c <=? 122))%N then [(c - 32)%N]
  else if (c <? 128)%N then [c]
  else unicode_upper c.

Definition upper (unicode_upper : N -> str) (s : str) : str :=
  flat_map (upper_char unicode_upper) s.

(** [s[1:-1]]. *)
Definition strip_ends (s : str) : str := removelast (tl s).

(** [str(n)] of an integer. *)
Definition str_of_Z (z : Z) : str :=
  lit (NilEmpty.string_of_int (Z.to_int z)).

(** ** StatementSplitter: [SqlExecutor._split_queries] *)

Record split_state := SplitState {
  queries   : list str;
  current   : list str;
  in_dollar : bool
}.

(** The test of the source on one line,
    [l.strip().startswith("--") or not l.strip()]. *)
Definition comment_or_blank (line : str) : bool :=
  let stripped := strip line in
  startswith (lit "--") stripped || is_empty stripped.

(** Closing the buffer: the joined text is trimmed and kept unless it is
    empty or made of comment and blank lines only. *)
Definition close_buffer (qs : list str) (buffer : list str) : list str :=
  let query := strip (join [nl] buffer) in
  if negb (is_empty query) && negb (forallb comment_or_blank (split nl query))
  then qs ++ [query]
  else qs.

(** The flag after the dollar-quote toggle of a line. *)
Definition toggle (flag : bool) (line : str) : bool :=
  if contains (lit "$$") line
  then if Nat.odd (count (lit "$$") line) then negb flag else flag
  else flag.

(** One iteration of the loop over the lines. *)
Definition split_line (st : split_state) (line : str) : split_state :=
  let stripped := strip line in
  if startswith (lit "--") stripped || is_empty stripped then
    SplitState (queries st) (current st ++ [line]) (in_dollar st)
  else
    let flag := toggle (in_dollar st) line in
    if flag then
      SplitState (queries st) (current st ++ [line]) flag
    else if endswith (lit ";") stripped then
      SplitState (close_buffer (queries st) (current st ++ [line])) [] flag
    else
      SplitState (queries st) (current st ++ [line]) flag.

Definition split_loop (lines : list str) (st : split_state) : split_state :=
  fold_left split_line lines st.

Definition _split_queries (sql : str) : list str :=
  let st := split_loop (split nl sql) (SplitState [] [] false) in
  match current st with
  | [] => queries st
  | _ => close_buffer (queries st) (current st)
  end.

(** ** Exceptions and completions

    Two classes of exception matter to the handlers of the engines:
    [IOError] (Python's [OSError] family, caught by [except IOError]) and
    every other subclass of [Exception] (driver errors, [ValueError], ...),
    caught only by [except Exception]. *)

Inductive exn :=
| IOError (msg : str)
| Error (msg : str).

Definition message (e : exn) : str :=
  match e with IOError m => m | Error m => m end.

Inductive completion (A : Type) :=
| Returns (a : A)
| Raises (e : exn).
Arguments Returns {A} a.
Arguments Raises {A} e.

(** ** File reading: [SqlExecutor._read_file] *)

Definition is_continuation (b : N) : bool := ((128 <=? b) && (b <=? 191))%N.

Definition low6 (b : N) : N := (b mod 64)%N.

(** Strict UTF-8 decoding, as Python's [utf-8] codec with [errors=strict]:
    no overlong forms, no surrogates, nothing above U+10FFFF. *)
Fixpoint utf8_decode (bs : list N) : option str :=
  match bs with
  | [] => Some []
  | b0 :: r0 =>
      if (b0 <? 128)%N then option_map (cons b0) (utf8_decode r0)
      else if ((194 <=? b0) && (b0 <=? 223))%N then
        match r0 with
        | b1 :: r1 =>
            if is_continuation b1
            then option_map (cons ((b0 mod 32) * 64 + low6 b1)%N) (utf8_decode r1)
            else None
        | _ => None
        end
      else if ((224 <=? b0) && (b0 <=? 239))%N then
        match r0 with
        | b1 :: b2 :: r2 =>
            let c := ((b0 mod 16) * 4096 + low6 b1 * 64 + low6 b2)%N in
            if is_continuation b1 && is_continuation b2
               && (2048 <=? c)%N && negb ((55296 <=? c) && (c <=? 57343))%N
            then option_map (cons c) (utf8_decode r2)
            else None
        | _ => None
        end
      else if ((240 <=? b0) && (b0 <=? 244))%N then
        match r0 with
        | b1 :: b2 :: b3 :: r3 =>
            let c := ((b0 mod 8) * 262144 + low6 b1 * 4096
                      + low6 b2 * 64 + low6 b3)%N in
            if is_continuation b1 && is_continuation b2 && is_continuation b3
               && (65536 <=? c)%N && (c <=? 1114111)%N
            then option_map (cons c) (utf8_decode r3)
            else None
        | _ => None
        end
      else None
  end.

(** Latin-1 maps every byte to the code point of the same number. *)
Definition latin1_decode (bs : list byte) : option str :=
  Some (List.map Byte.to_N bs).

(** Text mode with the default [newline=None]: every line ending is read
    as one line feed. *)
Fixpoint universal_newlines (s : str) : str :=
  match s with
  | [] => []
  | c :: s' =>
      if (c =? 13)%N then
        match s' with
        | d :: s'' => if (d =? 10)%N then nl :: universal_newlines s''
                      else nl :: universal_newlines s'
        | [] => [nl]
        end
      else c :: universal_newlines s'
  end.

Inductive encoding := Utf8 | Cp949 | Latin1.

(** What the operating system answers when a path is opened and read:
    the bytes of the file, or the exception [open] raises. *)
Inductive file_access :=
| Readable (bytes : list byte)
| Refused (e : exn).

Definition encoding_error (file_path : str) : exn :=
  IOError ([54028; 51068; 32; 51064; 53076; 46377; 51012; 32; 54032; 48324;
            54624; 32; 49688; 32; 50630; 49845; 45768; 45796; 58; 32]%N
           ++ file_path).

Section Reader.
(** The code page table of the [cp949] codec is not part of the sources:
    its decoder is a parameter. *)
Variable cp949_decode : list byte -> option str.
Variable fs : str -> file_access.

Definition decode (enc : encoding) (bs : list byte) : option str :=
  match enc with
  | Utf8 => utf8_decode (List.map Byte.to_N bs)
  | Cp949 => cp949_decode bs
  | Latin1 => latin1_decode bs
  end.

(** The [for encoding in (...)] loop: [open] may raise (the exception
    leaves the function), a [UnicodeDecodeError] moves on to the next
    encoding, and the [raise IOError] follows the loop. *)
Fixpoint read_with (encodings : list encoding) (file_path : str)
  : completion str :=
  match encodings with
  | [] => Raises (encoding_error file_path)
  | enc :: rest =>
      match fs file_path with
      | Refused e => Raises e
      | Readable bs =>
          match decode enc bs with
          | Some text => Returns (universal_newlines text)
          | None => read_with rest file_path
          end
      end
  end.

Definition _read_file (file_path : str) : completion str :=
  read_with [Utf8; Cp949; Latin1] file_path.
End Reader.

(** ** ExecutionEngine: [SqlExecutor.execute_files] *)

(** The counters of [ExecutionResult]; [elapsed_sec] is wall-clock time and
    is not part of the model. *)
Record ExecutionResult := {
  total_files   : Z;
  success_files : Z;
  failed_files  : Z;
  total_queries : Z;
  success_count : Z;
  error_count   : Z
}.

Definition new_result : ExecutionResult :=
  {| total_files := 0; success_files := 0; failed_files := 0;
     total_queries := 0; success_count := 0; error_count := 0 |}.

Definition set_total_files (v : Z) (r : ExecutionResult) :=
  {| total_files := v; success_files := success_files r;
     failed_files := failed_files r; total_queries := total_queries r;
     success_count := success_count r; error_count := error_count r |}.
Definition set_success_files (v : Z) (r : ExecutionResult) :=
  {| total_files := total_files r; success_files := v;
     failed_files := failed_files r; total_queries := total_queries r;
     success_count := success_count r; error_count := error_count r |}.
Definition set_failed_files (v : Z) (r : ExecutionResult) :=
  {| total_files := total_files r; success_files := success_files r;
     failed_files := v; total_queries := total_queries r;
     success_count := success_count r; error_count := error_count r |}.
Definition set_total_queries (v : Z) (r : ExecutionResult) :=
  {| total_files := total_files r; success_files := success_files r;
     failed_files := failed_files r; total_queries := v;
     success_count := success_count r; error_count := error_count r |}.
Definition set_success_count (v : Z) (r : ExecutionResult) :=
  {| total_files := total_files r; success_files := success_files r;
     failed_files := failed_files r; total_queries := total_queries r;
     success_count := v; error_count := error_count r |}.
Definition set_error_count (v : Z) (r : ExecutionResult) :=
  {| total_files := total_files r; success_files := success_files r;
     failed_files := failed_files r; total_queries := total_queries r;
     success_count := success_count r; error_count := v |}.

(** The connection handle as the engine sees it: the [autocommit] attribute,
    the statements of the open transaction, the statements made durable,
    every call made on the handle so far, and the two facts the driver checks
    before it accepts an assignment to [autocommit]: whether a transaction
    is open on the handle, and whether the handle is closed. *)
Inductive call :=
| Execute (query : str)
| Commit
| Rollback.

Record connection := {
  autocommit     : bool;
  pending        : list str;
  committed      : list str;
  history        : list call;
  in_transaction : bool;
  closed         : bool
}.

(** The database server: for a call made in a given state of an open
    handle, [None] when the call succeeds and the message of the driver
    error it raises otherwise; [breaks] tells whether a call that fails in
    that state fails because the link to the server is lost, in which case
    the driver marks the handle closed.  Driver errors are not
    [IOError]s. *)
Record server := {
  execute_error  : connection -> str -> option str;
  commit_error   : connection -> option str;
  rollback_error : connection -> option str;
  breaks         : connection -> bool
}.

(** The messages of the errors the driver raises by itself, without a
    round trip to the server. *)
Definition closed_error : str := lit "connection already closed".
Definition transaction_error : str :=
  lit "set_session cannot be used inside a transaction".

(** [conn.autocommit = b].  The driver refuses the assignment on a closed
    handle and on a handle with an open transaction, whatever the value
    assigned; the handle is then left as it was. *)
Definition set_autocommit (b : bool) (c : connection)
  : connection * option str :=
  if closed c then (c, Some closed_error)
  else if in_transaction c then (c, Some transaction_error)
  else ({| autocommit := b; pending := pending c; committed := committed c;
           history := history c; in_transaction := in_transaction c;
           closed := closed c |}, None).

(** [with conn.cursor() as cur: cur.execute(query)].  On a closed handle
    the driver raises at once.  Without autocommit the driver opens a
    transaction before it sends the statement, and the transaction stays
    open when the statement fails. *)
Definition conn_execute (srv : server) (c : connection) (query : str)
  : connection * option str :=
  if closed c then
    ({| autocommit := autocommit c; pending := pending c;
        committed := committed c;
        history := history c ++ [Execute query];
        in_transaction := in_transaction c; closed := true |},
     Some closed_error)
  else
    match execute_error srv c query with
    | Some e =>
        ({| autocommit := autocommit c; pending := pending c;
            committed := committed c;
            history := history c ++ [Execute query];
            in_transaction := in_transaction c || negb (autocommit c);
            closed := breaks srv c |}, Some e)
    | None =>
        (if autocommit c
         then {| autocommit := true; pending := pending c;
                 committed := committed c ++ [query];
                 history := history c ++ [Execute query];
                 in_transaction := in_transaction c; closed := false |}
         else {| autocommit := false; pending := pending c ++ [query];
                 committed := committed c;
                 history := history c ++ [Execute query];
                 in_transaction := true; closed := false |}, None)
    end.

(** [conn.commit()].  A commit that the server refuses ends the
    transaction all the same: its statements are lost. *)
Definition conn_commit (srv : server) (c : connection)
  : connection * option str :=
  if closed c then
    ({| autocommit := autocommit c; pending := pending c;
        committed := committed c; history := history c ++ [Commit];
        in_transaction := in_transaction c; closed := true |},
     Some closed_error)
  else
    match commit_error srv c with
    | Some e =>
        ({| autocommit := autocommit c; pending := [];
            committed := committed c; history := history c ++ [Commit];
            in_transaction := false; closed := breaks srv c |},
         Some e)
    | None =>
        ({| autocommit := autocommit c; pending := [];
            committed := committed c ++ pending c;
            history := history c ++ [Commit];
            in_transaction := false; closed := false |}, None)
    end.

(** [conn.rollback()].  A rollback that fails leaves the transaction as it
    was. *)
Definition conn_rollback (srv : server) (c : connection)
  : connection * option str :=
  if closed c then
    ({| autocommit := autocommit c; pending := pending c;
        committed := committed c; history := history c ++ [Rollback];
        in_transaction := in_transaction c; closed := true |},
     Some closed_error)
  else
    match rollback_error srv c with
    | Some e =>
        ({| autocommit := autocommit c; pending := pending c;
            committed := committed c; history := history c ++ [Rollback];
            in_transaction := in_transaction c; closed := breaks srv c |},
         Some e)
    | None =>
        ({| autocommit := autocommit c; pending := [];
            committed := committed c; history := history c ++ [Rollback];
            in_transaction := false; closed := false |},
         None)
    end.

(** How a block of the source is left: by falling through, by [return], or
    by an exception that no handler of the block caught. *)
Inductive flow :=
| Next
| Return
| Raise (e : exn).

Definition len {A} (l : list A) : Z := Z.of_nat (length l).

Section Executor.
Variable cp949_decode : list byte -> option str.
Variable fs : str -> file_access.
Variable srv : server.

(** *** Single-transaction mode *)

(** The loop over the statements of one file. *)
Fixpoint single_statements (qs : list str) (c : connection)
  (r : ExecutionResult) : connection * ExecutionResult * flow :=
  match qs with
  | [] => (c, r, Next)
  | query :: qs' =>
      match conn_execute srv c query with
      | (c1, None) =>
          single_statements qs' c1
            (set_success_count (success_count r + 1) r)
      | (c1, Some _) =>
          let r1 := set_error_count (error_count r + 1) r in
          let r2 := set_failed_files (failed_files r1 + 1) r1 in
          match conn_rollback srv c1 with
          | (c2, None) =>
              (c2, set_failed_files (total_files r2 - success_files r2) r2,
               Return)
          | (c2, Some e) => (c2, r2, Raise (Error e))
          end
      end
  end.

(** The loop over the files. *)
Fixpoint single_files (file_paths : list str) (c : connection)
  (r : ExecutionResult) : connection * ExecutionResult * flow :=
  match file_paths with
  | [] => (c, r, Next)
  | file_path :: rest =>
      match _read_file cp949_decode fs file_path with
      | Returns sql =>
          let queries := _split_queries sql in
          let r1 := set_total_queries (total_queries r + len queries) r in
          match single_statements queries c r1 with
          | (c1, r2, Next) =>
              single_files rest c1
                (set_success_files (success_files r2 + 1) r2)
          | exit => exit
          end
      | Raises (IOError _) =>
          let r1 := set_failed_files (failed_files r + 1) r in
          match conn_rollback srv c with
          | (c1, None) => (c1, r1, Return)
          | (c1, Some e) => (c1, r1, Raise (Error e))
          end
      | Raises e => (c, r, Raise e)
      end
  end.

(** The body of the [try], then the [finally] clause.  The assignment of
    the [finally] clause can raise as the first one can; its exception then
    replaces the [return] or the exception the body was left with. *)
Definition _execute_single_transaction (file_paths : list str)
  (c : connection) (r : ExecutionResult)
  : connection * ExecutionResult * option exn :=
  let prev_autocommit := autocommit c in
  let '(c2, r2, exit) :=
    match set_autocommit false c with
    | (c0, Some e) => (c0, r, Raise (Error e))
    | (c0, None) =>
        match single_files file_paths c0 r with
        | (c1, r1, Next) =>
            match conn_commit srv c1 with
            | (c2, None) => (c2, r1, Next)
            | (c2, Some e) => (c2, r1, Raise (Error e))
            end
        | exit => exit
        end
    end in
  match set_autocommit prev_autocommit c2 with
  | (c3, None) => (c3, r2, match exit with Raise e => Some e | _ => None end)
  | (c3, Some e) => (c3, r2, Some (Error e))
  end.

(** *** Per-file mode *)

(** The loop over the statements of one file; the boolean is
    [file_error] when the loop is left. *)
Fixpoint per_file_statements (qs : list str) (c : connection)
  (r : ExecutionResult) : connection * ExecutionResult * bool * option exn :=
  match qs with
  | [] => (c, r, false, None)
  | query :: qs' =>
      match conn_execute srv c query with
      | (c1, None) =>
          per_file_statements qs' c1
            (set_success_count (success_count r + 1) r)
      | (c1, Some _) =>
          let r1 := set_error_count (error_count r + 1) r in
          match conn_rollback srv c1 with
          | (c2, None) => (c2, r1, true, None)
          | (c2, Some e) => (c2, r1, true, Some (Error e))
          end
      end
  end.

(** What became of one file. *)
Inductive file_outcome :=
| FileCommitted (queries : list str)
| FileRolledBack
| FileUnreadable.

(** One iteration of the loop over the files: the [try] block with its
    [except IOError] handler.  The assignment to [autocommit] comes after
    the file is read and split; the error the driver raises when it refuses
    it is not an [IOError] and leaves the loop. *)
Definition per_file_step (file_path : str) (c : connection)
  (r : ExecutionResult)
  : connection * ExecutionResult * (file_outcome + exn) :=
  match _read_file cp949_decode fs file_path with
  | Returns sql =>
      let queries := _split_queries sql in
      let r1 := set_total_queries (total_queries r + len queries) r in
      match set_autocommit false c with
      | (c0, Some e) => (c0, r1, inr (Error e))
      | (c0, None) =>
          match per_file_statements queries c0 r1 with
          | (c1, r2, _, Some e) => (c1, r2, inr e)
          | (c1, r2, false, None) =>
              match conn_commit srv c1 with
              | (c2, None) =>
                  (c2, set_success_files (success_files r2 + 1) r2,
                   inl (FileCommitted queries))
              | (c2, Some e) => (c2, r2, inr (Error e))
              end
          | (c1, r2, true, None) =>
              (c1, set_failed_files (failed_files r2 + 1) r2,
               inl FileRolledBack)
          end
      end
  | Raises (IOError _) =>
      (c, set_failed_files (failed_files r + 1) r, inl FileUnreadable)
  | Raises e => (c, r, inr e)
  end.

Fixpoint per_file_loop (file_paths : list str) (c : connection)
  (r : ExecutionResult) : connection * ExecutionResult * option exn :=
  match file_paths with
  | [] => (c, r, None)
  | file_path :: rest =>
      match per_file_step file_path c r with
      | (c1, r1, inl _) => per_file_loop rest c1 r1
      | (c1, r1, inr e) => (c1, r1, Some e)
      end
  end.

(** The restore of [autocommit] is the last statement of the function:
    it is reached only when the loop ends without an exception, and it can
    raise as any assignment to [autocommit] can. *)
Definition _execute_per_file (file_paths : list str) (c : connection)
  (r : ExecutionResult) : connection * ExecutionResult * option exn :=
  let prev_autocommit := autocommit c in
  match per_file_loop file_paths c r with
  | (c1, r1, None) =>
      match set_autocommit prev_autocommit c1 with
      | (c2, None) => (c2, r1, None)
      | (c2, Some e) => (c2, r1, Some (Error e))
      end
  | (c1, r1, Some e) => (c1, r1, Some e)
  end.

(** *** [execute_files] *)

Definition execute_files (file_paths : list str) (single_transaction : bool)
  (c : connection) : connection * completion ExecutionResult :=
  let result := set_total_files (len file_paths) new_result in
  let '(c1, r1, exit) :=
    if single_transaction
    then _execute_single_transaction file_paths c result
    else _execute_per_file file_paths c result in
  (c1, match exit with None => Returns r1 | Some e => Raises e end).
End Executor.

(** ** ValueFormatter: [SchemaDumper._format_value] *)

Definition hex_digit (d : N) : N :=
  if (d <? 10)%N then (48 + d)%N else (87 + d)%N.

(** [bytes.hex()]: two lowercase digits per byte. *)
Definition hex (bs : list byte) : str :=
  flat_map (fun b => let n := Byte.to_N b in
                     [hex_digit (n / 16); hex_digit (n mod 16)]) bs.

Definition quote : N := 39%N.

Section Formatter.
(** Floating-point numbers and the objects of the other types the driver
    returns (dates, decimals, ...) are known through [str()] only. *)
Variable float : Type.
Variable str_of_float : float -> str.
Variable object : Type.
Variable str_of_object : object -> str.

#[warnings="-register-all"]
Inductive value :=
| VNone
| VBool (b : bool)
| VInt (n : Z)
| VFloat (x : float)
| VBytes (bs : list byte)
| VList (items : list value)
| VStr (s : str)
| VOther (o : object).

(** [str(value)] on the values that reach the last branch. *)
Definition text_of (v : value) : str :=
  match v with
  | VStr s => s
  | VOther o => str_of_object o
  | _ => []
  end.

Fixpoint _format_value (v : value) : str :=
  match v with
  | VNone => lit "NULL"
  | VBool b => if b then lit "TRUE" else lit "FALSE"
  | VInt n => str_of_Z n
  | VFloat x => str_of_float x
  | VBytes bs => lit "E'\\x" ++ hex bs ++ lit "'"
  | VList items =>
      lit "ARRAY[" ++ join (lit ", ") (List.map _format_value items) ++ lit "]"
  | VStr _ | VOther _ =>
      [quote] ++ replace quote (lit "''") (text_of v) ++ [quote]
  end.
End Formatter.

Arguments VNone {float object}.
Arguments VBool {float object} b.
Arguments VInt {float object} n.
Arguments VFloat {float object} x.
Arguments VBytes {float object} bs.
Arguments VList {float object} items.
Arguments VStr {float object} s.
Arguments VOther {float object} o.

(** ** CatalogReader, DDLComposer and DumpOrchestrator: [SchemaDumper]

    The functions below describe the dump that is produced when every
    catalog query answers; a failing query aborts the whole call. *)

Record column := {
  col_name : str;
  col_type : str;
  not_null : bool;
  default  : option str
}.

Record key_constraint := {
  con_name    : str;
  con_columns : list str
}.

Record sequence_row := {
  seq_name  : str;
  start_val : Z;
  inc_val   : Z;
  min_val   : Z;
  max_val   : Z;
  is_cycle  : bool
}.

(** A row of the [pg_indexes] view. *)
Record index_row := {
  tablename : str;
  indexname : str;
  indexdef  : str
}.

(** The rows the catalog queries of the source return, each in the order
    of its [ORDER BY] clause.  For the index query the view and the names
    of the PRIMARY KEY and UNIQUE constraints of the schema are given, and
    its [WHERE] clause is applied by [index_query] below. *)
Record catalog (value : Type) := {
  user_schemas       : list str;
  all_tables         : str -> list str;
  extensions         : list str;
  enum_types         : str -> list (str * list str);
  sequences          : str -> list sequence_row;
  columns            : str -> str -> list column;
  primary_key        : str -> str -> option key_constraint;
  unique_constraints : str -> str -> list key_constraint;
  check_constraints  : str -> str -> list (str * str);
  foreign_keys       : str -> list (str * str * str);
  pg_indexes         : str -> list index_row;
  pk_unique_names    : str -> list str;
  views              : str -> list (str * str);
  column_names       : str -> str -> list str;
  table_data         : str -> str -> list (list value)
}.
Arguments user_schemas {value} _.
Arguments all_tables {value} _ _.
Arguments extensions {value} _.
Arguments enum_types {value} _ _.
Arguments sequences {value} _ _.
Arguments columns {value} _ _ _.
Arguments primary_key {value} _ _ _.
Arguments unique_constraints {value} _ _ _.
Arguments check_constraints {value} _ _ _.
Arguments foreign_keys {value} _ _.
Arguments pg_indexes {value} _ _.
Arguments pk_unique_names {value} _ _.
Arguments views {value} _ _.
Arguments column_names {value} _ _ _.
Arguments table_data {value} _ _ _.

(** Every element appended to [lines] carries, beside its text, a mark
    saying which statement it belongs to; the marks are not part of the
    output and only serve to state the properties. *)
Inductive mark :=
| Plain
| CreateTable (schema table : str)
| ForeignKey (schema table conname : str)
| CreateIndex (name : str).

Record line := Line {
  mark_of : mark;
  text    : str
}.

Definition plain (t : str) : line := Line Plain t.

Definition render (ls : list line) : str := join [nl] (List.map text ls).

Definition quoted (s : str) : str := dq ++ s ++ dq.

Definition rule : str := lit "-- ===========================================".

Definition banner (title : string) : list line :=
  [plain rule; plain (lit title); plain rule; plain []].

Definition str_eqb (a b : str) : bool := bool_decide (a = b).

(** [x in l]. *)
Definition mem (x : str) (l : list str) : bool := existsb (str_eqb x) l.

Definition SCHEMA_DUMP_BATCH_SIZE : nat := 1000.

(** The [while True] loop over [cur.fetchmany(size)]: the batches are read
    until an empty one comes, and their rows are processed in order. *)
Fixpoint fetch_batches {A} (fuel size : nat) (cursor : list A) : list A :=
  match fuel with
  | O => []
  | S fuel' =>
      match take size cursor with
      | [] => []
      | rows => rows ++ fetch_batches fuel' size (drop size cursor)
      end
  end.

Definition fetch_rows {A} (cursor : list A) : list A :=
  fetch_batches (S (length cursor)) SCHEMA_DUMP_BATCH_SIZE cursor.

Section Dumper.
Variable float : Type.
Variable str_of_float : float -> str.
Variable object : Type.
Variable str_of_object : object -> str.
Variable unicode_upper : N -> str.
Variable cat : catalog (value float object).

Definition _dump_extensions : list line :=
  match extensions cat with
  | [] => []
  | rows =>
      banner "-- EXTENSIONS"
      ++ List.map (fun extname =>
           plain (lit "CREATE EXTENSION IF NOT EXISTS " ++ quoted extname
                  ++ lit ";")) rows
      ++ [plain []]
  end.

Definition _dump_enums (schema : str) : list line :=
  match enum_types cat schema with
  | [] => []
  | rows =>
      banner "-- ENUM TYPES"
      ++ List.map (fun '(typname, labels) =>
           let label_str :=
             join (lit ", ")
                  (List.map (fun lbl => [quote] ++ lbl ++ [quote]) labels) in
           plain (lit "CREATE TYPE " ++ quoted schema ++ lit "."
                  ++ quoted typname ++ lit " AS ENUM (" ++ label_str
                  ++ lit ");")) rows
      ++ [plain []]
  end.

Definition _dump_sequences (schema : str) (tables : list str) : list line :=
  match sequences cat schema with
  | [] => []
  | rows =>
      banner "-- SEQUENCES"
      ++ List.map (fun row =>
           let cycle_str :=
             if is_cycle row then lit "CYCLE" else lit "NO CYCLE" in
           plain (lit "CREATE SEQUENCE IF NOT EXISTS " ++ quoted schema
                  ++ lit "." ++ quoted (seq_name row) ++ lit " "
                  ++ lit "START " ++ str_of_Z (start_val row)
                  ++ lit " INCREMENT " ++ str_of_Z (inc_val row) ++ lit " "
                  ++ lit "MINVALUE " ++ str_of_Z (min_val row)
                  ++ lit " MAXVALUE " ++ str_of_Z (max_val row) ++ lit " "
                  ++ cycle_str ++ lit ";")) rows
      ++ [plain []]
  end.

Definition _format_column (col : column) : str :=
  let parts := [quoted (col_name col); col_type col] in
  let parts :=
    match default col with
    | Some d => parts ++ [lit "DEFAULT " ++ d]
    | None => parts
    end in
  let parts := if not_null col then parts ++ [lit "NOT NULL"] else parts in
  join (lit " ") parts.

(** The rewriting of one row of the CHECK constraint query. *)
Definition check_definition (definition : str) : str :=
  if startswith (lit "CHECK ") (upper unicode_upper definition) then
    let definition := strip (drop 6 definition) in
    if startswith (lit "(") definition && endswith (lit ")") definition
    then strip_ends definition
    else definition
  else definition.

Definition _get_check_constraints (schema table_name : str)
  : list (str * str) :=
  List.map (fun '(name, definition) => (name, check_definition definition))
           (check_constraints cat schema table_name).

Definition column_list (cols : list str) : str :=
  join (lit ", ") (List.map quoted cols).

Definition _dump_table (schema table_name : str) : list line :=
  let here := CreateTable schema table_name in
  let col_lines :=
    List.map (fun col => lit "    " ++ _format_column col)
             (columns cat schema table_name)
    ++ match primary_key cat schema table_name with
       | Some pk =>
           [lit "    CONSTRAINT " ++ quoted (con_name pk)
            ++ lit " PRIMARY KEY (" ++ column_list (con_columns pk) ++ lit ")"]
       | None => []
       end
    ++ List.map (fun uq =>
         lit "    CONSTRAINT " ++ quoted (con_name uq) ++ lit " UNIQUE ("
         ++ column_list (con_columns uq) ++ lit ")")
         (unique_constraints cat schema table_name)
    ++ List.map (fun '(name, definition) =>
         lit "    CONSTRAINT " ++ quoted name ++ lit " CHECK ("
         ++ definition ++ lit ")")
         (_get_check_constraints schema table_name) in
  [plain (lit "-- Table: " ++ schema ++ lit "." ++ table_name);
   Line here (lit "CREATE TABLE IF NOT EXISTS " ++ quoted schema ++ lit "."
              ++ quoted table_name ++ lit " (");
   Line here (join (lit "," ++ [nl]) col_lines);
   Line here (lit ");")].

Definition _dump_foreign_keys (schema : str) (tables : list str) : list line :=
  let rows := foreign_keys cat schema in
  let fk_rows :=
    match tables with
    | [] => rows
    | _ => List.filter (fun '(_, table_name, _) => mem table_name tables) rows
    end in
  match fk_rows with
  | [] => []
  | _ =>
      banner "-- FOREIGN KEYS"
      ++ List.map (fun '(conname, table_name, definition) =>
           Line (ForeignKey schema table_name conname)
                (lit "ALTER TABLE " ++ quoted schema ++ lit "."
                 ++ quoted table_name ++ lit " " ++ lit "ADD CONSTRAINT "
                 ++ quoted conname ++ lit " " ++ definition ++ lit ";"))
           fk_rows
      ++ [plain []]
  end.

(** The [WHERE] clause of the index query: the definition does not contain
    [UNIQUE] and the name is not that of a PRIMARY KEY or UNIQUE constraint
    of the schema. *)
Definition index_query (schema : str) : list index_row :=
  List.filter (fun row =>
                 negb (contains (lit "UNIQUE") (indexdef row))
                 && negb (mem (indexname row) (pk_unique_names cat schema)))
              (pg_indexes cat schema).

Definition _index_belongs_to (indexdef : str) (tables : list str) : bool :=
  let upper := upper unicode_upper indexdef in
  existsb (fun t =>
             contains (lit " ON " ++ quoted t) indexdef
             || contains (lit " ON " ++ t) upper) tables.

Definition index_rows (schema : str) (tables : list str) : list index_row :=
  let rows := index_query schema in
  match tables with
  | [] => rows
  | _ => List.filter (fun r => _index_belongs_to (indexdef r) tables) rows
  end.

Definition _dump_indexes (schema : str) (tables : list str) : list line :=
  match index_rows schema tables with
  | [] => []
  | idx_rows =>
      banner "-- INDEXES"
      ++ List.map (fun r =>
           Line (CreateIndex (indexname r)) (indexdef r ++ lit ";")) idx_rows
      ++ [plain []]
  end.

Definition _dump_views (schema : str) : list line :=
  match views cat schema with
  | [] => []
  | rows =>
      banner "-- VIEWS"
      ++ flat_map (fun '(viewname, definition) =>
           [plain (lit "CREATE OR REPLACE VIEW " ++ quoted schema ++ lit "."
                   ++ quoted viewname ++ lit " AS");
            plain (rstrip_char 59 definition ++ lit ";");
            plain []]) rows
  end.

Definition _dump_data (schema table_name : str) : list line :=
  match column_names cat schema table_name with
  | [] => []
  | col_names =>
      let cols_str := column_list col_names in
      List.map (fun row =>
        let vals :=
          join (lit ", ")
               (List.map (_format_value float str_of_float object str_of_object)
                         row) in
        plain (lit "INSERT INTO " ++ quoted schema ++ lit "."
               ++ quoted table_name ++ lit " (" ++ cols_str ++ lit ") "
               ++ lit "VALUES (" ++ vals ++ lit ");"))
        (fetch_rows (table_data cat schema table_name))
  end.

(** [dump]: the list [lines] before it is joined.  [now] is the text of
    the time stamp. *)
Definition dump_lines (now : str) (tables : option (list str))
  (include_data : bool) (schema : str) (_skip_header _skip_extensions : bool)
  : list line :=
  let target_tables :=
    match tables with
    | Some ts => ts
    | None => all_tables cat schema
    end in
  (if _skip_header then []
   else [plain (lit "-- PostgreSQL Schema Dump");
         plain (lit "-- Generated: " ++ now);
         plain (lit "-- Schema: " ++ schema);
         plain []])
  ++ (if _skip_extensions then [] else _dump_extensions)
  ++ _dump_enums schema
  ++ _dump_sequences schema target_tables
  ++ flat_map (fun table_name => _dump_table schema table_name ++ [plain []])
              target_tables
  ++ _dump_foreign_keys schema target_tables
  ++ _dump_indexes schema target_tables
  ++ _dump_views schema
  ++ (if include_data
      then [plain []; plain rule; plain (lit "-- DATA"); plain rule; plain []]
           ++ flat_map (_dump_data schema) target_tables
      else []).

Definition dump (now : str) (tables : option (list str))
  (include_data : bool) (schema : str) (_skip_header _skip_extensions : bool)
  : str :=
  render (dump_lines now tables include_data schema
                     _skip_header _skip_extensions).

Definition hashes : str :=
  lit "-- ###########################################################".

Definition database_header (now : str) : list line :=
  [plain (lit "-- PostgreSQL Full Database Dump");
   plain (lit "-- Generated: " ++ now);
   plain (lit "-- Schemas: " ++ join (lit ", ") (user_schemas cat));
   plain []].

Definition schema_heading (schema : str) : list line :=
  [plain hashes; plain (lit "-- SCHEMA: " ++ schema); plain hashes; plain []]
  ++ (if str_eqb schema (lit "public") then []
      else [plain (lit "CREATE SCHEMA IF NOT EXISTS " ++ quoted schema
                   ++ lit ";");
            plain []]).

(** What the loop of [dump_database] appends to [lines] for one schema:
    nothing when the dump of the schema is blank, else the heading, the
    dump as one element, and an empty line. *)
Definition schema_elements (now : str) (include_data : bool) (schema : str)
  : list str :=
  let schema_sql := dump now None include_data schema true true in
  if is_empty (strip schema_sql) then []
  else List.map text (schema_heading schema) ++ [schema_sql; []].

Definition dump_database (now : str) (include_data : bool) : str :=
  join [nl]
    (List.map text (database_header now)
     ++ List.map text _dump_extensions
     ++ flat_map (schema_elements now include_data) (user_schemas cat)).

(** The same with the lines of the dump of the schema kept apart, so that
    the statements of the whole text can be told from one another. *)
Definition schema_part (now : str) (include_data : bool) (schema : str)
  : list line :=
  let schema_lines := dump_lines now None include_data schema true true in
  if is_empty (strip (render schema_lines)) then []
  else schema_heading schema ++ schema_lines ++ [plain []].

Definition dump_database_lines (now : str) (include_data : bool) : list line :=
  database_header now
  ++ _dump_extensions
  ++ flat_map (schema_part now include_data) (user_schemas cat).
End Dumper.

(** ** VerificationEngine: [VerificationService.verify] *)

Record VerificationResult := {
  table_count    : Z;
  table_rows     : gmap str Z;
  sequence_count : Z;
  index_count    : Z;
  view_count     : Z;
  errors         : list str
}.

Definition new_verification : VerificationResult :=
  {| table_count := 0; table_rows := ∅; sequence_count := 0;
     index_count := 0; view_count := 0; errors := [] |}.

Definition set_table_count (v : Z) (r : VerificationResult) :=
  {| table_count := v; table_rows := table_rows r;
     sequence_count := sequence_count r; index_count := index_count r;
     view_count := view_count r; errors := errors r |}.
Definition set_table_rows (v : gmap str Z) (r : VerificationResult) :=
  {| table_count := table_count r; table_rows := v;
     sequence_count := sequence_count r; index_count := index_count r;
     view_count := view_count r; errors := errors r |}.
Definition set_sequence_count (v : Z) (r : VerificationResult) :=
  {| table_count := table_count r; table_rows := table_rows r;
     sequence_count := v; index_count := index_count r;
     view_count := view_count r; errors := errors r |}.
Definition set_index_count (v : Z) (r : VerificationResult) :=
  {| table_count := table_count r; table_rows := table_rows r;
     sequence_count := sequence_count r; index_count := v;
     view_count := view_count r; errors := errors r |}.
Definition set_view_count (v : Z) (r : VerificationResult) :=
  {| table_count := table_count r; table_rows := table_rows r;
     sequence_count := sequence_count r; index_count := index_count r;
     view_count := v; errors := errors r |}.
Definition append_error (msg : str) (r : VerificationResult) :=
  {| table_count := table_count r; table_rows := table_rows r;
     sequence_count := sequence_count r; index_count := index_count r;
     view_count := view_count r; errors := errors r ++ [msg] |}.

(** Computations that may raise, over a state [S]: an exception leaves
    the state as it was when it was raised. *)
Definition M (S A : Type) : Type := S -> completion A * S.

Definition ret {S A} (a : A) : M S A := fun s => (Returns a, s).

Definition bind {S A B} (m : M S A) (k : A -> M S B) : M S B :=
  fun s =>
    match m s with
    | (Returns a, s') => k a s'
    | (Raises e, s') => (Raises e, s')
    end.

(** [try: m  except Exception as e: h e]. *)
Definition try_except {S A} (m : M S A) (h : exn -> M S A) : M S A :=
  fun s =>
    match m s with
    | (Raises e, s') => h e s'
    | done => done
    end.

Notation "x <- m ;; k" := (bind m (fun x => k))
  (at level 100, m at next level, right associativity).

(** The count queries of the engine. *)
Inductive count_query :=
| CountTables (schema : str)
| CountRows (schema table : str)
| CountSequences (schema : str)
| CountIndexes (schema : str)
| CountViews (schema : str).

(** The database session behind the connection, with a state [db] of its
    own: [fetch_count] is [cur.execute(q); cur.fetchone()[0]] and
    [fetch_tables] the query of the table names of a schema. *)
Record session (db : Type) := {
  fetch_count  : count_query -> M db Z;
  fetch_tables : str -> M db (list str)
}.
Arguments fetch_count {db} _ _.
Arguments fetch_tables {db} _ _.

Definition sentinel : Z := (-1)%Z.

Section Verifier.
Variable db : Type.
Variable ses : session db.

Definition _count_tables (schema : str) : M db Z :=
  fetch_count ses (CountTables schema).

(** One iteration of the loop over the tables, with its own handler. *)
Definition count_one (schema table : str) (rows : gmap str Z)
  : M db (gmap str Z) :=
  try_except
    (count <- fetch_count ses (CountRows schema table) ;;
     ret (<[table := count]> rows))
    (fun _ => ret (<[table := sentinel]> rows)).

Fixpoint count_loop (schema : str) (tables : list str) (rows : gmap str Z)
  : M db (gmap str Z) :=
  match tables with
  | [] => ret rows
  | table :: rest =>
      rows' <- count_one schema table rows ;;
      count_loop schema rest rows'
  end.

Definition _count_rows_per_table (schema : str) : M db (gmap str Z) :=
  tables <- fetch_tables ses schema ;;
  count_loop schema tables ∅.

Definition _count_sequences (schema : str) : M db Z :=
  fetch_count ses (CountSequences schema).

Definition _count_indexes (schema : str) : M db Z :=
  fetch_count ses (CountIndexes schema).

Definition _count_views (schema : str) : M db Z :=
  fetch_count ses (CountViews schema).

(** A helper of the service run while [result] is being filled. *)
Definition call_helper {A} (m : M db A) : M (VerificationResult * db) A :=
  fun '(r, s) =>
    match m s with
    | (done, s') => (done, (r, s'))
    end.

(** An assignment to an attribute of [result]. *)
Definition assign (f : VerificationResult -> VerificationResult)
  : M (VerificationResult * db) unit :=
  fun '(r, s) => (Returns tt, (f r, s)).

(** The body of the [try] block. *)
Definition verify_body (schema : str) : M (VerificationResult * db) unit :=
  n <- call_helper (_count_tables schema) ;;
  _ <- assign (set_table_count n) ;;
  rows <- call_helper (_count_rows_per_table schema) ;;
  _ <- assign (set_table_rows rows) ;;
  n <- call_helper (_count_sequences schema) ;;
  _ <- assign (set_sequence_count n) ;;
  n <- call_helper (_count_indexes schema) ;;
  _ <- assign (set_index_count n) ;;
  n <- call_helper (_count_views schema) ;;
  assign (set_view_count n).

Definition verify (schema : str) : M db VerificationResult :=
  fun s =>
    match try_except (verify_body schema)
                     (fun e => assign (append_error (message e)))
                     (new_verification, s) with
    | (Returns _, (result, s')) => (Returns result, s')
    | (Raises e, (_, s')) => (Raises e, s')
    end.

(** What the row-count lookups of a run answered, table by table (a
    record kept beside the run). *)
Fixpoint lookups (schema : str) (tables : list str) (s : db)
  : list (str * completion Z) :=
  match tables with
  | [] => []
  | table :: rest =>
      match fetch_count ses (CountRows schema table) s with
      | (answer, s') => (table, answer) :: lookups schema rest s'
      end
  end.

(** The entry of [table_rows] for a lookup that answered [answer]. *)
Definition recorded (answer : completion Z) : Z :=
  match answer with
  | Returns count => count
  | Raises _ => sentinel
  end.
End Verifier.

(** ** Table selection: the grouping loop of [MainApplication._schema_dump]

    The names the selection dialog returns, [schema.table], are grouped by
    schema into a dict whose values are lists; the dict keeps its keys in
    the order of insertion and is modelled as an association list. *)

Definition dot : N := 46%N.

(** [name.split(".", 1)]. *)
Fixpoint split_once (sep : N) (s : str) : list str :=
  match s with
  | [] => [[]]
  | c :: s' =>
      if (c =? sep)%N then [[]; s']
      else match split_once sep s' with
           | l :: ls => (c :: l) :: ls
           | [] => [[c]]
           end
  end.

(** [d.setdefault(key, []).append(item)]. *)
Fixpoint setdefault_append (key item : str) (d : list (str * list str))
  : list (str * list str) :=
  match d with
  | [] => [(key, [item])]
  | (k, v) :: rest =>
      if str_eqb k key then (k, v ++ [item]) :: rest
      else (k, v) :: setdefault_append key item rest
  end.

(** The [ValueError] of unpacking a list of one element into two names. *)
Definition unpack_error : exn :=
  Error (lit "not enough values to unpack (expected 2, got 1)").

(** The loop over the selected names, from the dict [d] on. *)
Fixpoint group_selected (selected : list str) (d : list (str * list str))
  : completion (list (str * list str)) :=
  match selected with
  | [] => Returns d
  | name :: rest =>
      match split_once dot name with
      | [schema; table] =>
          group_selected rest (setdefault_append schema table d)
      | _ => Raises unpack_error
      end
  end.

(** ** The dump action: [MainApplication._do_schema_dump]

    The text [sql] written to the file, when every catalog query answers.
    [clock i] is the time stamp the [i]-th call of [dump] reads. *)

Section SchemaDumpAction.
Variable float : Type.
Variable str_of_float : float -> str.
Variable object : Type.
Variable str_of_object : object -> str.
Variable unicode_upper : N -> str.
Variable cat : catalog (value float object).
Variable clock : nat -> str.

(** The loop over [selections.items()]. *)
Fixpoint selection_parts (i : nat) (selections : list (str * list str))
  (include_data : bool) : list str :=
  match selections with
  | [] => []
  | (schema, tables) :: rest =>
      dump float str_of_float object str_of_object unicode_upper cat
           (clock i) (Some tables) include_data schema false false
      :: selection_parts (S i) rest include_data
  end.

Definition _do_schema_dump (selections : option (list (str * list str)))
  (include_data : bool) : str :=
  match selections with
  | None =>
      dump_database float str_of_float object str_of_object unicode_upper cat
                    (clock 0) include_data
  | Some groups => join [nl; nl] (selection_parts 0 groups include_data)
  end.
End SchemaDumpAction.

(** ** Auxiliary definitions for the statements about the splitter and
    the formatter *)

Definition plpgsql_example : str :=
  lit "CREATE FUNCTION f() RETURNS int AS $$" ++ [nl]
  ++ lit " BEGIN RETURN 1; END;" ++ [nl]
  ++ lit "$$ LANGUAGE plpgsql;".

Definition is_lower_hex (c : N) : bool :=
  ((48 <=? c) && (c <=? 57) || (97 <=? c) && (c <=? 102))%N.

(** A session that counts the queries it answers: the lookup of the
    table [b] is refused and the count of the sequences fails. *)
Definition demo_session : session nat :=
  {| fetch_count := fun q n =>
       (match q with
        | CountTables _ => Returns 3%Z
        | CountRows _ t =>
            if str_eqb t (lit "b")
            then Raises (Error (lit "permission denied for table b"))
            else if str_eqb t (lit "a") then Returns 5%Z else Returns 7%Z
        | CountSequences _ => Raises (Error (lit "connection lost"))
        | _ => Returns 0%Z
        end, S n);
     fetch_tables := fun _ n => (Returns [lit "a"; lit "b"; lit "c"], S n) |}.

(** A session on a connection that is not in autocommit mode; its state
    tells whether the transaction of the connection is aborted.  The
    lookup of table [b] is refused, which aborts the transaction, and the
    server refuses every query sent after that.  Table [c] holds 5 rows. *)
Definition aborted_error : str :=
  lit "current transaction is aborted, commands ignored until end of transaction block".

Definition aborting_session : session bool :=
  {| fetch_count := fun q (aborted : bool) =>
       if aborted then (Raises (Error aborted_error), true)
       else match q with
            | CountTables _ => (Returns 3%Z, false)
            | CountRows _ t =>
                if str_eqb t (lit "b")
                then (Raises (Error (lit "permission denied for table b")),
                      true)
                else (Returns 5%Z, false)
            | CountSequences _ => (Returns 2%Z, false)
            | CountIndexes _ => (Returns 4%Z, false)
            | CountViews _ => (Returns 1%Z, false)
            end;
     fetch_tables := fun _ (aborted : bool) =>
       if aborted then (Raises (Error aborted_error), true)
       else (Returns [lit "a"; lit "b"; lit "c"], false) |}.

(** The state of the session after the row-count lookups of a run. *)
Fixpoint after_lookups {db} (ses : session db) (schema : str)
  (tables : list str) (s : db) : db :=
  match tables with
  | [] => s
  | table :: rest =>
      after_lookups ses schema rest
        (snd (fetch_count ses (CountRows schema table) s))
  end.

(** ** The per-file mode as the design document words it

    Each file runs in a transaction of its own: its statements are sent
    in order; when all of them succeed the transaction is committed, and at
    the first that fails it is rolled back and the rest of the file is not
    sent.  A file that cannot be read is left out.  In every case the run
    goes on with the next file. *)

(** What became of one file: the statements that succeeded, and for a file
    with a failing statement that statement and those after it. *)
Inductive file_fate :=
| AllSucceeded (queries : list str)
| StatementFailed (ran : list str) (failed : str) (skipped : list str)
| ReadFailed.

Fixpoint sent_until_rejected (srv : server) (qs : list str) (c : connection)
  : connection * list str * option (str * list str) :=
  match qs with
  | [] => (c, [], None)
  | q :: rest =>
      match conn_execute srv c q with
      | (c1, None) =>
          let '(c2, ran, rejected) := sent_until_rejected srv rest c1 in
          (c2, q :: ran, rejected)
      | (c1, Some _) => (c1, [], Some (q, rest))
      end
  end.

Definition file_by_wording (srv : server) (text : completion str)
  (c : connection) : connection * file_fate :=
  match text with
  | Raises _ => (c, ReadFailed)
  | Returns sql =>
      let '(c1, ran, rejected) :=
        sent_until_rejected srv (_split_queries sql)
                            (fst (set_autocommit false c)) in
      match rejected with
      | None => (fst (conn_commit srv c1), AllSucceeded ran)
      | Some (q, rest) =>
          (fst (conn_rollback srv c1), StatementFailed ran q rest)
      end
  end.

Fixpoint files_by_wording (srv : server) (texts : list (completion str))
  (c : connection) : connection * list file_fate :=
  match texts with
  | [] => (c, [])
  | text :: rest =>
      let '(c1, fate) := file_by_wording srv text c in
      let '(c2, fates) := files_by_wording srv rest c1 in
      (c2, fate :: fates)
  end.

Definition all_succeeded (f : file_fate) : bool :=
  match f with AllSucceeded _ => true | _ => false end.

Definition statement_failed (f : file_fate) : bool :=
  match f with StatementFailed _ _ _ => true | _ => false end.

Definition read_failed (f : file_fate) : bool :=
  match f with ReadFailed => true | _ => false end.

(** The statements of a file that were parsed, that succeeded, and that
    its commit made durable; the calls its run made on the handle. *)
Definition parsed (f : file_fate) : list str :=
  match f with
  | AllSucceeded qs => qs
  | StatementFailed ran q rest => ran ++ q :: rest
  | ReadFailed => []
  end.

Definition succeeded (f : file_fate) : list str :=
  match f with
  | AllSucceeded qs => qs
  | StatementFailed ran _ _ => ran
  | ReadFailed => []
  end.

Definition made_durable (f : file_fate) : list str :=
  match f with AllSucceeded qs => qs | _ => [] end.

Definition calls_of (f : file_fate) : list call :=
  match f with
  | AllSucceeded qs => List.map Execute qs ++ [Commit]
  | StatementFailed ran q _ => List.map Execute ran ++ [Execute q; Rollback]
  | ReadFailed => []
  end.

(** ** Auxiliary definitions for the statements about the executor *)

Definition how_many {A} (p : A -> bool) (l : list A) : Z :=
  len (List.filter p l).

(** The texts of a list of files, when all of them can be read, and the
    statements they hold. *)
Definition texts_of (cp949_decode : list byte -> option str)
  (fs : str -> file_access) (file_paths : list str) (texts : list str) : Prop :=
  Forall2 (fun p t => _read_file cp949_decode fs p = Returns t)
          file_paths texts.

Definition statements_of (texts : list str) : list str :=
  concat (List.map _split_queries texts).

(** A connection in autocommit mode on which nothing has happened yet. *)
Definition idle : connection :=
  {| autocommit := true; pending := []; committed := []; history := [];
     in_transaction := false; closed := false |}.

(** Three files: one that executes, one whose second statement is
    rejected, and one that does not exist. *)
Definition demo_fs (file_path : str) : file_access :=
  if str_eqb file_path (lit "good.sql") then
    Readable (list_byte_of_string "INSERT INTO t VALUES (1);")
  else if str_eqb file_path (lit "bad.sql") then
    Readable (list_byte_of_string "INSERT INTO t VALUES (2);" ++ [Byte.x0a]
              ++ list_byte_of_string "BOOM;" ++ [Byte.x0a]
              ++ list_byte_of_string "INSERT INTO t VALUES (3);")
  else Refused (IOError (lit "No such file or directory")).

(** A server that rejects the statement [BOOM;] and nothing else. *)
Definition demo_server : server :=
  {| execute_error := fun _ query =>
       if str_eqb query (lit "BOOM;") then Some (lit "syntax error") else None;
     commit_error := fun _ => None;
     rollback_error := fun _ => None;
     breaks := fun _ => false |}.

(** A server whose connection is lost: the first call that reaches for the
    server fails and the driver marks the handle closed, after which every
    call on the handle raises. *)
Definition lost_server : server :=
  {| execute_error := fun _ _ => Some (lit "server closed the connection");
     commit_error := fun _ => Some (lit "server closed the connection");
     rollback_error := fun _ => Some (lit "server closed the connection");
     breaks := fun _ => true |}.

(** A server that executes every statement and refuses every commit, as
    when a deferred constraint is violated; the link to it holds. *)
Definition strict_server : server :=
  {| execute_error := fun _ _ => None;
     commit_error := fun _ => Some (lit "violates foreign key constraint");
     rollback_error := fun _ => None;
     breaks := fun _ => false |}.

Definition no_cp949 (bs : list byte) : option str := None.

Definition demo_files : list str :=
  [lit "bad.sql"; lit "missing.sql"; lit "good.sql"].

(** The connection and the counters after the per-file run of
    [demo_files] against [demo_server]. *)
Definition demo_after : connection :=
  {| autocommit := true;
     pending := [];
     committed := [lit "INSERT INTO t VALUES (1);"];
     history := [Execute (lit "INSERT INTO t VALUES (2);");
                 Execute (lit "BOOM;");
                 Rollback;
                 Execute (lit "INSERT INTO t VALUES (1);");
                 Commit];
     in_transaction := false; closed := false |}.

Definition demo_result : ExecutionResult :=
  {| total_files := 3; success_files := 1; failed_files := 2;
     total_queries := 4; success_count := 2; error_count := 1 |}.

(** ** Auxiliary definitions for the statements about the dump *)

Definition is_create_table (l : line) : bool :=
  match mark_of l with CreateTable _ _ => true | _ => false end.

Definition is_foreign_key (l : line) : bool :=
  match mark_of l with ForeignKey _ _ _ => true | _ => false end.

(** The same for the statements of one schema. *)
Definition creates_table_in (schema : str) (l : line) : bool :=
  match mark_of l with CreateTable s _ => str_eqb s schema | _ => false end.

Definition adds_foreign_key_in (schema : str) (l : line) : bool :=
  match mark_of l with ForeignKey s _ _ => str_eqb s schema | _ => false end.

(** Elements that belong to no statement the properties single out. *)
Definition unmarked (l : line) : Prop := mark_of l = Plain.

Definition clean_for (schema : str) (l : line) : Prop :=
  creates_table_in schema l = false /\ adds_foreign_key_in schema l = false.

Definition clean (l : line) : Prop :=
  is_create_table l = false /\ is_foreign_key l = false.

(** Where the element of index [i] starts in the rendered text. *)
Definition offset (ls : list line) (i : nat) : nat :=
  match i with
  | O => 0
  | S _ => length (render (take i ls)) + 1
  end.

(** Every element that satisfies [first] stands before every element
    that satisfies [second], in the list and in the rendered text. *)
Definition all_before (first second : line -> bool) (ls : list line) : Prop :=
  forall i j li lj,
    ls !! i = Some li -> ls !! j = Some lj ->
    first li = true -> second lj = true ->
    i < j /\ offset ls i < offset ls j.

(** The list can be cut in two so that no [second] stands before the cut
    and no [first] after it. *)
Definition cut_between (first second : line -> bool) (ls : list line) : Prop :=
  exists pre post,
    ls = pre ++ post
    /\ Forall (fun l => second l = false) pre
    /\ Forall (fun l => first l = false) post.

(** A catalog with nothing in it but the given schemas, tables, foreign
    keys and indexes. *)
Definition small_catalog (value : Type) (schemas : list str)
  (tables : str -> list str) (fks : str -> list (str * str * str))
  (indexes : str -> list index_row) (names : str -> list str)
  : catalog value :=
  {| user_schemas := schemas;
     all_tables := tables;
     extensions := [];
     enum_types := fun _ => [];
     sequences := fun _ => [];
     columns := fun _ _ =>
       [{| col_name := lit "id"; col_type := lit "integer";
           not_null := true; default := None |};
        {| col_name := lit "other_id"; col_type := lit "integer";
           not_null := false; default := None |}];
     primary_key := fun _ _ => None;
     unique_constraints := fun _ _ => [];
     check_constraints := fun _ _ => [];
     foreign_keys := fks;
     pg_indexes := indexes;
     pk_unique_names := names;
     views := fun _ => [];
     column_names := fun _ _ => [lit "id"; lit "other_id"];
     table_data := fun _ _ => [] |}.

(** Two schemas whose tables reference each other: [public.a] has a
    foreign key to [sales.b] and [sales.b] one to [public.a]. *)
Definition mutual_catalog : catalog (value unit unit) :=
  small_catalog _ [lit "public"; lit "sales"]
    (fun schema => if str_eqb schema (lit "public") then [lit "a"]
                   else [lit "b"])
    (fun schema =>
       if str_eqb schema (lit "public")
       then [(lit "a_b_fk", lit "a",
              lit "FOREIGN KEY (other_id) REFERENCES sales.b(id)")]
       else [(lit "b_a_fk", lit "b",
              lit "FOREIGN KEY (other_id) REFERENCES a(id)")])
    (fun _ => []) (fun _ => []).

(** One schema with two tables that reference each other. *)
Definition cyclic_catalog : catalog (value unit unit) :=
  small_catalog _ [lit "public"]
    (fun _ => [lit "a"; lit "b"])
    (fun _ => [(lit "a_b_fk", lit "a",
                lit "FOREIGN KEY (other_id) REFERENCES b(id)");
               (lit "b_a_fk", lit "b",
                lit "FOREIGN KEY (other_id) REFERENCES a(id)")])
    (fun _ => []) (fun _ => []).

Definition no_upper (c : N) : str := [c].

(** A unique index that backs no constraint, on a table of the set. *)
Definition users_email_idx : index_row :=
  {| tablename := lit "users";
     indexname := lit "users_email_idx";
     indexdef := lit "CREATE UNIQUE INDEX users_email_idx ON "
                 ++ quoted (lit "users") ++ lit " USING btree (email)" |}.

Definition orders_day_idx : index_row :=
  {| tablename := lit "orders";
     indexname := lit "orders_day_idx";
     indexdef := lit "CREATE INDEX orders_day_idx ON "
                 ++ quoted (lit "orders") ++ lit " USING btree (day)" |}.

(** A plain index of the table [users], with its definition as the
    catalog prints it (the table qualified by its schema) and as it reads
    without the schema. *)
Definition users_name_idx : index_row :=
  {| tablename := lit "users";
     indexname := lit "users_name_idx";
     indexdef :=
       lit "CREATE INDEX users_name_idx ON public.users USING btree (name)" |}.

Definition users_name_idx_bare : index_row :=
  {| tablename := lit "users";
     indexname := lit "users_name_idx";
     indexdef :=
       lit "CREATE INDEX users_name_idx ON users USING btree (name)" |}.

Definition index_catalog (rows : list index_row) : catalog (value unit unit) :=
  small_catalog _ [lit "public"] (fun _ => [lit "users"; lit "orders"])
                (fun _ => []) (fun _ => rows) (fun _ => [lit "users_pkey"]).

Definition is_index_line (l : line) : bool :=
  match mark_of l with CreateIndex _ => true | _ => false end.

Definition mutual_dump : list line :=
  dump_database_lines unit (fun _ => []) unit (fun _ => []) no_upper
                      mutual_catalog (lit "2026-01-01 00:00:00") false.

(** ** Auxiliary definitions for the further properties *)

(** A statement as [close_buffer] keeps it. *)
Definition kept_statement (q : str) : Prop :=
  q <> [] /\ strip q = q /\ forallb comment_or_blank (split nl q) = false.

(** Reading a quoted literal back, as the SQL lexer does: after the opening
    quote, two quotes in a row stand for one and a single quote closes the
    literal.  The result is the content and the text left after the closing
    quote. *)
Fixpoint read_quoted (s : str) : option (str * str) :=
  match s with
  | [] => None
  | c :: s' =>
      if (c =? quote)%N then
        match s' with
        | c' :: s'' =>
            if (c' =? quote)%N
            then option_map (fun '(body, rest) => (quote :: body, rest))
                   (read_quoted s'')
            else Some ([], s')
        | [] => Some ([], [])
        end
      else option_map (fun '(body, rest) => (c :: body, rest)) (read_quoted s')
  end.

Definition read_literal (s : str) : option (str * str) :=
  match s with
  | c :: s' => if (c =? quote)%N then read_quoted s' else None
  | [] => None
  end.

(** The statement [_dump_foreign_keys] writes for one row of its query. *)
Definition fk_statement (schema : str) (row : str * str * str) : line :=
  let '(conname, table_name, definition) := row in
  Line (ForeignKey schema table_name conname)
       (lit "ALTER TABLE " ++ quoted schema ++ lit "."
        ++ quoted table_name ++ lit " " ++ lit "ADD CONSTRAINT "
        ++ quoted conname ++ lit " " ++ definition ++ lit ";").

(** A schema with no enum type, sequence, table, foreign key, index or
    view. *)
Definition bare_schema {value} (cat : catalog value) (schema : str) : Prop :=
  enum_types cat schema = [] /\ sequences cat schema = []
  /\ all_tables cat schema = [] /\ foreign_keys cat schema = []
  /\ pg_indexes cat schema = [] /\ views cat schema = [].

(** The DATA banner of [dump] as text. *)
Definition data_banner : str :=
  [nl] ++ rule ++ [nl] ++ lit "-- DATA" ++ [nl] ++ rule ++ [nl].

Definition empty_catalog : catalog (value unit unit) :=
  small_catalog _ [lit "audit"] (fun _ => []) (fun _ => []) (fun _ => [])
                (fun _ => []).

(** A session that answers every query but the row count of table [b]. *)
Definition steady_session : session nat :=
  {| fetch_count := fun q n =>
       (match q with
        | CountTables _ => Returns 3%Z
        | CountRows _ t =>
            if str_eqb t (lit "b")
            then Raises (Error (lit "permission denied for table b"))
            else Returns 5%Z
        | CountSequences _ => Returns 2%Z
        | CountIndexes _ => Returns 4%Z
        | CountViews _ => Returns 1%Z
        end, S n);
     fetch_tables := fun _ n => (Returns [lit "a"; lit "b"; lit "c"], S n) |}.

(** The counters of a result agree with one another. *)
Definition consistent (r : ExecutionResult) : Prop :=
  (0 <= success_files r /\ 0 <= failed_files r
   /\ success_files r + failed_files r <= total_files r
   /\ 0 <= success_count r /\ 0 <= error_count r
   /\ success_count r + error_count r <= total_queries r
   /\ error_count r <= failed_files r)%Z.

(** The counters while a per-file run has [k] files to go. *)
Definition per_file_counters (k : Z) (r : ExecutionResult) : Prop :=
  (0 <= success_files r /\ 0 <= failed_files r
   /\ success_files r + failed_files r + k = total_files r
   /\ 0 <= success_count r /\ 0 <= error_count r
   /\ success_count r + error_count r <= total_queries r
   /\ error_count r <= failed_files r)%Z.

(** The counters while a single-transaction run has [k] files to go and
    nothing has failed. *)
Definition single_counters (k : Z) (r : ExecutionResult) : Prop :=
  (0 <= success_files r /\ failed_files r = 0
   /\ success_files r + k = total_files r
   /\ 0 <= success_count r /\ error_count r = 0
   /\ success_count r <= total_queries r)%Z.

(** Whether a line read while the flag is [flag] closes the statement, and
    the flag after the line. *)
Definition closes (flag : bool) (line : str) : bool :=
  negb (comment_or_blank line) && negb (toggle flag line)
  && endswith (lit ";") (strip line).

Definition flag_after (flag : bool) (line : str) : bool :=
  if comment_or_blank line then flag else toggle flag line.

(** No line closes a statement. *)
Fixpoint no_close (flag : bool) (lines : list str) : Prop :=
  match lines with
  | [] => True
  | l :: rest => closes flag l = false /\ no_close (flag_after flag l) rest
  end.

(** No line but possibly the last closes a statement. *)
Fixpoint open_until_last (flag : bool) (lines : list str) : Prop :=
  match lines with
  | [] => True
  | l :: rest =>
      match rest with
      | [] => True
      | _ => closes flag l = false /\ open_until_last (flag_after flag l) rest
      end
  end.

(** The lines of a text after [lstrip], respectively [rstrip]. *)
Fixpoint ltrim_lines (lines : list str) : list str :=
  match lines with
  | [] => []
  | l :: rest =>
      match rest with
      | [] => [lstrip l]
      | _ => if is_empty (lstrip l) then ltrim_lines rest
             else lstrip l :: rest
      end
  end.

Fixpoint rtrim_lines (lines : list str) : list str :=
  match lines with
  | [] => []
  | l :: rest =>
      match rest with
      | [] => [rstrip l]
      | _ => if is_empty (rstrip (join [nl] rest)) then [rstrip l]
             else l :: rtrim_lines rest
      end
  end.

(** The name the selection dialog shows for a table of a schema, and the
    tables of a schema among chosen pairs of schema and table. *)
Definition display_name (p : str * str) : str := fst p ++ [dot] ++ snd p.

Definition tables_of (schema : str) (pairs : list (str * str)) : list str :=
  List.map snd (List.filter (fun p => str_eqb (fst p) schema) pairs).

(** The entry of a key in a dict, if there is one. *)
Fixpoint dict_get (key : str) (d : list (str * list str))
  : option (list str) :=
  match d with
  | [] => None
  | (k, v) :: rest => if str_eqb k key then Some v else dict_get key rest
  end.

(** * Properties *)

(** ** Strings *)

Lemma split_nonempty sep s : split sep s <> [].
Proof.
  destruct s as [|c s]; simpl; [discriminate|].
  destruct (c =? sep)%N; [discriminate|].
  destruct (split sep s); discriminate.
Qed.

(** Splitting at a separator and joining with it gives the text back. *)
Lemma join_split sep s : join [sep] (split sep s) = s.
Proof.
  induction s as [|c s IH]; [reflexivity|].
  simpl split. destruct (N.eqb_spec c sep) as [->|Hne].
  - pose proof (split_nonempty sep s) as Hs.
    destruct (split sep s) as [|l ls]; [contradiction|].
    change (join [sep] ([] :: l :: ls)) with (sep :: join [sep] (l :: ls)).
    now rewrite IH.
  - pose proof (split_nonempty sep s) as Hs.
    destruct (split sep s) as [|l ls]; [contradiction|].
    rewrite <- IH. now destruct ls.
Qed.

Example count_does_not_overlap :
  count (lit "$$") (lit "$$$") = 1
  /\ count (lit "$$") (lit "$$$$") = 2
  /\ count (lit "$$") (lit "AS $$ x $$; $") = 2.
Proof. vm_compute. auto. Qed.

Example strip_both_ends :
  strip ([9; 32]%N ++ lit "a b" ++ [160; 13; 10]%N) = lit "a b"
  /\ rstrip_char 59 (lit "SELECT 1;;") = lit "SELECT 1"
  /\ strip_ends (lit "(a > 0)") = lit "a > 0".
Proof. vm_compute. auto. Qed.

(** ** StatementSplitter *)

Lemma split_line_keeps_queries st line :
  queries (split_line st line) = queries st
  \/ (comment_or_blank line = false
      /\ toggle (in_dollar st) line = false
      /\ endswith (lit ";") (strip line) = true
      /\ queries (split_line st line)
         = close_buffer (queries st) (current st ++ [line])).
Proof.
  unfold split_line, comment_or_blank.
  destruct (startswith (lit "--") (strip line) || is_empty (strip line)) eqn:Hc;
    simpl; [now left|].
  destruct (toggle (in_dollar st) line) eqn:Ht; simpl; [now left|].
  destruct (endswith (lit ";") (strip line)) eqn:He; simpl; [|now left].
  right. repeat split.
Qed.

Lemma split_line_in_block st line :
  comment_or_blank line = false ->
  toggle (in_dollar st) line = true ->
  split_line st line = SplitState (queries st) (current st ++ [line]) true.
Proof.
  unfold split_line, comment_or_blank. intros -> ->. reflexivity.
Qed.

Lemma split_line_flag st line :
  in_dollar (split_line st line)
  = if comment_or_blank line then in_dollar st
    else toggle (in_dollar st) line.
Proof.
  unfold split_line, comment_or_blank.
  destruct (startswith (lit "--") (strip line) || is_empty (strip line));
    simpl; [reflexivity|].
  destruct (toggle (in_dollar st) line); simpl; [reflexivity|].
  destruct (endswith (lit ";") (strip line)); reflexivity.
Qed.

Lemma toggle_even flag line :
  Nat.odd (count (lit "$$") line) = false -> toggle flag line = flag.
Proof.
  unfold toggle. intros ->. now destruct (contains (lit "$$") line).
Qed.

(** Inside an open block nothing is closed, however many lines with a
    terminator follow, as long as no line toggles the flag. *)
Lemma split_loop_in_block lines : forall st,
  in_dollar st = true ->
  Forall (fun l => comment_or_blank l = true
                   \/ Nat.odd (count (lit "$$") l) = false) lines ->
  split_loop lines st = SplitState (queries st) (current st ++ lines) true.
Proof.
  induction lines as [|l lines IH]; intros st Hin Hall.
  - destruct st; simpl in *. rewrite app_nil_r. now subst.
  - inversion Hall as [|? ? Hl Hrest]; subst.
    unfold split_loop in *. simpl.
    assert (Hstep : split_line st l
                    = SplitState (queries st) (current st ++ [l]) true).
    { destruct (comment_or_blank l) eqn:Hc.
      - unfold split_line. unfold comment_or_blank in Hc. rewrite Hc.
        now rewrite Hin.
      - destruct Hl as [Hl|Hl]; [discriminate|].
        apply split_line_in_block; [assumption|].
        now rewrite toggle_even. }
    rewrite Hstep, IH; simpl; auto.
    now rewrite <- app_assoc.
Qed.

(** C2: a line closes a statement only when the flag is false after its
    toggle and the trimmed line ends with the terminator; a line read while
    the flag is true is appended and nothing is closed; and the PL/pgSQL
    example is split into exactly one statement, the whole text. *)
Theorem C2_terminator_ignored_inside_dollar_block :
  (forall st line,
     queries (split_line st line) <> queries st ->
     in_dollar (split_line st line) = false
     /\ endswith (lit ";") (strip line) = true)
  /\ (forall st line,
        in_dollar (split_line st line) = true ->
        queries (split_line st line) = queries st
        /\ current (split_line st line) = current st ++ [line])
  /\ (forall st lines,
        in_dollar st = true ->
        Forall (fun l => comment_or_blank l = true
                         \/ Nat.odd (count (lit "$$") l) = false) lines ->
        queries (split_loop lines st) = queries st)
  /\ _split_queries plpgsql_example = [plpgsql_example].
Proof.
  split; [|split; [|split]].
  - intros st line Hne.
    destruct (split_line_keeps_queries st line) as [H|(Hc & Ht & He & _)];
      [contradiction|].
    split; [|assumption].
    now rewrite split_line_flag, Hc.
  - intros st line Hflag.
    destruct (split_line_keeps_queries st line) as [H|(Hc & Ht & He & _)].
    + split; [assumption|].
      unfold split_line in *.
      destruct (startswith (lit "--") (strip line) || is_empty (strip line));
        simpl in *; [reflexivity|].
      destruct (toggle (in_dollar st) line); simpl in *; [reflexivity|].
      destruct (endswith (lit ";") (strip line)); simpl in *;
        [discriminate|reflexivity].
    + rewrite split_line_flag, Hc, Ht in Hflag. discriminate.
  - intros st lines Hin Hall.
    now rewrite split_loop_in_block.
  - vm_compute. reflexivity.
Qed.

Example split_two_statements :
  _split_queries (lit "SELECT 1;" ++ [nl] ++ lit "SELECT 2;")
  = [lit "SELECT 1;"; lit "SELECT 2;"].
Proof. vm_compute. reflexivity. Qed.

(** Comment and blank lines stay with the statement that follows them; a
    buffer of comments only is dropped; the last statement needs no
    terminator; a body that opens and closes on one line is split at its
    end. *)
Example split_comments_and_tail :
  _split_queries (lit "-- header" ++ [nl] ++ lit "" ++ [nl]
                  ++ lit "SELECT 1;" ++ [nl] ++ lit "-- trailing" ++ [nl]
                  ++ lit "DO $$ BEGIN NULL; END $$;" ++ [nl]
                  ++ lit "-- only a comment;" ++ [nl]
                  ++ lit "SELECT 2")
  = [lit "-- header" ++ [nl] ++ [nl] ++ lit "SELECT 1;";
     lit "-- trailing" ++ [nl] ++ lit "DO $$ BEGIN NULL; END $$;";
     lit "-- only a comment;" ++ [nl] ++ lit "SELECT 2"].
Proof. vm_compute. reflexivity. Qed.

(** ** File reading *)

Section ReaderFacts.
Variable cp949_decode : list byte -> option str.
Variable fs : str -> file_access.

Lemma latin1_decode_total bs : exists text, latin1_decode bs = Some text.
Proof. now eexists. Qed.

(** A chain of encodings that ends with Latin-1 decodes every file that
    can be read. *)
Lemma read_with_latin1 encodings file_path bs :
  fs file_path = Readable bs ->
  exists text,
    read_with cp949_decode fs (encodings ++ [Latin1]) file_path = Returns text.
Proof.
  intros Hfs. induction encodings as [|enc rest IH]; simpl; rewrite Hfs.
  - eexists. reflexivity.
  - destruct (decode cp949_decode enc bs); [eexists; reflexivity|exact IH].
Qed.

(** The text read is that of the first encoding of the chain that decodes
    the bytes. *)
Lemma _read_file_readable file_path bs :
  fs file_path = Readable bs ->
  _read_file cp949_decode fs file_path
  = Returns (universal_newlines
               match utf8_decode (List.map Byte.to_N bs) with
               | Some text => text
               | None =>
                   match cp949_decode bs with
                   | Some text => text
                   | None => List.map Byte.to_N bs
                   end
               end).
Proof.
  intros Hfs. unfold _read_file. simpl. rewrite Hfs.
  destruct (utf8_decode _); [reflexivity|].
  destruct (cp949_decode bs); reflexivity.
Qed.

Lemma _read_file_refused file_path e :
  fs file_path = Refused e ->
  _read_file cp949_decode fs file_path = Raises e.
Proof. intros Hfs. unfold _read_file. simpl. now rewrite Hfs. Qed.

(** C10: whatever the bytes of a file that the operating system lets the
    reader open, and whatever the cp949 decoder answers, [_read_file]
    returns a text; it raises only the exception the operating system
    raised, so the error that follows the loop is never reached. *)
Theorem C10_read_file_fails_only_on_os_errors (file_path : str) :
  match fs file_path with
  | Readable bs =>
      exists text, _read_file cp949_decode fs file_path = Returns text
  | Refused e => _read_file cp949_decode fs file_path = Raises e
  end.
Proof using Type.
  destruct (fs file_path) as [bs|e] eqn:Hfs.
  - rewrite (_read_file_readable _ _ Hfs). eexists. reflexivity.
  - now apply _read_file_refused.
Qed.
End ReaderFacts.

(** Bytes that are neither UTF-8 nor (for a decoder that rejects them)
    cp949 are read through Latin-1. *)
Example read_file_latin1_fallback :
  _read_file (fun _ => None)
             (fun _ => Readable [Byte.x53; Byte.xff; Byte.x0d; Byte.x0a])
             (lit "a.sql")
  = Returns [83; 255; 10]%N.
Proof. vm_compute. reflexivity. Qed.

Example utf8_decode_hangul :
  utf8_decode [237; 140; 140; 59]%N = Some [54028; 59]%N
  /\ utf8_decode [192; 128]%N = None
  /\ utf8_decode [237; 160; 128]%N = None.
Proof. vm_compute. auto. Qed.

(** ** ValueFormatter *)

Lemma lit_inj s1 s2 : lit s1 = lit s2 -> s1 = s2.
Proof.
  unfold lit. intros H.
  rewrite <- (string_of_list_ascii_of_string s1),
          <- (string_of_list_ascii_of_string s2).
  f_equal.
  remember (list_ascii_of_string s1) as l1 eqn:E1.
  remember (list_ascii_of_string s2) as l2 eqn:E2.
  clear E1 E2. revert l2 H.
  induction l1 as [|a l1 IH]; intros [|b l2] H; simpl in *;
    try discriminate; [reflexivity|].
  injection H as Hab Hrest.
  f_equal; [|now apply IH].
  rewrite <- (ascii_N_embedding a), <- (ascii_N_embedding b).
  now rewrite Hab.
Qed.

(** The decimal text of an integer determines it. *)
Lemma str_of_Z_inj z1 z2 : str_of_Z z1 = str_of_Z z2 -> z1 = z2.
Proof.
  unfold str_of_Z. intros H. apply lit_inj in H.
  assert (Hd : Some (Z.to_int z1) = Some (Z.to_int z2)).
  { rewrite <- !NilEmpty.isi. now rewrite H. }
  injection Hd as Hd.
  rewrite <- (DecimalZ.of_to z1), <- (DecimalZ.of_to z2).
  now rewrite Hd.
Qed.

Lemma hex_digit_lower d : (d < 16)%N -> is_lower_hex (hex_digit d) = true.
Proof.
  intros Hd. unfold is_lower_hex, hex_digit.
  destruct (N.ltb_spec d 10).
  - apply orb_true_iff. left. apply andb_true_iff.
    split; apply N.leb_le; lia.
  - apply orb_true_iff. right. apply andb_true_iff.
    split; apply N.leb_le; lia.
Qed.

Lemma byte_to_N_bound b : (Byte.to_N b < 256)%N.
Proof. destruct b; vm_compute; reflexivity. Qed.

Lemma hex_lowercase bs : forallb is_lower_hex (hex bs) = true.
Proof.
  induction bs as [|b bs IH]; [reflexivity|].
  unfold hex in *. simpl. rewrite IH.
  pose proof (byte_to_N_bound b) as Hb.
  rewrite !hex_digit_lower; [reflexivity| |].
  - apply N.mod_upper_bound. lia.
  - apply N.Div0.div_lt_upper_bound. lia.
Qed.

Lemma hex_length bs : length (hex bs) = 2 * length bs.
Proof.
  induction bs as [|b bs IH]; [reflexivity|].
  unfold hex in *. simpl. rewrite IH. lia.
Qed.

(** Escaping doubles every single quote and changes nothing else. *)
Lemma replace_quote_count s :
  count_occ N.eq_dec (replace quote (lit "''") s) quote
  = 2 * count_occ N.eq_dec s quote.
Proof.
  induction s as [|c s IH]; [reflexivity|].
  unfold replace in *. simpl.
  destruct (N.eqb_spec c quote) as [->|Hne].
  - rewrite count_occ_app, IH.
    destruct (N.eq_dec quote quote); [|contradiction].
    vm_compute (count_occ N.eq_dec (lit "''") quote). lia.
  - rewrite count_occ_app, IH.
    destruct (N.eq_dec c quote); [contradiction|].
    simpl. destruct (N.eq_dec c quote); [contradiction|]. lia.
Qed.

Lemma replace_without_quote s :
  count_occ N.eq_dec s quote = 0 -> replace quote (lit "''") s = s.
Proof.
  induction s as [|c s IH]; [reflexivity|].
  unfold replace in *. simpl.
  destruct (N.eq_dec c quote) as [->|Hne]; [discriminate|].
  intros H. destruct (N.eqb_spec c quote); [contradiction|].
  simpl. now rewrite IH.
Qed.

(** C4, counterexample: the literal of the single byte 0xAB has two
    backslashes before the [x]; it is not the text with one backslash. *)
Lemma C4_bytes_literal_has_two_backslashes :
  _format_value unit (fun _ => []) unit (fun _ => []) (VBytes [Byte.xab])
  = [69; 39; 92; 92; 120; 97; 98; 39]%N
  /\ _format_value unit (fun _ => []) unit (fun _ => []) (VBytes [Byte.xab])
     <> lit "E'\xab'".
Proof. split; [vm_compute; reflexivity|vm_compute; discriminate]. Qed.

Section FormatterFacts.
Variable float : Type.
Variable str_of_float : float -> str.
Variable object : Type.
Variable str_of_object : object -> str.

Local Abbreviation fmt :=
  (_format_value float str_of_float object str_of_object).

(** C4, amended: the formatter is a total function that renders None as
    NULL, booleans as TRUE and FALSE, integers and floats as their decimal
    text without quotes, a bytes payload as [E'], two backslashes, [x], the
    lowercase hexadecimal digits of the bytes and a closing quote, a list
    as ARRAY[...] with its items formatted recursively, and any other value
    as its text with every single quote doubled, wrapped in single
    quotes. *)
Theorem C4_format_value_renderings :
  fmt VNone = lit "NULL"
  /\ fmt (VBool true) = lit "TRUE"
  /\ fmt (VBool false) = lit "FALSE"
  /\ (forall n, fmt (VInt n) = str_of_Z n)
  /\ (forall x, fmt (VFloat x) = str_of_float x)
  /\ (forall bs,
        fmt (VBytes bs) = lit "E'" ++ [92; 92; 120]%N ++ hex bs ++ lit "'"
        /\ forallb is_lower_hex (hex bs) = true
        /\ length (hex bs) = 2 * length bs)
  /\ fmt (VBytes [Byte.xab]) = lit "E'\\xab'"
  /\ (forall items,
        fmt (VList items)
        = lit "ARRAY[" ++ join (lit ", ") (List.map fmt items) ++ lit "]")
  /\ fmt (VList [VInt 1; VStr (lit "a")]) = lit "ARRAY[1, 'a']"
  /\ (forall s,
        fmt (VStr s) = lit "'" ++ replace quote (lit "''") s ++ lit "'")
  /\ (forall o,
        fmt (VOther o)
        = lit "'" ++ replace quote (lit "''") (str_of_object o) ++ lit "'")
  /\ (forall s,
        count_occ N.eq_dec (replace quote (lit "''") s) quote
        = 2 * count_occ N.eq_dec s quote).
Proof using Type.
  repeat split; try reflexivity.
  - apply hex_lowercase.
  - apply hex_length.
  - apply replace_quote_count.
Qed.
End FormatterFacts.

(** ** ExecutionEngine *)

Section ExecutorFacts.
Variable cp949_decode : list byte -> option str.
Variable fs : str -> file_access.
Variable srv : server.

Local Abbreviation read := (_read_file cp949_decode fs).

(** *** The calls on the handle *)

Lemma set_autocommit_spec b c c' res :
  set_autocommit b c = (c', res) ->
  pending c' = pending c /\ committed c' = committed c
  /\ history c' = history c
  /\ in_transaction c' = in_transaction c /\ closed c' = closed c
  /\ match res with
     | None => autocommit c' = b
               /\ closed c = false /\ in_transaction c = false
     | Some _ => c' = c /\ (closed c = true \/ in_transaction c = true)
     end.
Proof.
  unfold set_autocommit.
  destruct (closed c) eqn:Hcl; [|destruct (in_transaction c) eqn:Htx];
    intros [= <- <-]; simpl; auto 10.
Qed.

Lemma conn_execute_spec c q c' res :
  conn_execute srv c q = (c', res) ->
  autocommit c' = autocommit c
  /\ history c' = history c ++ [Execute q]
  /\ match res with
     | Some _ => pending c' = pending c /\ committed c' = committed c
     | None =>
         closed c = false /\ closed c' = false
         /\ if autocommit c
            then pending c' = pending c /\ committed c' = committed c ++ [q]
                 /\ in_transaction c' = in_transaction c
            else pending c' = pending c ++ [q] /\ committed c' = committed c
                 /\ in_transaction c' = true
     end.
Proof.
  unfold conn_execute.
  destruct (closed c) eqn:Hcl;
    [|destruct (execute_error srv c q) as [e|]; [|destruct (autocommit c)]];
    intros [= <- <-]; simpl; auto 10.
Qed.

Lemma conn_commit_spec c c' res :
  conn_commit srv c = (c', res) ->
  autocommit c' = autocommit c
  /\ history c' = history c ++ [Commit]
  /\ match res with
     | Some _ => committed c' = committed c
     | None => closed c = false /\ closed c' = false
               /\ in_transaction c' = false
               /\ pending c' = []
               /\ committed c' = committed c ++ pending c
     end.
Proof.
  unfold conn_commit.
  destruct (closed c) eqn:Hcl; [|destruct (commit_error srv c) as [e|]];
    intros [= <- <-]; simpl; auto 10.
Qed.

Lemma conn_rollback_spec c c' res :
  conn_rollback srv c = (c', res) ->
  autocommit c' = autocommit c
  /\ history c' = history c ++ [Rollback]
  /\ committed c' = committed c
  /\ match res with
     | Some _ => pending c' = pending c
     | None => closed c = false /\ closed c' = false
               /\ in_transaction c' = false
               /\ pending c' = []
     end.
Proof.
  unfold conn_rollback.
  destruct (closed c) eqn:Hcl; [|destruct (rollback_error srv c) as [e|]];
    intros [= <- <-]; simpl; auto 10.
Qed.

Lemma conn_execute_autocommit c q :
  autocommit (fst (conn_execute srv c q)) = autocommit c.
Proof.
  destruct (conn_execute srv c q) as [c' res] eqn:H.
  now apply conn_execute_spec in H.
Qed.

Lemma conn_commit_autocommit c :
  autocommit (fst (conn_commit srv c)) = autocommit c.
Proof.
  destruct (conn_commit srv c) as [c' res] eqn:H.
  now apply conn_commit_spec in H.
Qed.

Lemma conn_rollback_autocommit c :
  autocommit (fst (conn_rollback srv c)) = autocommit c.
Proof.
  destruct (conn_rollback srv c) as [c' res] eqn:H.
  now apply conn_rollback_spec in H.
Qed.

(** The [finally] clause of the single-transaction mode: the assignment
    changes nothing but the flag, and when the driver refuses it its error
    replaces the way the body was left. *)
Lemma finally_spec prev c2 (r2 : ExecutionResult) (exit2 : flow) c' r' exit :
  match set_autocommit prev c2 with
  | (c3, None) => (c3, r2, match exit2 with Raise e => Some e | _ => None end)
  | (c3, Some e) => (c3, r2, Some (Error e))
  end = (c', r', exit) ->
  r' = r2
  /\ pending c' = pending c2 /\ committed c' = committed c2
  /\ history c' = history c2
  /\ ((exists e, exit = Some (Error e)
                 /\ (closed c2 = true \/ in_transaction c2 = true))
      \/ (exit = match exit2 with Raise e => Some e | _ => None end
          /\ autocommit c' = prev
          /\ closed c2 = false /\ in_transaction c2 = false)).
Proof.
  destruct (set_autocommit prev c2) as [c3 [e|]] eqn:Hset;
    apply set_autocommit_spec in Hset;
    destruct Hset as (Hp & Hc & Hh & _ & _ & Hres); intros [= <- <- <-].
  - destruct Hres as [_ Hor]. do 4 (split; [auto|]). left. eauto.
  - do 4 (split; [auto|]). right. tauto.
Qed.

(** *** Autocommit *)

(** The [finally] clause of the single-transaction mode assigns the prior
    value on every exit: fall-through, [return] and escaping exception.
    The flag has that value afterwards unless the driver refuses the
    assignment, which it does exactly when the handle is closed or a
    transaction is open on it. *)
Lemma single_transaction_restores_autocommit file_paths c r c' r' exit :
  _execute_single_transaction cp949_decode fs srv file_paths c r
  = (c', r', exit) ->
  (closed c' = false /\ in_transaction c' = false /\ autocommit c' = autocommit c)
  \/ (exists e, exit = Some (Error e)
                /\ (closed c' = true \/ in_transaction c' = true)).
Proof.
  unfold _execute_single_transaction.
  assert (Hfinally : forall c2 r2 (exit2 : flow),
            match set_autocommit (autocommit c) c2 with
            | (c3, None) =>
                (c3, r2, match exit2 with Raise e => Some e | _ => None end)
            | (c3, Some e) => (c3, r2, Some (Error e))
            end = (c', r', exit) ->
            (closed c' = false /\ in_transaction c' = false
             /\ autocommit c' = autocommit c)
            \/ (exists e, exit = Some (Error e)
                          /\ (closed c' = true \/ in_transaction c' = true))).
  { intros c2 r2 exit2.
    destruct (set_autocommit (autocommit c) c2) as [c3 [e|]] eqn:Hset;
      apply set_autocommit_spec in Hset;
      destruct Hset as (_ & _ & _ & Htx & Hcl & Hres); intros [= <- <- <-].
    - right. destruct Hres as [-> Hor]. eauto.
    - left. destruct Hres as (Ha & Hc & Ht). repeat split; congruence. }
  destruct (set_autocommit false c) as [c0 [e|]];
    [apply (Hfinally c0 r (Raise (Error e)))|].
  destruct (single_files cp949_decode fs srv file_paths c0 r)
    as [[c1 r1] [| |e]];
    [|apply (Hfinally c1 r1 Return)|apply (Hfinally c1 r1 (Raise e))].
  destruct (conn_commit srv c1) as [c2 [e|]];
    [apply (Hfinally c2 r1 (Raise (Error e)))|apply (Hfinally c2 r1 Next)].
Qed.

(** The per-file mode restores the flag when its loop ends and the driver
    accepts the assignment. *)
Lemma per_file_restores_autocommit_on_return file_paths c r c' r' :
  _execute_per_file cp949_decode fs srv file_paths c r = (c', r', None) ->
  autocommit c' = autocommit c.
Proof.
  unfold _execute_per_file.
  destruct (per_file_loop cp949_decode fs srv file_paths c r)
    as [[c1 r1] [e|]]; [discriminate|].
  destruct (set_autocommit (autocommit c) c1) as [c2 [e|]] eqn:Hset;
    [discriminate|].
  apply set_autocommit_spec in Hset. intros [= <- <-]. apply Hset.
Qed.

(** X1. Both modes: the flag has its prior value whenever [execute_files]
    returns.  In single-transaction mode it has it after every exit, also
    by an exception, that leaves the handle open and outside a
    transaction; on a closed handle or inside a transaction the driver
    refuses the assignment of the [finally] clause. *)
Lemma execute_files_restores_autocommit
  file_paths single_transaction c c' done :
  execute_files cp949_decode fs srv file_paths single_transaction c
  = (c', done) ->
  (exists r, done = Returns r)
  \/ (single_transaction = true
      /\ closed c' = false /\ in_transaction c' = false) ->
  autocommit c' = autocommit c.
Proof.
  unfold execute_files. destruct single_transaction.
  - destruct (_execute_single_transaction _ _ _ _ _ _)
      as [[c1 r1] exit] eqn:Hrun.
    apply single_transaction_restores_autocommit in Hrun.
    intros [= <- <-] Hexit.
    destruct Hrun as [(_ & _ & H)|(e & -> & Hor)]; [exact H|].
    destruct Hexit as [[r Hr]|(_ & Hcl & Htx)]; [discriminate|].
    destruct Hor; congruence.
  - destruct (_execute_per_file _ _ _ _ _ _) as [[c1 r1] exit] eqn:Hrun.
    intros [= <- <-] [[r Hr]|(Hs & _)]; [|discriminate].
    destruct exit as [e|]; [discriminate|].
    now apply per_file_restores_autocommit_on_return in Hrun.
Qed.
End ExecutorFacts.

(** [demo_fs] refuses a file only with an I/O error. *)
Lemma demo_fs_refusals p e :
  demo_fs p = Refused e -> exists msg, e = IOError msg.
Proof.
  unfold demo_fs.
  destruct (str_eqb p (lit "good.sql")); [discriminate|].
  destruct (str_eqb p (lit "bad.sql")); [discriminate|].
  intros [= <-]. eauto.
Qed.

(** The flag is restored after the per-file run of [demo_files]. *)
Lemma execute_files_restores_autocommit_witness :
  autocommit demo_after = autocommit idle.
Proof.
  apply (execute_files_restores_autocommit no_cp949 demo_fs demo_server
           demo_files false idle demo_after (Returns demo_result)).
  - vm_compute. reflexivity.
  - left. eexists. reflexivity.
Defined.

(** C6, at failing inputs; the connection is in autocommit mode before
    each run and has one file to execute.

    On a lost connection the statement fails, the driver marks the handle
    closed and the rollback of the handler raises.  In per-file mode that
    exception leaves [execute_files] and no restore is attempted; in
    single-transaction mode the [finally] clause attempts it and the driver
    refuses the assignment on the closed handle.  The flag stays off in
    both modes.

    On a connection that stays open, when the server refuses the commit:
    in per-file mode the exception leaves [execute_files] with the flag
    off although the handle would accept the assignment; in
    single-transaction mode the [finally] clause restores it. *)
Lemma C6_per_file_exception_leaves_autocommit_off :
  autocommit idle = true
  /\ execute_files no_cp949 demo_fs lost_server [lit "good.sql"] false idle
     = ({| autocommit := false; pending := []; committed := [];
           history := [Execute (lit "INSERT INTO t VALUES (1);"); Rollback];
           in_transaction := true; closed := true |},
        Raises (Error (lit "connection already closed")))
  /\ execute_files no_cp949 demo_fs lost_server [lit "good.sql"] true idle
     = ({| autocommit := false; pending := []; committed := [];
           history := [Execute (lit "INSERT INTO t VALUES (1);"); Rollback];
           in_transaction := true; closed := true |},
        Raises (Error (lit "connection already closed")))
  /\ execute_files no_cp949 demo_fs strict_server [lit "good.sql"] false idle
     = ({| autocommit := false; pending := []; committed := [];
           history := [Execute (lit "INSERT INTO t VALUES (1);"); Commit];
           in_transaction := false; closed := false |},
        Raises (Error (lit "violates foreign key constraint")))
  /\ execute_files no_cp949 demo_fs strict_server [lit "good.sql"] true idle
     = ({| autocommit := true; pending := []; committed := [];
           history := [Execute (lit "INSERT INTO t VALUES (1);"); Commit];
           in_transaction := false; closed := false |},
        Raises (Error (lit "violates foreign key constraint"))).
Proof. vm_compute. auto 10. Qed.

Section PerFileFacts.
Variable cp949_decode : list byte -> option str.
Variable fs : str -> file_access.
Variable srv : server.

Local Abbreviation read := (_read_file cp949_decode fs).

Lemma len_cons {A} (x : A) l : len (x :: l) = (len l + 1)%Z.
Proof. unfold len. simpl length. lia. Qed.

Lemma len_nonneg {A} (l : list A) : (0 <= len l)%Z.
Proof. unfold len. lia. Qed.

Lemma len_app {A} (l1 l2 : list A) : len (l1 ++ l2) = (len l1 + len l2)%Z.
Proof. unfold len. rewrite length_app. lia. Qed.

(** The statements of one file, when no exception leaves the loop: either
    all of them ran and wait in the open transaction, or one failed, the
    transaction was rolled back and the rest was not run. *)
Lemma per_file_statements_spec qs : forall c r c' r' file_error,
  per_file_statements srv qs c r = (c', r', file_error, None) ->
  autocommit c = false ->
  autocommit c' = false
  /\ committed c' = committed c
  /\ total_files r' = total_files r
  /\ success_files r' = success_files r
  /\ failed_files r' = failed_files r
  /\ total_queries r' = total_queries r
  /\ if file_error
     then pending c' = []
          /\ error_count r' = (error_count r + 1)%Z
          /\ (success_count r <= success_count r' < success_count r + len qs)%Z
     else pending c' = pending c ++ qs
          /\ error_count r' = error_count r
          /\ success_count r' = (success_count r + len qs)%Z.
Proof.
  induction qs as [|q qs IH]; intros c r c' r' ferr Hrun Hauto.
  - simpl in Hrun. inversion Hrun; subst.
    rewrite app_nil_r. unfold len. simpl. repeat split; auto; lia.
  - simpl in Hrun.
    destruct (conn_execute srv c q) as [c1 [e|]] eqn:Hex;
      apply conn_execute_spec in Hex; destruct Hex as (Ha1 & Hh1 & Hres1).
    + destruct (conn_rollback srv c1) as [c2 [e'|]] eqn:Hrb;
        [discriminate|].
      apply conn_rollback_spec in Hrb.
      destruct Hrb as (Ha2 & Hh2 & Hc2 & _ & _ & _ & Hp2).
      destruct Hres1 as (Hp1 & Hc1).
      inversion Hrun; subst. simpl.
      rewrite len_cons. pose proof (len_nonneg qs).
      repeat split; auto; try congruence; lia.
    + rewrite Hauto in Hres1. destruct Hres1 as (_ & _ & Hp1 & Hc1 & _).
      apply IH in Hrun; [|congruence].
      simpl in Hrun.
      destruct Hrun as (Ha & Hc & Htf & Hsf & Hff & Htq & Hrest).
      rewrite len_cons.
      repeat split; auto; try congruence.
      destruct ferr.
      * destruct Hrest as (Hp & He & Hs). repeat split; auto; lia.
      * destruct Hrest as (Hp & He & Hs).
        rewrite Hp, Hp1, <- app_assoc. repeat split; auto; lia.
Qed.

Lemma per_file_step_total_files file_path c r c' r' o :
  per_file_step cp949_decode fs srv file_path c r = (c', r', inl o) ->
  total_files r' = total_files r.
Proof.
  unfold per_file_step.
  destruct (read file_path) as [sql|[msg|msg]];
    [|intros [= <- <- <-]; reflexivity|discriminate].
  cbv zeta.
  destruct (set_autocommit false c) as [c0 [e|]] eqn:Hset; [discriminate|].
  apply set_autocommit_spec in Hset. destruct Hset as (_ & _ & _ & _ & _ & Ha & _).
  destruct (per_file_statements srv _ c0 _) as [[[c1 r2] ferr] [e|]] eqn:Hrun;
    [now destruct ferr|].
  apply per_file_statements_spec in Hrun; [|assumption].
  destruct Hrun as (_ & _ & Htf & _). simpl in Htf.
  destruct ferr.
  - now intros [= <- <- <-].
  - destruct (conn_commit srv c1) as [c2 [e|]]; [discriminate|].
    now intros [= <- <- <-].
Qed.

Lemma per_file_loop_total_files file_paths : forall c r c' r',
  per_file_loop cp949_decode fs srv file_paths c r = (c', r', None) ->
  total_files r' = total_files r.
Proof.
  induction file_paths as [|p ps IH]; intros c r c' r' Hrun; simpl in Hrun.
  - now injection Hrun as <- <-.
  - destruct (per_file_step cp949_decode fs srv p c r)
      as [[c1 r1] [o|e]] eqn:Hstep; [|discriminate].
    apply per_file_step_total_files in Hstep.
    apply IH in Hrun. congruence.
Qed.

Lemma how_many_cons {A} (p : A -> bool) x l :
  how_many p (x :: l) = ((if p x then 1 else 0) + how_many p l)%Z.
Proof.
  unfold how_many. simpl. destruct (p x); [rewrite len_cons|]; lia.
Qed.

(** *** A server that accepts every commit and rollback *)

Section SteadyServer.
Hypothesis commit_succeeds : forall c, commit_error srv c = None.
Hypothesis rollback_succeeds : forall c, rollback_error srv c = None.
Hypothesis link_holds : forall c, breaks srv c = false.
Hypothesis refusals_are_io_errors :
  forall p e, fs p = Refused e -> exists msg, e = IOError msg.

Lemma read_returns_or_io_error file_path :
  (exists sql, read file_path = Returns sql)
  \/ (exists msg, read file_path = Raises (IOError msg)).
Proof using refusals_are_io_errors.
  destruct (fs file_path) as [bs|e] eqn:Hfs.
  - left. rewrite (_read_file_readable _ _ _ _ Hfs). eauto.
  - right. destruct (refusals_are_io_errors _ _ Hfs) as [msg ->].
    exists msg. now apply _read_file_refused.
Qed.

Lemma set_autocommit_accepted b c :
  closed c = false -> in_transaction c = false ->
  set_autocommit b c
  = ({| autocommit := b; pending := pending c; committed := committed c;
        history := history c; in_transaction := in_transaction c;
        closed := closed c |}, None).
Proof using Type.
  intros Hcl Htx. unfold set_autocommit. now rewrite Hcl, Htx.
Qed.

Lemma conn_execute_stays_open c q :
  closed c = false -> closed (fst (conn_execute srv c q)) = false.
Proof using link_holds.
  intros Hcl. unfold conn_execute. rewrite Hcl.
  destruct (execute_error srv c q); simpl; [apply link_holds|].
  now destruct (autocommit c).
Qed.

Lemma conn_commit_accepted c :
  closed c = false ->
  conn_commit srv c
  = ({| autocommit := autocommit c; pending := [];
        committed := committed c ++ pending c;
        history := history c ++ [Commit];
        in_transaction := false; closed := false |}, None).
Proof using commit_succeeds.
  intros Hcl. unfold conn_commit. now rewrite Hcl, commit_succeeds.
Qed.

Lemma conn_rollback_accepted c :
  closed c = false ->
  conn_rollback srv c
  = ({| autocommit := autocommit c; pending := [];
        committed := committed c; history := history c ++ [Rollback];
        in_transaction := false; closed := false |}, None).
Proof using rollback_succeeds.
  intros Hcl. unfold conn_rollback. now rewrite Hcl, rollback_succeeds.
Qed.

(** The statements sent until one is rejected: what they leave on the
    handle. *)
Lemma sent_until_rejected_spec qs : forall c c1 ran rejected,
  sent_until_rejected srv qs c = (c1, ran, rejected) ->
  closed c = false -> autocommit c = false ->
  closed c1 = false /\ autocommit c1 = false
  /\ committed c1 = committed c
  /\ pending c1 = pending c ++ ran
  /\ history c1
     = history c ++ List.map Execute ran
       ++ match rejected with Some (q, _) => [Execute q] | None => [] end
  /\ qs = ran ++ match rejected with Some (q, rest) => q :: rest | None => [] end.
Proof using link_holds.
  induction qs as [|q qs IH]; intros c c1 ran rejected Hrun Hcl Hauto.
  - simpl in Hrun. injection Hrun as <- <- <-. simpl.
    rewrite !app_nil_r. auto 10.
  - simpl in Hrun.
    pose proof (conn_execute_stays_open c q Hcl) as Hopen.
    destruct (conn_execute srv c q) as [c0 [e|]] eqn:Hex;
      apply conn_execute_spec in Hex; destruct Hex as (Ha0 & Hh0 & Hres0);
      simpl in Hopen.
    + injection Hrun as <- <- <-. destruct Hres0 as (Hp0 & Hc0). simpl.
      rewrite app_nil_r. repeat split; auto; congruence.
    + rewrite Hauto in Hres0. destruct Hres0 as (_ & _ & Hp0 & Hc0 & _).
      destruct (sent_until_rejected srv qs c0) as [[c2 ran2] rej2] eqn:Hrest.
      injection Hrun as <- <- <-.
      apply IH in Hrest; [|assumption|congruence].
      destruct Hrest as (Hcl2 & Ha2 & Hc2 & Hp2 & Hh2 & Hqs).
      rewrite Hp2, Hh2, Hp0, Hh0, <- !app_assoc. simpl.
      repeat split; auto; congruence.
Qed.

(** The loop over the statements of a file does what the wording says:
    it sends the statements until one is rejected, and then rolls back. *)
Lemma per_file_statements_by_wording qs : forall c r c1 ran rejected,
  sent_until_rejected srv qs c = (c1, ran, rejected) ->
  closed c = false ->
  exists r',
    per_file_statements srv qs c r
    = (match rejected with
       | None => c1
       | Some _ => fst (conn_rollback srv c1)
       end, r',
       match rejected with None => false | Some _ => true end, None)
    /\ total_files r' = total_files r
    /\ success_files r' = success_files r
    /\ failed_files r' = failed_files r
    /\ total_queries r' = total_queries r
    /\ success_count r' = (success_count r + len ran)%Z
    /\ error_count r'
       = (error_count r + match rejected with None => 0 | Some _ => 1 end)%Z.
Proof using rollback_succeeds link_holds.
  induction qs as [|q qs IH]; intros c r c1 ran rejected Hrun Hcl.
  - simpl in Hrun. injection Hrun as <- <- <-. exists r. simpl.
    unfold len. simpl. repeat split; auto; lia.
  - simpl in Hrun. simpl per_file_statements.
    pose proof (conn_execute_stays_open c q Hcl) as Hopen.
    destruct (conn_execute srv c q) as [c0 [e|]]; simpl in Hopen.
    + injection Hrun as <- <- <-.
      rewrite (conn_rollback_accepted c0 Hopen). simpl.
      eexists. split; [reflexivity|]. unfold len. simpl.
      repeat split; auto; lia.
    + destruct (sent_until_rejected srv qs c0) as [[c2 ran2] rej2] eqn:Hrest.
      injection Hrun as <- <- <-.
      destruct (IH c0 (set_success_count (success_count r + 1) r)
                   c2 ran2 rej2 Hrest Hopen)
        as (r' & -> & Htf & Hsf & Hff & Htq & Hsc & Hec).
      exists r'. split; [reflexivity|]. simpl in *. rewrite len_cons.
      repeat split; auto; lia.
Qed.

(** One file of a per-file run does what the wording says of it, and
    leaves the handle open and outside a transaction as it found it. *)
Lemma per_file_step_by_wording file_path c r :
  closed c = false -> in_transaction c = false ->
  let '(c1, fate) := file_by_wording srv (read file_path) c in
  exists r' o,
    per_file_step cp949_decode fs srv file_path c r = (c1, r', inl o)
    /\ closed c1 = false /\ in_transaction c1 = false
    /\ history c1 = history c ++ calls_of fate
    /\ (pending c = [] ->
        pending c1 = [] /\ committed c1 = committed c ++ made_durable fate)
    /\ total_files r' = total_files r
    /\ success_files r'
       = (success_files r + if all_succeeded fate then 1 else 0)%Z
    /\ failed_files r'
       = (failed_files r + if all_succeeded fate then 0 else 1)%Z
    /\ error_count r'
       = (error_count r + if statement_failed fate then 1 else 0)%Z
    /\ success_count r' = (success_count r + len (succeeded fate))%Z
    /\ total_queries r' = (total_queries r + len (parsed fate))%Z.
Proof using commit_succeeds rollback_succeeds link_holds refusals_are_io_errors.
  intros Hcl Htx. unfold per_file_step, file_by_wording.
  destruct (read_returns_or_io_error file_path) as [[sql ->]|[msg ->]].
  - cbv zeta. rewrite (set_autocommit_accepted false c Hcl Htx).
    cbn [fst]. rewrite Hcl, Htx.
    set (c0 := {| autocommit := false; pending := pending c;
                  committed := committed c; history := history c;
                  in_transaction := false; closed := false |}).
    destruct (sent_until_rejected srv (_split_queries sql) c0)
      as [[c1 ran] rejected] eqn:Hsent.
    destruct (per_file_statements_by_wording (_split_queries sql) c0
                (set_total_queries
                   (total_queries r + len (_split_queries sql)) r)
                c1 ran rejected Hsent eq_refl)
      as (r2 & -> & Htf & Hsf & Hff & Htq & Hsc & Hec).
    apply sent_until_rejected_spec in Hsent; [|reflexivity..].
    destruct Hsent as (Hcl1 & Ha1 & Hc1 & Hp1 & Hh1 & Hqs).
    simpl in Htf, Hsf, Hff, Htq, Hsc, Hec, Hc1, Hp1, Hh1.
    destruct rejected as [[q rest]|].
    + rewrite (conn_rollback_accepted c1 Hcl1). cbn [fst].
      eexists. eexists. split; [reflexivity|]. simpl.
      rewrite Hqs in Htq. rewrite Hh1, Hc1, <- !app_assoc. simpl.
      repeat split; auto; try lia. now rewrite app_nil_r.
    + rewrite (conn_commit_accepted c1 Hcl1). cbn [fst].
      eexists. eexists. split; [reflexivity|]. simpl.
      rewrite app_nil_r in Hh1, Hqs. subst ran.
      rewrite Hh1, Hc1, Hp1, <- !app_assoc.
      do 3 (split; [reflexivity|]).
      split; [intros ->; auto|].
      repeat split; auto; lia.
  - eexists. eexists. split; [reflexivity|]. simpl.
    rewrite !app_nil_r. unfold len. simpl. repeat split; auto; lia.
Qed.

(** The loop over the files does what the wording says of each file in
    turn. *)
Lemma per_file_loop_by_wording file_paths : forall c r,
  closed c = false -> in_transaction c = false ->
  let '(c', fates) := files_by_wording srv (List.map read file_paths) c in
  exists r',
    per_file_loop cp949_decode fs srv file_paths c r = (c', r', None)
    /\ closed c' = false /\ in_transaction c' = false
    /\ length fates = length file_paths
    /\ history c' = history c ++ flat_map calls_of fates
    /\ (pending c = [] ->
        pending c' = []
        /\ committed c' = committed c ++ flat_map made_durable fates)
    /\ total_files r' = total_files r
    /\ success_files r' = (success_files r + how_many all_succeeded fates)%Z
    /\ failed_files r'
       = (failed_files r + how_many statement_failed fates
          + how_many read_failed fates)%Z
    /\ error_count r' = (error_count r + how_many statement_failed fates)%Z
    /\ success_count r' = (success_count r + len (flat_map succeeded fates))%Z
    /\ total_queries r' = (total_queries r + len (flat_map parsed fates))%Z.
Proof using commit_succeeds rollback_succeeds link_holds refusals_are_io_errors.
  induction file_paths as [|p ps IH]; intros c r Hcl Htx.
  - simpl. exists r. rewrite !app_nil_r. unfold how_many, len. simpl.
    repeat split; auto; lia.
  - cbn [List.map files_by_wording per_file_loop].
    pose proof (per_file_step_by_wording p c r Hcl Htx) as Hstep.
    destruct (file_by_wording srv (read p) c) as [c1 fate].
    destruct Hstep as (r1 & o & -> & Hcl1 & Htx1 & Hh1 & Hdb1
                       & Htf1 & Hsf1 & Hff1 & Hec1 & Hsc1 & Htq1).
    specialize (IH c1 r1 Hcl1 Htx1).
    destruct (files_by_wording srv (List.map read ps) c1) as [c2 fates].
    destruct IH as (r2 & -> & Hcl2 & Htx2 & Hlen & Hh2 & Hdb2
                    & Htf2 & Hsf2 & Hff2 & Hec2 & Hsc2 & Htq2).
    exists r2. split; [reflexivity|].
    rewrite !how_many_cons. cbn [flat_map length]. rewrite !len_app.
    rewrite Hh2, Hh1, <- app_assoc.
    do 4 (split; [auto|]).
    split.
    { intros Hp. destruct (Hdb1 Hp) as [Hp1 Hc1].
      destruct (Hdb2 Hp1) as [Hp2 Hc2].
      split; [exact Hp2|]. now rewrite Hc2, Hc1, <- app_assoc. }
    repeat split; auto; destruct fate; simpl in *; lia.
Qed.

End SteadyServer.
End PerFileFacts.

Section SingleTransactionFacts.
Variable cp949_decode : list byte -> option str.
Variable fs : str -> file_access.
Variable srv : server.

Local Abbreviation read := (_read_file cp949_decode fs).
Local Abbreviation texts_of := (texts_of cp949_decode fs).

(** The statements of one file in single-transaction mode.  Nothing is
    committed by the loop.  When it falls through every statement ran; when
    it is left at a failure, the calls made are the statements up to the
    failing one and one rollback, and the counters are those of the source. *)
Lemma single_statements_spec qs : forall c r c' r' exit,
  single_statements srv qs c r = (c', r', exit) ->
  autocommit c = false ->
  autocommit c' = false
  /\ committed c' = committed c
  /\ total_files r' = total_files r
  /\ success_files r' = success_files r
  /\ total_queries r' = total_queries r
  /\ match exit with
     | Next =>
         pending c' = pending c ++ qs
         /\ history c' = history c ++ List.map Execute qs
         /\ success_count r' = (success_count r + len qs)%Z
         /\ error_count r' = error_count r
         /\ failed_files r' = failed_files r
     | Return =>
         exists k,
           k < length qs
           /\ history c'
              = history c ++ List.map Execute (take (S k) qs) ++ [Rollback]
           /\ pending c' = []
           /\ success_count r' = (success_count r + Z.of_nat k)%Z
           /\ error_count r' = (error_count r + 1)%Z
           /\ failed_files r' = (total_files r - success_files r)%Z
     | Raise _ =>
         exists k,
           k < length qs
           /\ history c'
              = history c ++ List.map Execute (take (S k) qs) ++ [Rollback]
           /\ success_count r' = (success_count r + Z.of_nat k)%Z
     end.
Proof.
  induction qs as [|q qs IH]; intros c r c' r' exit Hrun Hauto.
  - simpl in Hrun. inversion Hrun; subst. simpl.
    rewrite !app_nil_r. unfold len. simpl. repeat split; auto; lia.
  - simpl in Hrun.
    destruct (conn_execute srv c q) as [c1 [e|]] eqn:Hex;
      apply (conn_execute_spec srv) in Hex;
      destruct Hex as (Ha1 & Hh1 & Hres1).
    + destruct Hres1 as (Hp1 & Hc1).
      destruct (conn_rollback srv c1) as [c2 [e'|]] eqn:Hrb;
        apply (conn_rollback_spec srv) in Hrb;
        destruct Hrb as (Ha2 & Hh2 & Hc2 & Hres2);
        inversion Hrun; subst; simpl;
        (do 5 (split; [congruence|])); exists 0;
        rewrite Hh2, Hh1, <- app_assoc; simpl;
        repeat split; try lia; apply Hres2.
    + rewrite Hauto in Hres1. destruct Hres1 as (_ & _ & Hp1 & Hc1 & _).
      apply IH in Hrun; [|congruence]. simpl in Hrun.
      destruct Hrun as (Ha & Hc & Htf & Hsf & Htq & Hrest).
      do 5 (split; [congruence|]).
      destruct exit as [| |e].
      * destruct Hrest as (Hp & Hh & Hs & He & Hf).
        rewrite len_cons, Hp, Hh, Hp1, Hh1, <- !app_assoc. simpl.
        repeat split; auto; lia.
      * destruct Hrest as (k & Hk & Hh & Hp & Hs & He & Hf).
        exists (S k). rewrite Hh, Hh1, <- !app_assoc. simpl in *.
        repeat split; auto; lia.
      * destruct Hrest as (k & Hk & Hh & Hs).
        exists (S k). rewrite Hh, Hh1, <- !app_assoc. simpl in *.
        repeat split; auto; lia.
Qed.

(** The loop over the files in single-transaction mode.  It commits
    nothing.  It falls through exactly when every file was read and every
    statement of every file ran; a [return] follows a rollback, which is
    the last call made on the handle. *)
Lemma single_files_spec file_paths : forall c r c' r' exit,
  single_files cp949_decode fs srv file_paths c r = (c', r', exit) ->
  autocommit c = false ->
  autocommit c' = false
  /\ committed c' = committed c
  /\ total_files r' = total_files r
  /\ match exit with
     | Next =>
         exists texts,
           texts_of file_paths texts
           /\ pending c' = pending c ++ statements_of texts
           /\ history c' = history c ++ List.map Execute (statements_of texts)
           /\ success_files r' = (success_files r + len file_paths)%Z
           /\ failed_files r' = failed_files r
           /\ total_queries r' = (total_queries r + len (statements_of texts))%Z
           /\ success_count r' = (success_count r + len (statements_of texts))%Z
           /\ error_count r' = error_count r
     | Return =>
         pending c' = []
         /\ (exists calls, history c' = history c ++ calls ++ [Rollback]
                           /\ ~ In Commit calls)
         /\ (success_files r <= success_files r' < success_files r + len file_paths)%Z
         /\ ((error_count r' = (error_count r + 1)%Z
              /\ failed_files r' = (total_files r - success_files r')%Z)
             \/ (error_count r' = error_count r
                 /\ failed_files r' = (failed_files r + 1)%Z))
     | Raise _ =>
         exists calls, history c' = history c ++ calls /\ ~ In Commit calls
     end.
Proof.
  assert (Hnc : forall l : list str, ~ In Commit (List.map Execute l)).
  { intros l Hin. apply in_map_iff in Hin. now destruct Hin as (? & ? & ?). }
  induction file_paths as [|p ps IH]; intros c r c' r' exit Hrun Hauto.
  - simpl in Hrun. inversion Hrun; subst. repeat split; auto.
    exists []. unfold texts_of, statements_of, len. simpl.
    rewrite !app_nil_r. repeat split; auto; lia.
  - simpl in Hrun.
    destruct (read p) as [sql|[msg|msg]] eqn:Hread.
    + destruct (single_statements srv (_split_queries sql) c _)
        as [[c1 r1] exit1] eqn:Hst.
      apply single_statements_spec in Hst; [|assumption]. simpl in Hst.
      destruct Hst as (Ha1 & Hc1 & Htf1 & Hsf1 & Htq1 & Hrest1).
      pose proof (len_nonneg ps) as Hps.
      destruct exit1 as [| |e1].
      * apply IH in Hrun; [|assumption]. simpl in Hrun.
        destruct Hrun as (Ha & Hc & Htf & Hrest).
        destruct Hrest1 as (Hp1 & Hh1 & Hs1 & He1 & Hf1).
        repeat split; try congruence.
        destruct exit as [| |e].
        -- destruct Hrest as (texts & Ht & Hp & Hh & Hsf & Hff & Htq & Hsc & He).
           exists (sql :: texts). unfold texts_of, statements_of in *.
           simpl. rewrite List.map_app, len_cons.
           unfold len in *. rewrite length_app.
           rewrite Hp, Hh, Hp1, Hh1, <- !app_assoc.
           repeat split; auto; try lia.
        -- destruct Hrest as (Hp & (calls & Hh & Hn) & Hsf & Hor).
           rewrite len_cons. repeat split; auto; try lia.
           exists (List.map Execute (_split_queries sql) ++ calls).
           rewrite Hh, Hh1, <- !app_assoc. split; [reflexivity|].
           intros Hin. apply in_app_or in Hin.
           destruct Hin as [Hin|Hin]; [now apply Hnc in Hin|contradiction].
        -- destruct Hrest as (calls & Hh & Hn).
           exists (List.map Execute (_split_queries sql) ++ calls).
           rewrite Hh, Hh1, <- !app_assoc. split; [reflexivity|].
           intros Hin. apply in_app_or in Hin.
           destruct Hin as [Hin|Hin]; [now apply Hnc in Hin|contradiction].
      * inversion Hrun; subst.
        destruct Hrest1 as (k & Hk & Hh & Hp & Hs & He & Hf).
        rewrite len_cons. repeat split; auto; try lia.
        exists (List.map Execute (take (S k) (_split_queries sql))).
        rewrite Hh. split; [reflexivity|apply Hnc].
      * inversion Hrun; subst.
        destruct Hrest1 as (k & Hk & Hh & Hs).
        repeat split; auto.
        exists (List.map Execute (take (S k) (_split_queries sql)) ++ [Rollback]).
        rewrite Hh. split; [reflexivity|].
        intros Hin. apply in_app_or in Hin.
        destruct Hin as [Hin|[Hin|[]]]; [now apply Hnc in Hin|discriminate].
    + pose proof (len_nonneg ps) as Hps.
      destruct (conn_rollback srv c) as [c1 [e|]] eqn:Hrb;
        apply (conn_rollback_spec srv) in Hrb;
        destruct Hrb as (Ha1 & Hh1 & Hc1 & Hres1);
        inversion Hrun; subst; simpl.
      * do 3 (split; [congruence|]).
        exists [Rollback]. split; [assumption|].
        intros [Hin|[]]. discriminate.
      * rewrite len_cons. destruct Hres1 as (_ & _ & _ & Hp1).
        do 3 (split; [congruence|]).
        repeat split; auto; try lia.
        exists []. split; [assumption|]. intros [].
    + inversion Hrun; subst. repeat split; auto.
      exists []. rewrite app_nil_r. split; [reflexivity|]. intros [].
Qed.

(** X2. Single-transaction mode is all-or-nothing.  Either nothing is
    committed, or the function returned, every file was read, every
    statement of every file succeeded and one commit, the last call on
    the handle, made all of them durable. *)
Lemma single_transaction_all_or_nothing file_paths c r c' r' exit :
  _execute_single_transaction cp949_decode fs srv file_paths c r
  = (c', r', exit) ->
  committed c' = committed c
  \/ (exit = None
      /\ exists texts,
           texts_of file_paths texts
           /\ committed c' = committed c ++ pending c ++ statements_of texts
           /\ pending c' = []
           /\ history c'
              = history c ++ List.map Execute (statements_of texts) ++ [Commit]
           /\ success_files r' = (success_files r + len file_paths)%Z
           /\ failed_files r' = failed_files r
           /\ error_count r' = error_count r
           /\ success_count r' = (success_count r + len (statements_of texts))%Z).
Proof.
  unfold _execute_single_transaction.
  destruct (set_autocommit false c) as [c0 [e0|]] eqn:Hset;
    apply set_autocommit_spec in Hset;
    destruct Hset as (Hp0 & Hc0 & Hh0 & _ & _ & Hres0).
  - intros H.
    apply (finally_spec (autocommit c) c0 r (Raise (Error e0))) in H.
    destruct H as (_ & _ & Hc' & _). left. congruence.
  - destruct Hres0 as (Ha0 & _ & _).
    destruct (single_files cp949_decode fs srv file_paths c0 r)
      as [[c1 r1] exit1] eqn:Hfiles.
    apply single_files_spec in Hfiles; [|assumption].
    destruct Hfiles as (Ha & Hc & Htf & Hrest).
    destruct exit1 as [| |e1].
    + destruct (conn_commit srv c1) as [c2 [e|]] eqn:Hcommit;
        apply (conn_commit_spec srv) in Hcommit;
        destruct Hcommit as (Ha2 & Hh2 & Hres2); intros H.
      * apply (finally_spec (autocommit c) c2 r1 (Raise (Error e))) in H.
        destruct H as (_ & _ & Hc' & _). left. congruence.
      * apply (finally_spec (autocommit c) c2 r1 Next) in H.
        destruct H as (-> & Hp' & Hc' & Hh' & Hexit).
        destruct Hres2 as (Hcl1 & Hcl2 & Htx2 & Hp2 & Hc2).
        destruct Hexit as [(e & _ & [Hx|Hx])|(-> & _)]; [congruence..|].
        right. split; [reflexivity|].
        destruct Hrest as (texts & Ht & Hp & Hh & Hsf & Hff & Htq & Hsc & He).
        exists texts.
        rewrite Hc', Hc2, Hc, Hp, Hp', Hp2, Hh', Hh2, Hh, Hc0, Hp0, Hh0,
          <- !app_assoc.
        repeat split; auto.
    + intros H. apply (finally_spec (autocommit c) c1 r1 Return) in H.
      destruct H as (_ & _ & Hc' & _). left. congruence.
    + intros H. apply (finally_spec (autocommit c) c1 r1 (Raise e1)) in H.
      destruct H as (_ & _ & Hc' & _). left. congruence.
Qed.

(** X19. A commit is issued only after every statement of every file ran
    without error. *)
Lemma single_transaction_commit_only_on_success file_paths c r c' r' exit calls :
  _execute_single_transaction cp949_decode fs srv file_paths c r
  = (c', r', exit) ->
  history c' = history c ++ calls ->
  In Commit calls ->
  exists texts,
    texts_of file_paths texts
    /\ calls = List.map Execute (statements_of texts) ++ [Commit]
    /\ success_count r' = (success_count r + len (statements_of texts))%Z
    /\ error_count r' = error_count r.
Proof.
  unfold _execute_single_transaction.
  destruct (set_autocommit false c) as [c0 [e0|]] eqn:Hset;
    apply set_autocommit_spec in Hset;
    destruct Hset as (Hp0 & Hc0 & Hh0 & _ & _ & Hres0).
  - intros H.
    apply (finally_spec (autocommit c) c0 r (Raise (Error e0))) in H.
    destruct H as (_ & _ & _ & Hh' & _).
    rewrite Hh', Hh0. rewrite <- (app_nil_r (history c)) at 1.
    intros Heq Hin. apply app_inv_head in Heq. now subst calls.
  - destruct Hres0 as (Ha0 & _ & _).
    destruct (single_files cp949_decode fs srv file_paths c0 r)
      as [[c1 r1] exit1] eqn:Hfiles.
    apply single_files_spec in Hfiles; [|assumption].
    destruct Hfiles as (Ha & Hc & Htf & Hrest).
    destruct exit1 as [| |e1].
    + destruct Hrest as (texts & Ht & Hp & Hh & Hsf & Hff & Htq & Hsc & He).
      assert (Hcommit : exists c2 res,
                conn_commit srv c1 = (c2, res)
                /\ history c2 = history c1 ++ [Commit]).
      { destruct (conn_commit srv c1) as [c2 res] eqn:Hcm.
        exists c2, res. split; [reflexivity|].
        now apply (conn_commit_spec srv) in Hcm. }
      destruct Hcommit as (c2 & res & -> & Hh2).
      intros H.
      assert (Hfin : r' = r1 /\ history c' = history c2).
      { destruct res as [e|].
        - apply (finally_spec (autocommit c) c2 r1 (Raise (Error e))) in H.
          tauto.
        - apply (finally_spec (autocommit c) c2 r1 Next) in H. tauto. }
      destruct Hfin as [-> Hh'].
      rewrite Hh', Hh2, Hh, Hh0, <- app_assoc.
      intros Heq Hin. apply app_inv_head in Heq. subst calls.
      exists texts. repeat split; auto.
    + intros H. apply (finally_spec (autocommit c) c1 r1 Return) in H.
      destruct H as (_ & _ & _ & Hh' & _).
      destruct Hrest as (_ & (calls' & Hh & Hn) & _).
      rewrite Hh', Hh, Hh0. intros Heq Hin. apply app_inv_head in Heq.
      subst calls.
      apply in_app_or in Hin. destruct Hin as [Hin|[Hin|[]]];
        [contradiction|discriminate].
    + intros H. apply (finally_spec (autocommit c) c1 r1 (Raise e1)) in H.
      destruct H as (_ & _ & _ & Hh' & _).
      destruct Hrest as (calls' & Hh & Hn).
      rewrite Hh', Hh, Hh0. intros Heq Hin. apply app_inv_head in Heq.
      now subst calls.
Qed.
End SingleTransactionFacts.

(** A single-transaction run over one good file: its statement is made
    durable by the final commit. *)
Lemma single_transaction_all_or_nothing_witness :
  _execute_single_transaction no_cp949 demo_fs demo_server [lit "good.sql"]
                              idle new_result
  = ({| autocommit := true; pending := [];
        committed := [lit "INSERT INTO t VALUES (1);"];
        history := [Execute (lit "INSERT INTO t VALUES (1);"); Commit];
        in_transaction := false; closed := false |},
     {| total_files := 0; success_files := 1; failed_files := 0;
        total_queries := 1; success_count := 1; error_count := 0 |},
     None)
  /\ ([lit "INSERT INTO t VALUES (1);"] = committed idle
      \/ (@None exn = None
          /\ exists texts,
               texts_of no_cp949 demo_fs [lit "good.sql"] texts
               /\ [lit "INSERT INTO t VALUES (1);"]
                  = committed idle ++ pending idle ++ statements_of texts
               /\ @nil str = []
               /\ [Execute (lit "INSERT INTO t VALUES (1);"); Commit]
                  = history idle
                    ++ List.map Execute (statements_of texts) ++ [Commit]
               /\ 1%Z = (success_files new_result + len [lit "good.sql"])%Z
               /\ 0%Z = failed_files new_result
               /\ 0%Z = error_count new_result
               /\ 1%Z = (success_count new_result + len (statements_of texts))%Z)).
Proof.
  assert (Hrun : _execute_single_transaction no_cp949 demo_fs demo_server
                   [lit "good.sql"] idle new_result
                 = ({| autocommit := true; pending := [];
                       committed := [lit "INSERT INTO t VALUES (1);"];
                       history := [Execute (lit "INSERT INTO t VALUES (1);");
                                   Commit];
                       in_transaction := false; closed := false |},
                    {| total_files := 0; success_files := 1; failed_files := 0;
                       total_queries := 1; success_count := 1;
                       error_count := 0 |},
                    None))
    by (vm_compute; reflexivity).
  split; [exact Hrun|].
  exact (single_transaction_all_or_nothing
           no_cp949 demo_fs demo_server [lit "good.sql"] idle new_result
           _ _ _ Hrun).
Defined.



(** C1, at the failing input: single-transaction mode over a missing file
    followed by a good one.  The read failure rolls back and stops, but
    [failed_files] stays at 1 while [total_files - success_files] is 2;
    after a statement failure in the first of two files it is 2. *)
Lemma C1_read_failure_skips_failed_files_recount :
  execute_files no_cp949 demo_fs demo_server
                [lit "missing.sql"; lit "good.sql"] true idle
  = ({| autocommit := true; pending := []; committed := [];
        history := [Rollback]; in_transaction := false; closed := false |},
     Returns {| total_files := 2; success_files := 0; failed_files := 1;
                total_queries := 0; success_count := 0; error_count := 0 |})
  /\ execute_files no_cp949 demo_fs demo_server
                   [lit "bad.sql"; lit "good.sql"] true idle
     = ({| autocommit := true; pending := []; committed := [];
           history := [Execute (lit "INSERT INTO t VALUES (2);");
                       Execute (lit "BOOM;"); Rollback];
           in_transaction := false; closed := false |},
        Returns {| total_files := 2; success_files := 0; failed_files := 2;
                   total_queries := 3; success_count := 1; error_count := 1 |}).
Proof. split; vm_compute; reflexivity. Qed.

(** ** VerificationEngine *)

Section VerifierFacts.
Variable db : Type.
Variable ses : session db.

(** One lookup never raises to the loop: its handler records the
    sentinel. *)
Lemma count_one_spec schema table rows s :
  count_one db ses schema table rows s
  = (Returns (<[table := recorded (fst (fetch_count ses (CountRows schema table) s))]> rows),
     snd (fetch_count ses (CountRows schema table) s)).
Proof.
  unfold count_one, try_except, bind, ret.
  now destruct (fetch_count ses (CountRows schema table) s) as [[n|e] s'].
Qed.

Lemma lookups_tables schema tables : forall s,
  List.map fst (lookups db ses schema tables s) = tables.
Proof.
  induction tables as [|t rest IH]; intros s; simpl; [reflexivity|].
  destruct (fetch_count ses (CountRows schema t) s) as [ans s'].
  simpl. now rewrite IH.
Qed.

(** The loop over the tables always returns; it leaves the entries of
    other tables alone, and when no name occurs twice the entry of every
    table is what its own lookup answered. *)
Lemma count_loop_spec schema tables : forall (rows : gmap str Z) s,
  exists rows' s',
    count_loop db ses schema tables rows s = (Returns rows', s')
    /\ (forall t : str, ~ In t tables -> rows' !! t = rows !! t)
    /\ (List.NoDup tables ->
        forall t ans, In (t, ans) (lookups db ses schema tables s) ->
                      rows' !! t = Some (recorded ans)).
Proof.
  induction tables as [|t rest IH]; intros rows s.
  - exists rows, s. simpl. repeat split; auto. intros _ ? ? [].
  - simpl. unfold bind at 1. rewrite count_one_spec.
    destruct (fetch_count ses (CountRows schema t) s) as [ans s1]. simpl.
    destruct (IH (<[t := recorded ans]> rows) s1)
      as (rows' & s' & Hrun & Hframe & Hown).
    exists rows', s'. split; [exact Hrun|]. split.
    + intros t' Hnot. rewrite Hframe by tauto.
      apply lookup_insert_ne. intros ->. apply Hnot. now left.
    + intros Hnd t' ans' [Heq|Hin].
      * inversion Heq; subst. inversion Hnd; subst.
        rewrite Hframe by assumption. apply lookup_insert_eq.
      * inversion Hnd; subst. now apply Hown.
Qed.

(** [verify] is its body under one handler that appends the message. *)
Lemma verify_unfold schema s :
  verify db ses schema s
  = match verify_body db ses schema (new_verification, s) with
    | (Returns _, (r, s')) => (Returns r, s')
    | (Raises e, (r, s')) => (Returns (append_error (message e) r), s')
    end.
Proof.
  unfold verify, try_except.
  now destruct (verify_body db ses schema (new_verification, s))
    as [[[]|e] [r s']].
Qed.

Ltac run_query q s :=
  let n := fresh "n" in
  let e := fresh "e" in
  let s' := fresh "s" in
  destruct (fetch_count ses q s) as [[n|e] s'] eqn:?; simpl.

(** The body of [verify] never touches [errors], and once the table
    names are known [table_rows] holds what the loop computed, whatever
    happens afterwards. *)
Lemma verify_body_spec schema s :
  exists done r s',
    verify_body db ses schema (new_verification, s) = (done, (r, s'))
    /\ errors r = []
    /\ forall n s1 tables s2,
         fetch_count ses (CountTables schema) s = (Returns n, s1) ->
         fetch_tables ses schema s1 = (Returns tables, s2) ->
         table_count r = n
         /\ exists s3,
              count_loop db ses schema tables ∅ s2 = (Returns (table_rows r), s3).
Proof.
  unfold verify_body, bind, call_helper, assign, _count_tables,
    _count_rows_per_table, _count_sequences, _count_indexes, _count_views.
  unfold bind.
  run_query (CountTables schema) s;
    [|do 3 eexists; split; [reflexivity|]; split; [reflexivity|];
      intros ? ? ? ? [=]].
  destruct (fetch_tables ses schema s0) as [[tables|e] s1] eqn:Htables;
    [|do 3 eexists; split; [reflexivity|]; split; [reflexivity|];
      intros ? ? ? ? [= <- <-] Ht; rewrite Htables in Ht; discriminate].
  destruct (count_loop_spec schema tables ∅ s1)
    as (rows & s2 & Hloop & _ & _).
  rewrite Hloop. simpl.
  assert (Hrows : forall n' s1' tables' s2',
            (Returns n, s0) = (Returns n', s1') ->
            fetch_tables ses schema s1' = (Returns tables', s2') ->
            n = n'
            /\ exists s3,
                 count_loop db ses schema tables' ∅ s2' = (Returns rows, s3)).
  { intros ? ? ? ? [= <- <-] Ht. rewrite Htables in Ht.
    injection Ht as <- <-. split; [reflexivity|]. now exists s2. }
  run_query (CountSequences schema) s2;
    [|do 3 eexists; split; [reflexivity|]; split; [reflexivity|]; exact Hrows].
  run_query (CountIndexes schema) s3;
    [|do 3 eexists; split; [reflexivity|]; split; [reflexivity|]; exact Hrows].
  run_query (CountViews schema) s4;
    do 3 eexists; (split; [reflexivity|]); (split; [reflexivity|]); exact Hrows.
Qed.

(** The keys of the dictionary the loop returns. *)
Lemma count_loop_keys schema tables : forall (rows rows' : gmap str Z) s s',
  count_loop db ses schema tables rows s = (Returns rows', s') ->
  forall t, is_Some (rows' !! t) <-> In t tables \/ is_Some (rows !! t).
Proof.
  induction tables as [|x rest IH]; intros rows rows' s s' Hrun t.
  - simpl in Hrun. injection Hrun as <- <-. simpl. tauto.
  - simpl in Hrun. unfold bind in Hrun at 1. rewrite count_one_spec in Hrun.
    apply IH with (t := t) in Hrun. rewrite Hrun. simpl.
    destruct (decide (x = t)) as [->|Hne].
    + rewrite lookup_insert_eq. split; [now left; left|eauto].
    + rewrite lookup_insert_ne by assumption. tauto.
Qed.

(** The loop over the tables in full: the dictionary it returns holds,
    for the lookups in order, the count a lookup returned and -1 for a
    lookup that raised. *)
Lemma count_loop_run schema tables : forall (rows : gmap str Z) s,
  count_loop db ses schema tables rows s
  = (Returns
       (fold_left
          (fun (rows : gmap str Z) '(table, answer) =>
             <[table := match answer with
                        | Returns count => count
                        | Raises _ => (-1)%Z
                        end]> rows)
          (lookups db ses schema tables s) rows),
     after_lookups ses schema tables s).
Proof.
  induction tables as [|t rest IH]; intros rows s; [reflexivity|].
  simpl. unfold bind at 1. rewrite count_one_spec.
  destruct (fetch_count ses (CountRows schema t) s) as [ans s1]. simpl.
  rewrite IH. now destruct ans.
Qed.

(** When the answer of a lookup does not depend on what was asked before
    it, every table has the entry of its own answer. *)
Lemma count_loop_independent schema (answer : str -> completion Z) :
  (forall t s0, fst (fetch_count ses (CountRows schema t) s0) = answer t) ->
  forall tables (rows rows' : gmap str Z) s s',
    count_loop db ses schema tables rows s = (Returns rows', s') ->
    forall t, In t tables ->
      rows' !! t
      = Some (match answer t with
              | Returns count => count
              | Raises _ => (-1)%Z
              end).
Proof.
  intros Hanswer.
  induction tables as [|x rest IH]; intros rows rows' s s' Hrun t Hin;
    [contradiction|].
  simpl in Hrun. unfold bind in Hrun at 1. rewrite count_one_spec in Hrun.
  rewrite Hanswer in Hrun.
  destruct (in_dec (fun a b : str => decide (a = b)) t rest) as [Hrest|Hrest].
  - apply (IH _ _ _ _ Hrun t Hrest).
  - destruct Hin as [->|Hin]; [|contradiction].
    destruct (count_loop_spec schema rest
                (<[t := recorded (answer t)]> rows)
                (snd (fetch_count ses (CountRows schema t) s)))
      as (rows'' & s'' & Hrun' & Hframe & _).
    rewrite Hrun' in Hrun. injection Hrun as <- <-.
    rewrite (Hframe t Hrest), lookup_insert_eq. now destruct (answer t).
Qed.


(** C9: the result of [verify] holds at most one error message. *)
Theorem C9_verify_reports_at_most_one_error (schema : str) (s : db) :
  exists result s',
    verify db ses schema s = (Returns result, s')
    /\ length (errors result) <= 1.
Proof using Type.
  rewrite verify_unfold.
  destruct (verify_body_spec schema s) as (done & r & s' & Hbody & Herr & _).
  rewrite Hbody.
  destruct done as [[]|e].
  - exists r, s'. split; [reflexivity|]. rewrite Herr. simpl. lia.
  - exists (append_error (message e) r), s'.
    split; [reflexivity|]. simpl. rewrite Herr. simpl. lia.
Qed.
End VerifierFacts.

(** A run in which the lookup of one table is refused and a later query
    fails: the other tables keep their counts, the failed table has the
    sentinel, the counts that were not reached stay at zero and the one
    error is reported. *)
Example verify_partial_result :
  match verify nat demo_session (lit "public") 0 with
  | (Returns result, queries_made) =>
      queries_made = 6
      /\ table_count result = 3%Z
      /\ table_rows result !! lit "a" = Some 5%Z
      /\ table_rows result !! lit "b" = Some sentinel
      /\ table_rows result !! lit "c" = Some 7%Z
      /\ sequence_count result = 0%Z
      /\ index_count result = 0%Z
      /\ view_count result = 0%Z
      /\ errors result = [lit "connection lost"]
  | (Raises _, _) => False
  end.
Proof. vm_compute. repeat split; reflexivity. Qed.



(** ** The rendered text *)

Lemma join_cons sep x (l : list str) :
  l <> [] -> join sep (x :: l) = x ++ sep ++ join sep l.
Proof. destruct l; [congruence|reflexivity]. Qed.

Lemma join_app sep (a b : list str) :
  a <> [] -> b <> [] ->
  join sep (a ++ b) = join sep a ++ sep ++ join sep b.
Proof.
  induction a as [|x a IH]; intros Ha Hb; [congruence|].
  destruct a as [|y a].
  - simpl app. now rewrite join_cons.
  - change ((x :: y :: a) ++ b) with (x :: ((y :: a) ++ b)).
    rewrite join_cons by (simpl; congruence).
    rewrite IH by congruence.
    rewrite (join_cons sep x (y :: a)) by congruence.
    now rewrite <- !app_assoc.
Qed.

(** Appending a joined text as one element gives the same text as
    appending its elements. *)
Lemma join_flatten sep (a b c : list str) :
  b <> [] -> join sep (a ++ [join sep b] ++ c) = join sep (a ++ b ++ c).
Proof.
  intros Hb.
  assert (Hbc : join sep ([join sep b] ++ c) = join sep (b ++ c)).
  { destruct c as [|z c]; [now rewrite !app_nil_r|].
    rewrite (join_app sep b (z :: c)) by congruence.
    change ([join sep b] ++ z :: c) with (join sep b :: z :: c).
    now rewrite join_cons by congruence. }
  destruct a as [|x a]; [exact Hbc|].
  rewrite !(join_app sep (x :: a)); try congruence.
  - intros H. apply app_eq_nil in H. tauto.
  - discriminate.
Qed.

Lemma render_nonempty ls : is_empty (strip (render ls)) = false -> ls <> [].
Proof. intros H ->. discriminate. Qed.

Lemma offset_increasing ls i j :
  i < j -> j < length ls -> offset ls i < offset ls j.
Proof.
  intros Hij Hj. destruct j as [|j]; [lia|].
  destruct i as [|i]; simpl offset; [lia|].
  assert (Hgrow : forall k, S k < length ls ->
            length (render (take (S k) ls))
            < length (render (take (S (S k)) ls))).
  { intros k Hk.
    destruct (lookup_lt_is_Some_2 ls (S k) Hk) as [x Hx].
    rewrite (take_S_r ls (S k) x Hx).
    unfold render. rewrite List.map_app, join_app.
    - rewrite !length_app. simpl. lia.
    - destruct ls; simpl in *; [lia|discriminate].
    - discriminate. }
  assert (Hmono : forall d, S (i + d) < length ls ->
            length (render (take (S i) ls))
            <= length (render (take (S (i + d)) ls))).
  { induction d as [|d IHd]; intros Hd.
    - now rewrite Nat.add_0_r.
    - rewrite Nat.add_succ_r in *.
      assert (H1 : S (i + d) < length ls) by lia.
      specialize (IHd H1). specialize (Hgrow (i + d) H1). lia. }
  assert (Hd : exists d, j = S (i + d)) by (exists (j - i - 1); lia).
  destruct Hd as [d ->].
  assert (H1 : S (i + d) < length ls) by lia.
  specialize (Hgrow (i + d) H1). specialize (Hmono d H1). lia.
Qed.

(** The text of the element of index [i] stands in the rendered text at
    [offset ls i]. *)
Lemma render_locates ls i li :
  ls !! i = Some li ->
  exists before after,
    render ls = before ++ text li ++ after /\ length before = offset ls i.
Proof.
  intros Hi.
  assert (Hsplit : render ls = render (take i ls ++ li :: drop (S i) ls))
    by (now rewrite take_drop_middle).
  rewrite Hsplit. clear Hsplit.
  unfold render. rewrite List.map_app. simpl List.map.
  destruct i as [|i].
  - rewrite take_0. simpl app.
    destruct (List.map text (drop 1 ls)) as [|y rest] eqn:E.
    + exists [], []. simpl. now rewrite app_nil_r.
    + exists [], ([nl] ++ join [nl] (y :: rest)).
      rewrite join_cons by congruence. now split.
  - assert (Hne : List.map text (take (S i) ls) <> []).
    { destruct ls; [discriminate|]. simpl. discriminate. }
    rewrite join_app by (congruence || discriminate).
    destruct (List.map text (drop (S (S i)) ls)) as [|y rest] eqn:E.
    + exists (join [nl] (List.map text (take (S i) ls)) ++ [nl]), [].
      simpl offset. unfold render. rewrite app_nil_r, length_app. simpl.
      split; [now rewrite <- app_assoc|reflexivity].
    + exists (join [nl] (List.map text (take (S i) ls)) ++ [nl]),
             ([nl] ++ join [nl] (y :: rest)).
      rewrite join_cons by congruence.
      simpl offset. unfold render. rewrite length_app. simpl.
      split; [now rewrite <- !app_assoc|reflexivity].
Qed.

Section DumpText.
Variable float : Type.
Variable str_of_float : float -> str.
Variable object : Type.
Variable str_of_object : object -> str.
Variable unicode_upper : N -> str.
Variable cat : catalog (value float object).

Local Abbreviation lines_of :=
  (dump_lines float str_of_float object str_of_object unicode_upper cat).

Lemma flat_map_step {A B} (f : A -> list B) x l :
  flat_map f (x :: l) = f x ++ flat_map f l.
Proof using Type. reflexivity. Qed.

Lemma flatten_parts now include_data schemas : forall prefix,
  join [nl]
    (prefix
     ++ flat_map (schema_elements float str_of_float object str_of_object
                                  unicode_upper cat now include_data) schemas)
  = join [nl]
      (prefix
       ++ List.map text
            (flat_map (schema_part float str_of_float object str_of_object
                                   unicode_upper cat now include_data)
                      schemas)).
Proof using Type.
  induction schemas as [|schema rest IH]; intros prefix.
  - reflexivity.
  - rewrite !flat_map_step.
    unfold schema_elements at 1, schema_part at 1, dump. cbn zeta.
    destruct (is_empty (strip (render (lines_of now None include_data schema
                                                true true)))) eqn:Hempty.
    + rewrite !app_nil_l. apply IH.
    + apply render_nonempty in Hempty.
      rewrite List.map_app, <- !app_assoc.
      rewrite (app_assoc prefix).
      change ([render (lines_of now None include_data schema true true); []]
              ++ ?r)
        with ([render (lines_of now None include_data schema true true)]
              ++ ([[]] ++ r)).
      unfold render at 1.
      rewrite join_flatten.
      * rewrite !app_assoc. rewrite IH.
        rewrite !List.map_app, <- !app_assoc. reflexivity.
      * intros H. apply map_eq_nil in H. contradiction.
Qed.

(** The text [dump_database] builds, with the dump of each schema
    appended as one element, is the rendering of [dump_database_lines]. *)
Lemma dump_database_render now include_data :
  dump_database float str_of_float object str_of_object unicode_upper cat
                now include_data
  = render (dump_database_lines float str_of_float object str_of_object
                                unicode_upper cat now include_data).
Proof using Type.
  unfold dump_database, dump_database_lines, render.
  rewrite !List.map_app, !app_assoc.
  apply flatten_parts.
Qed.
End DumpText.

(** ** Dump ordering *)

Lemma cut_between_all_before first second ls :
  cut_between first second ls -> all_before first second ls.
Proof.
  intros (pre & post & -> & Hpre & Hpost) i j li lj Hi Hj Hfirst Hsecond.
  pose proof (lookup_lt_Some _ _ _ Hj) as Hjlen.
  enough (i < j) by (split; [assumption|now apply offset_increasing]).
  assert (Hlt : i < length pre).
  { destruct (Nat.lt_ge_cases i (length pre)) as [H|H]; [assumption|].
    rewrite lookup_app_r in Hi by assumption.
    pose proof (Forall_lookup_1 _ _ _ _ Hpost Hi) as Hno. simpl in Hno.
    congruence. }
  assert (Hge : length pre <= j).
  { destruct (Nat.lt_ge_cases j (length pre)) as [H|H]; [|assumption].
    rewrite lookup_app_l in Hj by assumption.
    pose proof (Forall_lookup_1 _ _ _ _ Hpre Hj) as Hno. simpl in Hno.
    congruence. }
  lia.
Qed.

Lemma cut_between_clean_l first second a b :
  Forall (fun l => first l = false /\ second l = false) a ->
  cut_between first second b -> cut_between first second (a ++ b).
Proof.
  intros Ha (pre & post & -> & Hpre & Hpost).
  exists (a ++ pre), post. rewrite app_assoc. split; [reflexivity|].
  split; [|assumption].
  apply Forall_app. split; [|assumption].
  eapply Forall_impl; [exact Ha|]. now intros l [_ H].
Qed.

Lemma cut_between_clean_r first second a b :
  cut_between first second a ->
  Forall (fun l => first l = false /\ second l = false) b ->
  cut_between first second (a ++ b).
Proof.
  intros (pre & post & -> & Hpre & Hpost) Hb.
  exists pre, (post ++ b). rewrite app_assoc. split; [reflexivity|].
  split; [assumption|].
  apply Forall_app. split; [assumption|].
  eapply Forall_impl; [exact Hb|]. now intros l [H _].
Qed.

Lemma cut_between_clean first second a :
  Forall (fun l => first l = false /\ second l = false) a ->
  cut_between first second a.
Proof.
  intros Ha. exists a, []. rewrite app_nil_r. split; [reflexivity|].
  split; [|constructor].
  eapply Forall_impl; [exact Ha|]. now intros l [_ H].
Qed.

Lemma cut_between_weaken (first second first' second' : line -> bool) ls :
  (forall l, first' l = true -> first l = true) ->
  (forall l, second' l = true -> second l = true) ->
  cut_between first second ls -> cut_between first' second' ls.
Proof.
  intros Hf Hs (pre & post & -> & Hpre & Hpost).
  exists pre, post. split; [reflexivity|]. split.
  - eapply Forall_impl; [exact Hpre|]. intros l H. simpl in *.
    destruct (second' l) eqn:E; [|reflexivity].
    apply Hs in E. congruence.
  - eapply Forall_impl; [exact Hpost|]. intros l H. simpl in *.
    destruct (first' l) eqn:E; [|reflexivity].
    apply Hf in E. congruence.
Qed.

Lemma unmarked_banner title : Forall unmarked (banner title).
Proof. unfold banner. repeat constructor. Qed.

Lemma Forall_map_plain {A} (f : A -> str) (l : list A) :
  Forall unmarked (List.map (fun x => plain (f x)) l).
Proof. apply Forall_map. apply Forall_forall. intros x _. reflexivity. Qed.

Section DumpOrder.
Variable float : Type.
Variable str_of_float : float -> str.
Variable object : Type.
Variable str_of_object : object -> str.
Variable unicode_upper : N -> str.
Variable cat : catalog (value float object).

Local Abbreviation lines_of :=
  (dump_lines float str_of_float object str_of_object unicode_upper cat).
Local Abbreviation database_lines :=
  (dump_database_lines float str_of_float object str_of_object
                       unicode_upper cat).
Local Abbreviation schema_part :=
  (schema_part float str_of_float object str_of_object unicode_upper cat).

Lemma unmarked_extensions : Forall unmarked (_dump_extensions float object cat).
Proof using Type.
  unfold _dump_extensions. destruct (extensions cat) as [|x rows];
    [constructor|].
  apply Forall_app. split; [apply unmarked_banner|].
  apply Forall_app. split; [|repeat constructor].
  apply (Forall_map_plain
           (fun extname => lit "CREATE EXTENSION IF NOT EXISTS "
                           ++ quoted extname ++ lit ";")).
Qed.

Lemma unmarked_enums schema : Forall unmarked (_dump_enums float object cat schema).
Proof using Type.
  unfold _dump_enums. destruct (enum_types cat schema) as [|x rows];
    [constructor|].
  apply Forall_app. split; [apply unmarked_banner|].
  apply Forall_app. split; [|repeat constructor].
  apply Forall_map. apply Forall_forall. intros [typname labels] _. reflexivity.
Qed.

Lemma unmarked_sequences schema tables :
  Forall unmarked (_dump_sequences float object cat schema tables).
Proof using Type.
  unfold _dump_sequences. destruct (sequences cat schema) as [|x rows];
    [constructor|].
  apply Forall_app. split; [apply unmarked_banner|].
  apply Forall_app. split; [|repeat constructor].
  apply Forall_map. apply Forall_forall. intros row _. reflexivity.
Qed.

Lemma unmarked_views schema : Forall unmarked (_dump_views float object cat schema).
Proof using Type.
  unfold _dump_views. destruct (views cat schema) as [|x rows];
    [constructor|].
  apply Forall_app. split; [apply unmarked_banner|].
  apply Forall_flat_map. apply List.Forall_forall.
  intros [viewname definition] _. repeat constructor.
Qed.

Lemma unmarked_data schema table_name :
  Forall unmarked
    (_dump_data float str_of_float object str_of_object cat schema table_name).
Proof using Type.
  unfold _dump_data. destruct (column_names cat schema table_name);
    [constructor|].
  apply Forall_map. apply Forall_forall. intros row _. reflexivity.
Qed.

(** The marks of a table definition name the schema of the dump. *)
Lemma marks_of_table schema table_name :
  Forall (fun l => mark_of l = Plain
                   \/ mark_of l = CreateTable schema table_name)
         (_dump_table float object unicode_upper cat schema table_name).
Proof using Type.
  unfold _dump_table.
  constructor; [now left|].
  do 3 (constructor; [now right|]).
  constructor.
Qed.

Lemma marks_of_foreign_keys schema tables :
  Forall (fun l => mark_of l = Plain
                   \/ exists table_name conname,
                        mark_of l = ForeignKey schema table_name conname)
         (_dump_foreign_keys float object cat schema tables).
Proof using Type.
  unfold _dump_foreign_keys.
  set (fk_rows := match tables with [] => _ | _ => _ end).
  destruct fk_rows as [|x rows]; [constructor|].
  apply Forall_app. split.
  { eapply Forall_impl; [apply unmarked_banner|]. intros l H. now left. }
  apply Forall_app. split; [|repeat constructor; now left].
  apply Forall_map. apply Forall_forall.
  intros [[conname table_name] definition] _. right. simpl. eauto.
Qed.

Lemma marks_of_indexes schema tables :
  Forall (fun l => mark_of l = Plain \/ exists name, mark_of l = CreateIndex name)
         (_dump_indexes float object unicode_upper cat schema tables).
Proof using Type.
  unfold _dump_indexes.
  destruct (index_rows _ _ _ _ _ _) as [|x rows]; [constructor|].
  apply Forall_app. split.
  { eapply Forall_impl; [apply unmarked_banner|]. intros l H. now left. }
  apply Forall_app. split; [|repeat constructor; now left].
  apply Forall_map. apply Forall_forall. intros r _. right. simpl. eauto.
Qed.

Lemma unmarked_clean l : unmarked l -> clean l.
Proof using Type.
  unfold unmarked, clean, is_create_table, is_foreign_key. now intros ->.
Qed.

Lemma unmarked_clean_for schema l : unmarked l -> clean_for schema l.
Proof using Type.
  unfold unmarked, clean_for, creates_table_in, adds_foreign_key_in.
  now intros ->.
Qed.

(** In the dump of one schema the table definitions end before the
    foreign keys begin. *)
Lemma dump_lines_cut now tables include_data schema skip_header skip_extensions :
  cut_between is_create_table is_foreign_key
    (lines_of now tables include_data schema skip_header skip_extensions).
Proof using Type.
  unfold dump_lines.
  set (target := match tables with Some ts => ts | None => _ end).
  apply cut_between_clean_l.
  { destruct skip_header; repeat constructor. }
  apply cut_between_clean_l.
  { destruct skip_extensions; [constructor|].
    eapply Forall_impl; [apply unmarked_extensions|]. apply unmarked_clean. }
  apply cut_between_clean_l.
  { eapply Forall_impl; [apply unmarked_enums|]. apply unmarked_clean. }
  apply cut_between_clean_l.
  { eapply Forall_impl; [apply unmarked_sequences|]. apply unmarked_clean. }
  eexists _, _. split; [reflexivity|]. split.
  - apply Forall_flat_map. apply List.Forall_forall. intros table_name _.
    apply Forall_app. split; [|repeat constructor].
    eapply Forall_impl; [apply marks_of_table|].
    intros l [H|H]; unfold is_foreign_key; now rewrite H.
  - apply Forall_app. split.
    { eapply Forall_impl; [apply marks_of_foreign_keys|].
      intros l [H|(t & c & H)]; unfold is_create_table; now rewrite H. }
    apply Forall_app. split.
    { eapply Forall_impl; [apply marks_of_indexes|].
      intros l [H|(n & H)]; unfold is_create_table; now rewrite H. }
    apply Forall_app. split.
    { eapply Forall_impl; [apply unmarked_views|]. intros l H.
      now apply unmarked_clean in H as [H _]. }
    destruct include_data; [|constructor].
    apply Forall_app. split; [repeat constructor|].
    apply Forall_flat_map. apply List.Forall_forall. intros table_name _.
    eapply Forall_impl; [apply unmarked_data|]. intros l H.
    now apply unmarked_clean in H as [H _].
Qed.

(** The marks of the dump of a schema name that schema. *)
Lemma dump_lines_schema now tables include_data schema skip_header
  skip_extensions other :
  other <> schema ->
  Forall (clean_for other)
    (lines_of now tables include_data schema skip_header skip_extensions).
Proof using Type.
  intros Hne.
  assert (Hs : str_eqb schema other = false).
  { unfold str_eqb. apply bool_decide_eq_false. congruence. }
  unfold dump_lines.
  set (target := match tables with Some ts => ts | None => _ end).
  repeat (apply Forall_app; split).
  - destruct skip_header; repeat constructor.
  - destruct skip_extensions; [constructor|].
    eapply Forall_impl; [apply unmarked_extensions|].
    apply unmarked_clean_for.
  - eapply Forall_impl; [apply unmarked_enums|]. apply unmarked_clean_for.
  - eapply Forall_impl; [apply unmarked_sequences|]. apply unmarked_clean_for.
  - apply Forall_flat_map. apply List.Forall_forall. intros table_name _.
    apply Forall_app. split; [|repeat constructor].
    eapply Forall_impl; [apply marks_of_table|].
    intros l [H|H]; unfold clean_for, creates_table_in, adds_foreign_key_in;
      rewrite H; auto.
  - eapply Forall_impl; [apply marks_of_foreign_keys|].
    intros l [H|(t & c & H)];
      unfold clean_for, creates_table_in, adds_foreign_key_in;
      rewrite H; auto.
  - eapply Forall_impl; [apply marks_of_indexes|].
    intros l [H|(n & H)];
      unfold clean_for, creates_table_in, adds_foreign_key_in;
      rewrite H; auto.
  - eapply Forall_impl; [apply unmarked_views|]. apply unmarked_clean_for.
  - destruct include_data; [|constructor].
    apply Forall_app. split; [repeat constructor|].
    apply Forall_flat_map. apply List.Forall_forall. intros table_name _.
    eapply Forall_impl; [apply unmarked_data|]. apply unmarked_clean_for.
Qed.

Lemma unmarked_heading schema : Forall unmarked (schema_heading schema).
Proof using Type.
  unfold schema_heading. apply Forall_app. split; [repeat constructor|].
  destruct (str_eqb schema (lit "public")); repeat constructor.
Qed.

Lemma schema_part_cut now include_data schema :
  cut_between (creates_table_in schema) (adds_foreign_key_in schema)
    (schema_part now include_data schema).
Proof using Type.
  unfold schema_part.
  destruct (is_empty _); [exists [], []; repeat split; constructor|].
  apply cut_between_clean_l.
  { eapply Forall_impl; [apply unmarked_heading|]. apply unmarked_clean_for. }
  apply cut_between_clean_r; [|repeat constructor].
  eapply cut_between_weaken; [| |apply dump_lines_cut].
  - intros l. unfold creates_table_in, is_create_table.
    now destruct (mark_of l).
  - intros l. unfold adds_foreign_key_in, is_foreign_key.
    now destruct (mark_of l).
Qed.

Lemma schema_part_other now include_data schema other :
  other <> schema -> Forall (clean_for other) (schema_part now include_data schema).
Proof using Type.
  intros Hne. unfold schema_part.
  destruct (is_empty _); [constructor|].
  apply Forall_app. split.
  { eapply Forall_impl; [apply unmarked_heading|]. apply unmarked_clean_for. }
  apply Forall_app. split; [now apply dump_lines_schema|repeat constructor].
Qed.

Lemma schema_parts_cut now include_data schema schemas :
  List.NoDup schemas ->
  cut_between (creates_table_in schema) (adds_foreign_key_in schema)
    (flat_map (schema_part now include_data) schemas).
Proof using Type.
  induction schemas as [|s rest IH]; intros Hnd.
  - exists [], []. repeat split; constructor.
  - inversion Hnd as [|? ? Hnotin Hrest]; subst. simpl.
    destruct (decide (schema = s)) as [->|Hne].
    + apply cut_between_clean_r; [apply schema_part_cut|].
      apply Forall_flat_map. apply List.Forall_forall. intros s' Hin.
      apply schema_part_other. intros ->. contradiction.
    + apply cut_between_clean_l; [now apply schema_part_other|now apply IH].
Qed.

Lemma database_lines_cut now include_data schema :
  List.NoDup (user_schemas cat) ->
  cut_between (creates_table_in schema) (adds_foreign_key_in schema)
    (database_lines now include_data).
Proof using Type.
  intros Hnd. unfold dump_database_lines.
  apply cut_between_clean_l; [repeat constructor|].
  apply cut_between_clean_l.
  { eapply Forall_impl; [apply unmarked_extensions|]. apply unmarked_clean_for. }
  now apply schema_parts_cut.
Qed.
End DumpOrder.

Section DumpOrderTheorem.
Variable float : Type.
Variable str_of_float : float -> str.
Variable object : Type.
Variable str_of_object : object -> str.
Variable unicode_upper : N -> str.
Variable cat : catalog (value float object).

Local Abbreviation dump_text :=
  (dump float str_of_float object str_of_object unicode_upper cat).
Local Abbreviation lines_of :=
  (dump_lines float str_of_float object str_of_object unicode_upper cat).
Local Abbreviation database_text :=
  (dump_database float str_of_float object str_of_object unicode_upper cat).
Local Abbreviation database_lines :=
  (dump_database_lines float str_of_float object str_of_object
                       unicode_upper cat).

(** X27. In every dump of one schema every CREATE TABLE statement stands
    before every ALTER TABLE ... FOREIGN KEY statement; in a dump of the
    whole database, whose schemas are distinct, this holds for the
    statements of each schema: the foreign keys of a schema come after all
    the tables of that schema.  (Before means at a smaller index of the list of
    elements and at a smaller offset of the text, where [render_locates]
    finds the element.) *)
Theorem tables_precede_foreign_keys_within_a_schema
  (now : str) (include_data : bool) :
  (forall tables schema skip_header skip_extensions,
     dump_text now tables include_data schema skip_header skip_extensions
     = render (lines_of now tables include_data schema
                        skip_header skip_extensions)
     /\ all_before is_create_table is_foreign_key
          (lines_of now tables include_data schema
                    skip_header skip_extensions))
  /\ database_text now include_data = render (database_lines now include_data)
  /\ (List.NoDup (user_schemas cat) ->
      forall schema,
        all_before (creates_table_in schema) (adds_foreign_key_in schema)
                   (database_lines now include_data)).
Proof using Type.
  split; [|split].
  - intros tables schema skip_header skip_extensions.
    split; [reflexivity|].
    apply cut_between_all_before, dump_lines_cut.
  - apply dump_database_render.
  - intros Hnd schema. apply cut_between_all_before.
    now apply database_lines_cut.
Qed.
End DumpOrderTheorem.

(** C3, at the failing input: a database with the schemas [public] and
    [sales] whose tables [public.a] and [sales.b] reference each other.
    The dump of the database adds the foreign key of [public.a], which
    references [sales.b], ten elements before it creates [sales.b]: not
    every CREATE TABLE statement precedes every FOREIGN KEY statement, and
    the dump cannot be replayed in its order. *)
Lemma C3_foreign_key_precedes_table_of_later_schema :
  mutual_dump !! 17
  = Some (Line (ForeignKey (lit "public") (lit "a") (lit "a_b_fk"))
               (lit "ALTER TABLE " ++ quoted (lit "public") ++ lit "."
                ++ quoted (lit "a") ++ lit " ADD CONSTRAINT "
                ++ quoted (lit "a_b_fk")
                ++ lit " FOREIGN KEY (other_id) REFERENCES sales.b(id);"))
  /\ mutual_dump !! 27
     = Some (Line (CreateTable (lit "sales") (lit "b"))
                  (lit "CREATE TABLE IF NOT EXISTS " ++ quoted (lit "sales")
                   ++ lit "." ++ quoted (lit "b") ++ lit " ("))
  /\ offset mutual_dump 17 < offset mutual_dump 27
  /\ ~ all_before is_create_table is_foreign_key mutual_dump.
Proof.
  assert (H17 : mutual_dump !! 17
                = Some (Line (ForeignKey (lit "public") (lit "a") (lit "a_b_fk"))
                             (lit "ALTER TABLE " ++ quoted (lit "public")
                              ++ lit "." ++ quoted (lit "a")
                              ++ lit " ADD CONSTRAINT "
                              ++ quoted (lit "a_b_fk")
                              ++ lit " FOREIGN KEY (other_id) REFERENCES sales.b(id);")))
    by (vm_compute; reflexivity).
  assert (H27 : mutual_dump !! 27
                = Some (Line (CreateTable (lit "sales") (lit "b"))
                             (lit "CREATE TABLE IF NOT EXISTS "
                              ++ quoted (lit "sales") ++ lit "."
                              ++ quoted (lit "b") ++ lit " (")))
    by (vm_compute; reflexivity).
  split; [exact H17|]. split; [exact H27|]. split.
  - apply offset_increasing; [lia|]. vm_compute. lia.
  - intros Hall.
    destruct (Hall 27 17 _ _ H27 H17 eq_refl eq_refl) as [Hlt _]. lia.
Qed.

(** The dump of [mutual_catalog]: the schemas are distinct, and within
    [sales] the table is created before its foreign key is added. *)
Lemma tables_precede_foreign_keys_within_a_schema_witness :
  List.NoDup (user_schemas mutual_catalog)
  /\ all_before (creates_table_in (lit "sales"))
                (adds_foreign_key_in (lit "sales")) mutual_dump.
Proof.
  assert (Hnd : List.NoDup (user_schemas mutual_catalog)).
  { repeat constructor; simpl; intros H;
      repeat (destruct H as [H|H]; [discriminate H|]); exact H. }
  split; [exact Hnd|].
  exact (proj2 (proj2 (tables_precede_foreign_keys_within_a_schema
                         unit (fun _ => []) unit (fun _ => []) no_upper
                         mutual_catalog (lit "2026-01-01 00:00:00") false))
               Hnd (lit "sales")).
Defined.

(** Two tables of one schema that reference each other are both created
    before either foreign key is added. *)
Example cyclic_tables_first :
  List.map is_create_table
    (dump_lines unit (fun _ => []) unit (fun _ => []) no_upper cyclic_catalog
                (lit "2026-01-01 00:00:00") None false (lit "public") true true)
  = [false; true; true; true; false;
     false; true; true; true; false;
     false; false; false; false; false; false; false]
  /\ List.map is_foreign_key
       (dump_lines unit (fun _ => []) unit (fun _ => []) no_upper cyclic_catalog
                   (lit "2026-01-01 00:00:00") None false (lit "public") true true)
     = [false; false; false; false; false;
        false; false; false; false; false;
        false; false; false; false; true; true; false].
Proof. split; vm_compute; reflexivity. Qed.

(** ** The index section *)

Lemma mem_In x l : mem x l = true <-> In x l.
Proof.
  unfold mem. rewrite existsb_exists. split.
  - intros (y & Hin & Heq). unfold str_eqb in Heq.
    apply bool_decide_eq_true in Heq. now subst.
  - intros Hin. exists x. split; [assumption|].
    unfold str_eqb. now apply bool_decide_eq_true.
Qed.

Lemma filter_filter {A} (f g : A -> bool) l :
  List.filter f (List.filter g l) = List.filter (fun x => g x && f x) l.
Proof.
  induction l as [|x l IH]; [reflexivity|].
  simpl. destruct (g x); simpl; [|exact IH].
  destruct (f x); now rewrite IH.
Qed.

Section IndexSection.
Variable float : Type.
Variable str_of_float : float -> str.
Variable object : Type.
Variable str_of_object : object -> str.
Variable unicode_upper : N -> str.
Variable cat : catalog (value float object).

Local Abbreviation emitted := (index_rows float object unicode_upper cat).
Local Abbreviation belongs := (_index_belongs_to unicode_upper).
Local Abbreviation lines_of :=
  (dump_lines float str_of_float object str_of_object unicode_upper cat).
Local Abbreviation index_statement :=
  (fun r => Line (CreateIndex (indexname r)) (indexdef r ++ lit ";")).

Lemma filter_none {A} (p : A -> bool) l :
  Forall (fun x => p x = false) l -> List.filter p l = [].
Proof using Type.
  induction 1 as [|x l Hx _ IH]; [reflexivity|].
  simpl. now rewrite Hx.
Qed.

Lemma unmarked_no_index l :
  Forall unmarked l -> List.filter is_index_line l = [].
Proof using Type.
  intros H. apply filter_none. eapply Forall_impl; [exact H|].
  intros x Hx. unfold is_index_line. now rewrite Hx.
Qed.

Lemma index_lines_of_section schema tables :
  List.filter is_index_line
    (_dump_indexes float object unicode_upper cat schema tables)
  = List.map index_statement (emitted schema tables).
Proof using Type.
  assert (Hall : forall l : list index_row,
            List.filter is_index_line (List.map index_statement l)
            = List.map index_statement l).
  { intros l. induction l as [|y l IH]; [reflexivity|].
    change (List.filter is_index_line (List.map index_statement (y :: l)))
      with (index_statement y
            :: List.filter is_index_line (List.map index_statement l)).
    now rewrite IH. }
  unfold _dump_indexes.
  destruct (emitted schema tables) as [|x rows]; [reflexivity|].
  rewrite !List.filter_app, Hall.
  change (List.filter is_index_line (banner "-- INDEXES")) with (@nil line).
  change (List.filter is_index_line [plain []]) with (@nil line).
  now rewrite app_nil_r.
Qed.

(** The index statements of a dump are those of its index section. *)
Lemma index_lines_of_dump now tables include_data schema skip_header
  skip_extensions :
  List.filter is_index_line
    (lines_of now tables include_data schema skip_header skip_extensions)
  = List.map index_statement
      (emitted schema match tables with
                      | Some ts => ts
                      | None => all_tables cat schema
                      end).
Proof using Type.
  unfold dump_lines.
  set (target := match tables with Some ts => ts | None => _ end).
  rewrite !List.filter_app.
  rewrite index_lines_of_section.
  rewrite (unmarked_no_index (if skip_header then [] else _))
    by (destruct skip_header; repeat constructor).
  rewrite (unmarked_no_index (if skip_extensions then [] else _))
    by (destruct skip_extensions; [constructor|apply unmarked_extensions]).
  rewrite (unmarked_no_index _ (unmarked_enums _ _ cat schema)).
  rewrite (unmarked_no_index _ (unmarked_sequences _ _ cat schema target)).
  rewrite (unmarked_no_index _ (unmarked_views _ _ cat schema)).
  rewrite (filter_none is_index_line (flat_map _ target)).
  2:{ apply Forall_flat_map. apply List.Forall_forall. intros t _.
      apply Forall_app. split; [|repeat constructor].
      eapply Forall_impl; [apply marks_of_table|].
      intros l [H|H]; unfold is_index_line; now rewrite H. }
  rewrite (filter_none is_index_line (_dump_foreign_keys _ _ _ _ _)).
  2:{ eapply Forall_impl; [apply marks_of_foreign_keys|].
      intros l [H|(t & c & H)]; unfold is_index_line; now rewrite H. }
  rewrite (unmarked_no_index (if include_data then _ else [])).
  2:{ destruct include_data; [|constructor].
      apply Forall_app. split; [repeat constructor|].
      apply Forall_flat_map. apply List.Forall_forall. intros t _.
      apply unmarked_data. }
  now rewrite app_nil_r.
Qed.

End IndexSection.

(** C5, at failing inputs.  The schema [public] has the tables [users]
    and [orders] and one index, which backs no constraint.

    A plain index of [users] whose definition names the table as
    [public.users], the form in which the catalog prints it, is attributed
    to no table: the index section of a dump of [users], and that of a
    dump of the whole schema, is empty.  So is it when the definition
    names the table as [users]: the unquoted token is looked for in the
    definition put in upper case, where a name with a lower-case letter
    does not occur.  A unique index of [users] that backs no constraint is
    left out whatever its definition, by the test for [UNIQUE] in the
    query. *)
Lemma C5_index_of_listed_table_left_out :
  tablename users_name_idx = lit "users"
  /\ contains (lit "UNIQUE") (indexdef users_name_idx) = false
  /\ pk_unique_names (index_catalog [users_name_idx]) (lit "public")
     = [lit "users_pkey"]
  /\ _index_belongs_to no_upper (indexdef users_name_idx) [lit "users"]
     = false
  /\ _dump_indexes unit unit no_upper (index_catalog [users_name_idx])
                   (lit "public") [lit "users"] = []
  /\ List.filter is_index_line
       (dump_lines unit (fun _ => []) unit (fun _ => []) no_upper
                   (index_catalog [users_name_idx])
                   (lit "2026-01-01 00:00:00") None false (lit "public")
                   false false) = []
  /\ _index_belongs_to no_upper (indexdef users_name_idx_bare) [lit "users"]
     = false
  /\ _dump_indexes unit unit no_upper (index_catalog [users_name_idx_bare])
                   (lit "public") [lit "users"] = []
  /\ tablename users_email_idx = lit "users"
  /\ contains (lit " ON " ++ quoted (lit "users")) (indexdef users_email_idx)
     = true
  /\ _dump_indexes unit unit no_upper (index_catalog [users_email_idx])
                   (lit "public") [lit "users"] = [].
Proof. repeat split; vm_compute; reflexivity. Qed.

(** The same index is emitted when its definition names the table in
    double quotes, or when the name of the table is in upper case. *)
Example index_of_listed_table_emitted :
  index_rows unit unit no_upper (index_catalog [orders_day_idx])
             (lit "public") [lit "orders"] = [orders_day_idx]
  /\ _index_belongs_to no_upper (indexdef users_name_idx_bare) [lit "USERS"]
     = true.
Proof. split; vm_compute; reflexivity. Qed.

(** * Further properties *)

(** ** Trimming *)

Lemma lstrip_by_app_single p l c :
  lstrip_by p (l ++ [c])
  = match lstrip_by p l with
    | [] => if p c then [] else [c]
    | r => r ++ [c]
    end.
Proof.
  induction l as [|x l IH]; simpl; [reflexivity|].
  destruct (p x); [exact IH|reflexivity].
Qed.

(** [rstrip_by] read from the left. *)
Lemma rstrip_by_cons p c s :
  rstrip_by p (c :: s)
  = match rstrip_by p s with
    | [] => if p c then [] else [c]
    | r => c :: r
    end.
Proof.
  unfold rstrip_by. simpl rev. rewrite lstrip_by_app_single.
  destruct (lstrip_by p (rev s)) as [|y r] eqn:E.
  - simpl. now destruct (p c).
  - rewrite rev_app_distr. simpl.
    destruct (rev r ++ [y]) eqn:E2; [|reflexivity].
    now destruct (rev r).
Qed.

Lemma lstrip_by_idem p s : lstrip_by p (lstrip_by p s) = lstrip_by p s.
Proof.
  induction s as [|c s IH]; simpl; [reflexivity|].
  destruct (p c) eqn:E; [exact IH|]. simpl. now rewrite E.
Qed.

Lemma rstrip_by_idem p s : rstrip_by p (rstrip_by p s) = rstrip_by p s.
Proof.
  unfold rstrip_by. now rewrite rev_involutive, lstrip_by_idem.
Qed.

(** What [lstrip_by] leaves does not start with a character it removes. *)
Lemma lstrip_by_head p s :
  match lstrip_by p s with
  | c :: _ => p c = false
  | [] => True
  end.
Proof.
  induction s as [|c s IH]; simpl; [exact I|].
  destruct (p c) eqn:E; [exact IH|exact E].
Qed.

Lemma lstrip_by_fixed p c s : p c = false -> lstrip_by p (c :: s) = c :: s.
Proof. simpl. now intros ->. Qed.

(** Trimming the right end does not uncover the left end. *)
Lemma lstrip_rstrip_fixed p s :
  lstrip_by p s = s -> lstrip_by p (rstrip_by p s) = rstrip_by p s.
Proof.
  destruct s as [|c s]; [reflexivity|].
  intros Hfix.
  assert (Hc : p c = false).
  { pose proof (lstrip_by_head p (c :: s)) as H. now rewrite Hfix in H. }
  rewrite rstrip_by_cons.
  destruct (rstrip_by p s); [rewrite Hc|]; now apply lstrip_by_fixed.
Qed.

(** [strip] is idempotent: a trimmed text has nothing left to trim. *)
Lemma strip_idem s : strip (strip s) = strip s.
Proof.
  unfold strip, lstrip, rstrip.
  rewrite (lstrip_rstrip_fixed is_space (lstrip_by is_space s))
    by apply lstrip_by_idem.
  apply rstrip_by_idem.
Qed.

Lemma strip_cons_space c s : is_space c = true -> strip (c :: s) = strip s.
Proof. intros H. unfold strip, lstrip. simpl. now rewrite H. Qed.

Lemma rstrip_by_app_single p s c :
  p c = true -> rstrip_by p (s ++ [c]) = rstrip_by p s.
Proof.
  intros H. unfold rstrip_by. rewrite rev_app_distr. simpl. now rewrite H.
Qed.

Lemma strip_app_space s c : is_space c = true -> strip (s ++ [c]) = strip s.
Proof.
  intros H. unfold strip, lstrip, rstrip. rewrite lstrip_by_app_single.
  destruct (lstrip_by is_space s) as [|y r].
  - now rewrite H.
  - now apply rstrip_by_app_single.
Qed.

(** ** StatementSplitter: what the returned statements are *)

Lemma close_buffer_app qs buffer :
  close_buffer qs buffer = qs ++ close_buffer [] buffer.
Proof.
  unfold close_buffer. cbv zeta.
  destruct (negb (is_empty (strip (join [nl] buffer)))
            && negb (forallb comment_or_blank
                       (split nl (strip (join [nl] buffer)))));
    [reflexivity|now rewrite app_nil_r].
Qed.

Lemma close_buffer_kept buffer :
  List.Forall kept_statement (close_buffer [] buffer).
Proof.
  unfold close_buffer. cbv zeta.
  destruct (negb (is_empty (strip (join [nl] buffer)))
            && negb (forallb comment_or_blank
                       (split nl (strip (join [nl] buffer))))) eqn:E;
    [|constructor].
  apply andb_prop in E. destruct E as [E1 E2].
  apply negb_true_iff in E1, E2.
  constructor; [|constructor].
  repeat split.
  - intros H. now rewrite H in E1.
  - apply strip_idem.
  - exact E2.
Qed.

(** The loop cuts the lines it reads into consecutive buffers: every line
    goes, in order, into exactly one of them, and the statements added are
    what [close_buffer] keeps of each. *)
Lemma split_loop_buffers lines : forall st,
  exists buffers,
    queries (split_loop lines st)
    = queries st ++ flat_map (close_buffer []) buffers
    /\ concat buffers ++ current (split_loop lines st) = current st ++ lines
    /\ List.Forall (fun b => b <> []) buffers.
Proof.
  induction lines as [|l lines IH]; intros st.
  - exists []. simpl. now rewrite !app_nil_r.
  - unfold split_loop in *. simpl fold_left.
    destruct (IH (split_line st l)) as (bufs & Hq & Hc & Hne).
    assert (Hstep :
      (queries (split_line st l) = queries st
       /\ current (split_line st l) = current st ++ [l])
      \/ (queries (split_line st l)
          = close_buffer (queries st) (current st ++ [l])
          /\ current (split_line st l) = [])).
    { unfold split_line.
      destruct (startswith (lit "--") (strip l) || is_empty (strip l));
        simpl; [now left|].
      destruct (toggle (in_dollar st) l); simpl; [now left|].
      destruct (endswith (lit ";") (strip l)); simpl; [now right|now left]. }
    destruct Hstep as [[Hq1 Hc1]|[Hq1 Hc1]].
    + exists bufs. rewrite Hq, Hq1, Hc, Hc1.
      repeat split; auto. now rewrite <- app_assoc.
    + exists ((current st ++ [l]) :: bufs). rewrite Hq, Hq1.
      repeat split.
      * rewrite close_buffer_app. simpl flat_map. now rewrite <- app_assoc.
      * simpl concat. rewrite <- app_assoc, Hc, Hc1. simpl.
        now rewrite <- app_assoc.
      * constructor; [|assumption]. now destruct (current st).
Qed.

(** X3. Every statement [_split_queries] returns is non-empty, carries no
    white space at either end, and has at least one line that is neither
    blank nor a comment. *)
Theorem split_queries_statements_kept sql :
  List.Forall kept_statement (_split_queries sql).
Proof.
  unfold _split_queries. cbv zeta.
  destruct (split_loop_buffers (split nl sql) (SplitState [] [] false))
    as (bufs & Hq & _ & _).
  simpl in Hq.
  assert (Hall : List.Forall kept_statement
                   (queries (split_loop (split nl sql)
                               (SplitState [] [] false)))).
  { rewrite Hq. clear Hq. induction bufs as [|b bufs IH]; [constructor|].
    simpl. apply List.Forall_app. split; [apply close_buffer_kept|exact IH]. }
  destruct (current (split_loop (split nl sql) (SplitState [] [] false)));
    [exact Hall|].
  rewrite close_buffer_app. apply List.Forall_app.
  split; [exact Hall|apply close_buffer_kept].
Qed.

(** X4. No line of the script is lost, repeated or moved: the lines of the
    text fall, in order, into consecutive non-empty groups, and the
    statements returned are, in the same order, the trimmed texts of the
    groups, those that are empty or hold comments only left out. *)
Theorem split_queries_partitions_the_lines sql :
  exists buffers,
    concat buffers = split nl sql
    /\ join [nl] (concat buffers) = sql
    /\ List.Forall (fun b => b <> []) buffers
    /\ _split_queries sql = flat_map (close_buffer []) buffers.
Proof.
  unfold _split_queries. cbv zeta.
  destruct (split_loop_buffers (split nl sql) (SplitState [] [] false))
    as (bufs & Hq & Hc & Hne).
  simpl in Hq, Hc.
  destruct (current (split_loop (split nl sql) (SplitState [] [] false)))
    as [|l rest] eqn:Hcur.
  - exists bufs. rewrite app_nil_r in Hc.
    repeat split; auto. now rewrite Hc, join_split.
  - exists (bufs ++ [l :: rest]).
    assert (Hcat : concat (bufs ++ [l :: rest]) = split nl sql).
    { rewrite concat_app. simpl. now rewrite app_nil_r. }
    repeat split.
    + exact Hcat.
    + now rewrite Hcat, join_split.
    + apply List.Forall_app. split; [assumption|].
      constructor; [discriminate|constructor].
    + rewrite close_buffer_app, Hq, flat_map_app. simpl.
      now rewrite app_nil_r.
Qed.

(** ** Lines of a text *)

Lemma split_no_sep sep s :
  List.Forall (fun l => ~ In sep l) (split sep s).
Proof.
  induction s as [|c s IH]; simpl.
  - constructor; [intros []|constructor].
  - destruct (N.eqb_spec c sep) as [->|Hne].
    + constructor; [intros []|exact IH].
    + destruct (split sep s) as [|l ls]; [repeat constructor; simpl; tauto|].
      inversion IH; subst. constructor; [|assumption].
      simpl. intros [H|H]; [now apply Hne|contradiction].
Qed.

Lemma split_single sep a : ~ In sep a -> split sep a = [a].
Proof.
  induction a as [|c a IH]; simpl; [reflexivity|].
  intros H. destruct (N.eqb_spec c sep) as [->|Hne]; [tauto|].
  rewrite IH; tauto.
Qed.

Lemma split_app_sep sep a b :
  split sep (a ++ sep :: b) = split sep a ++ split sep b.
Proof.
  induction a as [|c a IH]; simpl.
  - now rewrite N.eqb_refl.
  - destruct (c =? sep)%N; [now rewrite IH|].
    rewrite IH. pose proof (split_nonempty sep a) as Hne.
    now destruct (split sep a).
Qed.

(** Joining lines and splitting again gives the lines back. *)
Lemma split_join sep ls :
  ls <> [] -> List.Forall (fun l => ~ In sep l) ls ->
  split sep (join [sep] ls) = ls.
Proof.
  induction ls as [|p ls IH]; [contradiction|].
  intros _ Hall. inversion Hall as [|? ? Hp Hls]; subst.
  destruct ls as [|q r]; [now apply split_single|].
  change (join [sep] (p :: q :: r)) with (p ++ sep :: join [sep] (q :: r)).
  rewrite split_app_sep, split_single by assumption.
  now rewrite IH.
Qed.

Lemma split_snoc sep c t : forall init lst,
  c <> sep -> split sep t = init ++ [lst] ->
  split sep (t ++ [c]) = init ++ [lst ++ [c]].
Proof.
  induction t as [|x t IH]; intros init lst Hc Hs; simpl in *.
  - destruct init as [|i init]; [|now destruct init].
    injection Hs as <-. destruct (N.eqb_spec c sep); [contradiction|reflexivity].
  - destruct (x =? sep)%N.
    + destruct init as [|i init].
      * injection Hs as _ Hs. now apply split_nonempty in Hs.
      * injection Hs as <- Hs. now rewrite (IH init lst).
    + pose proof (split_nonempty sep t) as Hne.
      destruct (split sep t) as [|l ls]; [contradiction|].
      destruct init as [|i init].
      * injection Hs as <- ->. now rewrite (IH [] l).
      * injection Hs as <- ->. now rewrite (IH (l :: init) lst).
Qed.

(** The lines of the reversed text are the reversed lines, last first. *)
Lemma split_rev sep s :
  split sep (rev s) = rev (List.map (@rev N) (split sep s)).
Proof.
  induction s as [|c s IH]; [reflexivity|].
  simpl rev at 1. simpl split.
  destruct (N.eqb_spec c sep) as [->|Hne].
  - rewrite split_app_sep, IH. reflexivity.
  - pose proof (split_nonempty sep s) as Hs.
    destruct (split sep s) as [|l ls]; [contradiction|].
    simpl in *. now apply split_snoc.
Qed.

(** Trimming the left end keeps a property of all lines that does not
    depend on leading white space. *)
Lemma lstrip_lines (Q : str -> Prop) s :
  (forall c l, is_space c = true -> Q (c :: l) -> Q l) ->
  List.Forall Q (split nl s) -> List.Forall Q (split nl (lstrip s)).
Proof.
  intros HQ. unfold lstrip.
  induction s as [|c s IH]; [auto|].
  intros Hall. simpl lstrip_by.
  destruct (is_space c) eqn:Hsp; [|exact Hall].
  apply IH. simpl in Hall.
  destruct (c =? nl)%N; [now inversion Hall|].
  pose proof (split_nonempty nl s) as Hs.
  destruct (split nl s) as [|l ls]; [contradiction|].
  inversion Hall; subst. constructor; eauto.
Qed.

Lemma comment_or_blank_cons c l :
  is_space c = true -> comment_or_blank (c :: l) = comment_or_blank l.
Proof. intros H. unfold comment_or_blank. now rewrite strip_cons_space. Qed.

Lemma comment_or_blank_snoc c l :
  is_space c = true -> comment_or_blank (l ++ [c]) = comment_or_blank l.
Proof. intros H. unfold comment_or_blank. now rewrite strip_app_space. Qed.

(** Trimming a text keeps all its lines comments or blank, when they
    were. *)
Lemma strip_comment_lines s :
  List.Forall (fun l => comment_or_blank l = true) (split nl s) ->
  List.Forall (fun l => comment_or_blank l = true) (split nl (strip s)).
Proof.
  intros Hall. unfold strip, rstrip, rstrip_by.
  rewrite split_rev. apply List.Forall_rev. rewrite List.Forall_map.
  apply (lstrip_lines (fun l => comment_or_blank (rev l) = true)).
  { intros c l Hsp. simpl. now rewrite comment_or_blank_snoc. }
  rewrite split_rev. apply List.Forall_rev. rewrite List.Forall_map.
  apply List.Forall_impl with (P := fun l => comment_or_blank l = true).
  { intros l. now rewrite rev_involutive. }
  apply lstrip_lines; [|exact Hall].
  intros c l Hsp. now rewrite comment_or_blank_cons.
Qed.

(** A buffer of comment and blank lines adds no statement. *)
Lemma close_buffer_comments buffer :
  List.Forall (fun l => ~ In nl l) buffer ->
  List.Forall (fun l => comment_or_blank l = true) buffer ->
  close_buffer [] buffer = [].
Proof.
  intros Hnl Hcb. unfold close_buffer. cbv zeta.
  assert (H : forallb comment_or_blank
                (split nl (strip (join [nl] buffer))) = true).
  { apply forallb_forall. apply List.Forall_forall.
    apply strip_comment_lines.
    destruct buffer as [|b buffer]; [repeat constructor|].
    now rewrite split_join. }
  rewrite H. now rewrite andb_false_r.
Qed.

(** X5. A script made of comment lines and blank lines only, the empty
    script included, has no statement. *)
Theorem split_queries_comments_only sql :
  forallb comment_or_blank (split nl sql) = true ->
  _split_queries sql = [].
Proof.
  intros Hall.
  assert (Hlines : List.Forall (fun l => ~ In nl l /\ comment_or_blank l = true)
                     (split nl sql)).
  { apply List.Forall_forall. intros l Hl. split.
    - pose proof (split_no_sep nl sql) as H.
      rewrite List.Forall_forall in H. now apply H.
    - rewrite forallb_forall in Hall. now apply Hall. }
  unfold _split_queries. cbv zeta.
  destruct (split_loop_buffers (split nl sql) (SplitState [] [] false))
    as (bufs & Hq & Hc & _).
  simpl in Hq, Hc. rewrite <- Hc in Hlines.
  apply List.Forall_app in Hlines. destruct Hlines as [Hbufs Hcur].
  assert (Hclosed : forall b,
            List.Forall (fun l => ~ In nl l /\ comment_or_blank l = true) b ->
            close_buffer [] b = []).
  { intros b Hb. apply close_buffer_comments;
      eapply List.Forall_impl; try exact Hb; simpl; tauto. }
  assert (Hnone : queries (split_loop (split nl sql) (SplitState [] [] false))
                  = []).
  { rewrite Hq. clear Hq Hc. induction bufs as [|b bufs IH]; [reflexivity|].
    simpl in *. apply List.Forall_app in Hbufs. destruct Hbufs as [Hb Hrest].
    now rewrite Hclosed, IH. }
  destruct (current (split_loop (split nl sql) (SplitState [] [] false)));
    [exact Hnone|].
  rewrite close_buffer_app, Hnone. now apply Hclosed.
Qed.

Lemma split_queries_comments_only_witness :
  _split_queries (lit "-- drop everything;" ++ [nl; nl; 32; 9]%N
                  ++ lit "-- nothing to run") = [].
Proof.
  apply split_queries_comments_only. vm_compute. reflexivity.
Defined.

(** ** ValueFormatter: literals read back *)

Lemma replace_cons old new c s :
  replace old new (c :: s)
  = (if (c =? old)%N then new else [c]) ++ replace old new s.
Proof. reflexivity. Qed.

Lemma read_quoted_escaped s rest :
  startswith [quote] rest = false ->
  read_quoted (replace quote (lit "''") s ++ [quote] ++ rest) = Some (s, rest).
Proof.
  intros Hrest.
  induction s as [|c s IH].
  - change (replace quote (lit "''") []) with (@nil N).
    cbn [app read_quoted]. rewrite N.eqb_refl.
    destruct rest as [|c' rest]; [reflexivity|].
    cbn [startswith] in Hrest. rewrite andb_true_r in Hrest.
    rewrite N.eqb_sym, Hrest. reflexivity.
  - rewrite replace_cons.
    destruct (N.eqb_spec c quote) as [->|Hne].
    + change (lit "''") with [quote; quote] at 1.
      change (([quote; quote] ++ replace quote (lit "''") s) ++ [quote] ++ rest)
        with (quote :: quote
              :: (replace quote (lit "''") s ++ [quote] ++ rest)).
      cbn [read_quoted]. rewrite !N.eqb_refl, IH. reflexivity.
    + change (([c] ++ replace quote (lit "''") s) ++ [quote] ++ rest)
        with (c :: (replace quote (lit "''") s ++ [quote] ++ rest)).
      cbn [read_quoted]. destruct (N.eqb_spec c quote); [contradiction|].
      rewrite IH. reflexivity.
Qed.

Lemma hex_digit_inj a b :
  (a < 16)%N -> (b < 16)%N -> hex_digit a = hex_digit b -> a = b.
Proof.
  unfold hex_digit. intros Ha Hb.
  destruct (N.ltb_spec a 10), (N.ltb_spec b 10); lia.
Qed.

Lemma byte_to_N_inj a b : Byte.to_N a = Byte.to_N b -> a = b.
Proof.
  intros H. assert (Hs : Some a = Some b).
  { rewrite <- !Byte.of_to_N. now rewrite H. }
  now injection Hs.
Qed.

(** The hexadecimal text determines the bytes. *)
Lemma hex_inj a : forall b, hex a = hex b -> a = b.
Proof.
  induction a as [|x a IH]; intros [|y b] H; try discriminate; [reflexivity|].
  unfold hex in *. simpl in H. injection H as Hhi Hlo Hrest.
  pose proof (byte_to_N_bound x) as Hx. pose proof (byte_to_N_bound y) as Hy.
  apply hex_digit_inj in Hhi;
    [|apply N.Div0.div_lt_upper_bound; lia..].
  apply hex_digit_inj in Hlo; [|apply N.mod_upper_bound; lia..].
  f_equal; [|now apply IH].
  apply byte_to_N_inj.
  rewrite (N.div_mod (Byte.to_N x) 16), (N.div_mod (Byte.to_N y) 16) by lia.
  now rewrite Hhi, Hlo.
Qed.

Section FormatterRoundTrip.
Variable float : Type.
Variable str_of_float : float -> str.
Variable object : Type.
Variable str_of_object : object -> str.

Local Abbreviation fmt :=
  (_format_value float str_of_float object str_of_object).

(** X6. The literal of a string is closed by its last character and by no
    quote of the string: read back as SQL reads a quoted literal, in front
    of any text that does not start with a quote, it gives the string
    itself and leaves that text.  The same holds for a value of another
    type and its [str()] text. *)
Theorem format_value_string_reads_back s o rest :
  startswith [quote] rest = false ->
  read_literal (fmt (VStr s) ++ rest) = Some (s, rest)
  /\ read_literal (fmt (VOther o) ++ rest) = Some (str_of_object o, rest).
Proof using Type.
  intros Hrest. split.
  - change (fmt (VStr s)) with ([quote] ++ replace quote (lit "''") s ++ [quote]).
    rewrite <- !app_assoc. simpl app at 1. unfold read_literal.
    rewrite N.eqb_refl. now apply read_quoted_escaped.
  - change (fmt (VOther o))
      with ([quote] ++ replace quote (lit "''") (str_of_object o) ++ [quote]).
    rewrite <- !app_assoc. simpl app at 1. unfold read_literal.
    rewrite N.eqb_refl. now apply read_quoted_escaped.
Qed.

(** X7. Two integers, two strings or two byte strings with the same literal
    are equal: formatting loses nothing of such a value. *)
Theorem format_value_injective :
  (forall n m,
     _format_value float str_of_float object str_of_object (VInt n)
     = _format_value float str_of_float object str_of_object (VInt m) ->
     n = m)
  /\ (forall s t,
        _format_value float str_of_float object str_of_object (VStr s)
        = _format_value float str_of_float object str_of_object (VStr t) ->
        s = t)
  /\ (forall a b,
        _format_value float str_of_float object str_of_object (VBytes a)
        = _format_value float str_of_float object str_of_object (VBytes b) ->
        a = b).
Proof using Type.
  split; [|split].
  - intros n m. apply str_of_Z_inj.
  - intros s t H.
    assert (Hs : read_literal (fmt (VStr s) ++ []) = Some (s, []))
      by (change (fmt (VStr s))
            with ([quote] ++ replace quote (lit "''") s ++ [quote]);
          rewrite <- !app_assoc; simpl app at 1; unfold read_literal;
          rewrite N.eqb_refl; now apply read_quoted_escaped).
    assert (Ht : read_literal (fmt (VStr t) ++ []) = Some (t, []))
      by (change (fmt (VStr t))
            with ([quote] ++ replace quote (lit "''") t ++ [quote]);
          rewrite <- !app_assoc; simpl app at 1; unfold read_literal;
          rewrite N.eqb_refl; now apply read_quoted_escaped).
    rewrite H in Hs. rewrite Hs in Ht. now injection Ht.
  - intros a b H.
    change (fmt (VBytes a)) with (lit "E'\\x" ++ hex a ++ lit "'") in H.
    change (fmt (VBytes b)) with (lit "E'\\x" ++ hex b ++ lit "'") in H.
    apply app_inv_head in H. apply app_inv_tail in H. now apply hex_inj.
Qed.
End FormatterRoundTrip.

Lemma format_value_string_reads_back_witness :
  read_literal (_format_value unit (fun _ => []) unit (fun _ => [])
                  (VStr (lit "O'Brien''s")) ++ lit ", 1);")
  = Some (lit "O'Brien''s", lit ", 1);")
  /\ read_literal (_format_value unit (fun _ => []) unit (fun _ => [])
                     (VOther tt) ++ lit ", 1);")
     = Some ([], lit ", 1);").
Proof.
  apply (format_value_string_reads_back unit (fun _ => []) unit (fun _ => [])).
  vm_compute. reflexivity.
Defined.

(** ** The dump: data, CHECK constraints, sections *)

(** Reading a cursor batch by batch until an empty batch comes delivers
    every row once, in order, whatever the positive batch size. *)
Lemma fetch_batches_all {A} size fuel : forall cursor : list A,
  0 < size -> length cursor < fuel ->
  fetch_batches fuel size cursor = cursor.
Proof.
  induction fuel as [|fuel IH]; intros cursor Hsize Hfuel; [lia|].
  simpl. destruct (take size cursor) as [|r rows] eqn:Htake.
  - destruct cursor as [|x cursor]; [reflexivity|].
    destruct size; [lia|discriminate].
  - rewrite IH; [|assumption|].
    + change ((r :: rows) ++ drop size cursor = cursor).
      rewrite <- Htake. apply take_drop.
    + rewrite length_drop.
      destruct cursor; [now rewrite take_nil in Htake|]. simpl in *. lia.
Qed.

Lemma fetch_rows_all {A} (cursor : list A) : fetch_rows cursor = cursor.
Proof.
  unfold fetch_rows. apply fetch_batches_all; [|lia].
  unfold SCHEMA_DUMP_BATCH_SIZE. lia.
Qed.

Lemma upper_app unicode_upper a b :
  upper unicode_upper (a ++ b)
  = upper unicode_upper a ++ upper unicode_upper b.
Proof. unfold upper. apply flat_map_app. Qed.

Lemma rstrip_by_snoc_fixed p s c :
  p c = false -> rstrip_by p (s ++ [c]) = s ++ [c].
Proof.
  intros H. unfold rstrip_by. rewrite rev_app_distr. simpl. rewrite H.
  simpl. now rewrite rev_involutive.
Qed.

Lemma strip_between open close body :
  is_space open = false -> is_space close = false ->
  strip (open :: body ++ [close]) = open :: body ++ [close].
Proof.
  intros Ho Hc. unfold strip, lstrip, rstrip. simpl lstrip_by. rewrite Ho.
  now apply (rstrip_by_snoc_fixed is_space (open :: body) close).
Qed.

Section DumpFacts.
Variable float : Type.
Variable str_of_float : float -> str.
Variable object : Type.
Variable str_of_object : object -> str.
Variable unicode_upper : N -> str.
Variable cat : catalog (value float object).

(** X8. [_dump_data] writes one INSERT statement for every row of the
    table, in the order of the rows, however the rows fall into batches;
    a table without columns gets none. *)
Theorem dump_data_one_insert_per_row schema table_name :
  List.map text
    (_dump_data float str_of_float object str_of_object cat schema table_name)
  = match column_names cat schema table_name with
    | [] => []
    | col_names =>
        List.map (fun row =>
          lit "INSERT INTO " ++ quoted schema ++ lit "." ++ quoted table_name
          ++ lit " (" ++ column_list col_names ++ lit ") VALUES ("
          ++ join (lit ", ")
               (List.map (_format_value float str_of_float object str_of_object)
                         row)
          ++ lit ");")
          (table_data cat schema table_name)
    end.
Proof using Type.
  unfold _dump_data. rewrite fetch_rows_all.
  destruct (column_names cat schema table_name) as [|c cols]; [reflexivity|].
  cbv zeta. rewrite List.map_map. apply List.map_ext. intros row.
  reflexivity.
Qed.

(** X9. A CHECK definition as the catalog gives it, [CHECK (body)] in
    either letter case, is reduced to its body, so that the constraint is
    written back with the one pair of parentheses [_dump_table] adds.  A
    definition with text after the closing parenthesis keeps its
    parentheses and that text. *)
Theorem check_definition_unwraps body :
  check_definition unicode_upper (lit "CHECK (" ++ body ++ lit ")") = body
  /\ check_definition unicode_upper (lit "check (" ++ body ++ lit ")") = body
  /\ check_definition unicode_upper
       (lit "CHECK (" ++ body ++ lit ") NOT VALID")
     = lit "(" ++ body ++ lit ") NOT VALID".
Proof using Type.
  assert (Hopen : is_space 40 = false) by reflexivity.
  assert (Hclose : is_space 41 = false) by reflexivity.
  assert (Hwrapped : strip (lit "(" ++ body ++ lit ")") = 40%N :: body ++ [41%N])
    by (apply (strip_between 40 41 body); assumption).
  assert (Hends : endswith (lit ")") (40%N :: body ++ [41%N]) = true).
  { unfold endswith. change (rev (40%N :: body ++ [41%N]))
      with (rev (body ++ [41%N]) ++ [40%N]).
    now rewrite rev_app_distr. }
  split; [|split].
  - unfold check_definition. rewrite upper_app.
    change (startswith (lit "CHECK ")
              (upper unicode_upper (lit "CHECK (")
               ++ upper unicode_upper (body ++ lit ")"))) with true.
    cbv iota zeta.
    change (drop 6 (lit "CHECK (" ++ body ++ lit ")"))
      with (lit "(" ++ body ++ lit ")").
    rewrite Hwrapped, Hends.
    change (startswith (lit "(") (40%N :: body ++ [41%N])) with true.
    cbv iota. unfold strip_ends. simpl tl. apply removelast_last.
  - unfold check_definition. rewrite upper_app.
    change (startswith (lit "CHECK ")
              (upper unicode_upper (lit "check (")
               ++ upper unicode_upper (body ++ lit ")"))) with true.
    cbv iota zeta.
    change (drop 6 (lit "check (" ++ body ++ lit ")"))
      with (lit "(" ++ body ++ lit ")").
    rewrite Hwrapped, Hends.
    change (startswith (lit "(") (40%N :: body ++ [41%N])) with true.
    cbv iota. unfold strip_ends. simpl tl. apply removelast_last.
  - unfold check_definition. rewrite upper_app.
    change (startswith (lit "CHECK ")
              (upper unicode_upper (lit "CHECK (")
               ++ upper unicode_upper (body ++ lit ") NOT VALID"))) with true.
    cbv iota zeta.
    change (drop 6 (lit "CHECK (" ++ body ++ lit ") NOT VALID"))
      with (40%N :: body ++ lit ") NOT VALID").
    assert (Hsnoc : body ++ lit ") NOT VALID"
                    = (body ++ lit ") NOT VALI") ++ [68%N])
      by (rewrite <- app_assoc; reflexivity).
    rewrite Hsnoc. rewrite (strip_between 40 68) by reflexivity.
    assert (Hno : endswith (lit ")") (40%N :: (body ++ lit ") NOT VALI") ++ [68%N])
                  = false).
    { unfold endswith.
      change (rev (40%N :: (body ++ lit ") NOT VALI") ++ [68%N]))
        with (rev ((body ++ lit ") NOT VALI") ++ [68%N]) ++ [40%N]).
      now rewrite rev_app_distr. }
    rewrite Hno, andb_false_r. now rewrite <- Hsnoc.
Qed.
End DumpFacts.

Lemma cut_between_pre (first second : line -> bool) a b :
  Forall (fun l => second l = false) a ->
  cut_between first second b -> cut_between first second (a ++ b).
Proof.
  intros Ha (pre & post & -> & Hpre & Hpost).
  exists (a ++ pre), post. rewrite app_assoc. repeat split; auto.
  apply Forall_app. now split.
Qed.

Lemma cut_between_post (first second : line -> bool) b :
  Forall (fun l => first l = false) b -> cut_between first second b.
Proof. intros Hb. exists [], b. repeat split; auto. Qed.

Lemma filter_all {A} (p : A -> bool) l :
  Forall (fun x => p x = true) l -> List.filter p l = l.
Proof.
  induction 1 as [|x l Hx _ IH]; [reflexivity|].
  simpl. now rewrite Hx, IH.
Qed.

Section DumpSections.
Variable float : Type.
Variable str_of_float : float -> str.
Variable object : Type.
Variable str_of_object : object -> str.
Variable unicode_upper : N -> str.
Variable cat : catalog (value float object).

Local Abbreviation lines_of :=
  (dump_lines float str_of_float object str_of_object unicode_upper cat).

Lemma dump_lines_cut_before_indexes (first : line -> bool) now tables
  include_data schema skip_header skip_extensions :
  (forall l, mark_of l = Plain -> first l = false) ->
  (forall l name, mark_of l = CreateIndex name -> first l = false) ->
  cut_between first is_index_line
    (lines_of now tables include_data schema skip_header skip_extensions).
Proof using Type.
  intros Hplain Hindex. unfold dump_lines.
  set (target := match tables with Some ts => ts | None => _ end).
  assert (Hun : forall ls, Forall unmarked ls ->
                           Forall (fun l => is_index_line l = false) ls).
  { intros ls H. eapply Forall_impl; [exact H|].
    intros l Hl. unfold is_index_line. now rewrite Hl. }
  apply cut_between_pre.
  { destruct skip_header; repeat constructor. }
  apply cut_between_pre.
  { destruct skip_extensions; [constructor|]. apply Hun, unmarked_extensions. }
  apply cut_between_pre; [apply Hun, unmarked_enums|].
  apply cut_between_pre; [apply Hun, unmarked_sequences|].
  apply cut_between_pre.
  { apply Forall_flat_map. apply List.Forall_forall. intros table_name _.
    apply Forall_app. split; [|repeat constructor].
    eapply Forall_impl; [apply marks_of_table|].
    intros l [H|H]; unfold is_index_line; now rewrite H. }
  apply cut_between_pre.
  { eapply Forall_impl; [apply marks_of_foreign_keys|].
    intros l [H|(t & c & H)]; unfold is_index_line; now rewrite H. }
  apply cut_between_post.
  apply Forall_app. split.
  { eapply Forall_impl; [apply marks_of_indexes|].
    intros l [H|(n & H)]; eauto. }
  apply Forall_app. split.
  { eapply Forall_impl; [apply unmarked_views|]. intros l H. now apply Hplain. }
  destruct include_data; [|constructor].
  apply Forall_app. split; [repeat constructor; now apply Hplain|].
  apply Forall_flat_map. apply List.Forall_forall. intros table_name _.
  eapply Forall_impl; [apply unmarked_data|]. intros l H. now apply Hplain.
Qed.

(** X10. In the dump of a schema every CREATE INDEX statement stands after
    every line of a CREATE TABLE statement and after every foreign key, in
    the list of lines and in the text. *)
Theorem indexes_follow_tables_and_foreign_keys now tables include_data schema
  skip_header skip_extensions :
  all_before is_create_table is_index_line
    (lines_of now tables include_data schema skip_header skip_extensions)
  /\ all_before is_foreign_key is_index_line
       (lines_of now tables include_data schema skip_header skip_extensions).
Proof using Type.
  split; apply cut_between_all_before, dump_lines_cut_before_indexes.
  - intros l H. unfold is_create_table. now rewrite H.
  - intros l name H. unfold is_create_table. now rewrite H.
  - intros l H. unfold is_foreign_key. now rewrite H.
  - intros l name H. unfold is_foreign_key. now rewrite H.
Qed.

(** The foreign keys written for a schema are those of the tables of
    the list, in the order of the catalog query, one statement each; with
    an empty list they are all the foreign keys of the schema. *)
Lemma foreign_key_lines_of_section schema tables :
  List.filter is_foreign_key (_dump_foreign_keys float object cat schema tables)
  = List.map (fk_statement schema)
      (List.filter (fun '(_, table_name, _) =>
                      match tables with
                      | [] => true
                      | _ => mem table_name tables
                      end)
                   (foreign_keys cat schema)).
Proof using Type.
  unfold _dump_foreign_keys. cbv zeta.
  assert (Hrows :
    match tables with
    | [] => foreign_keys cat schema
    | _ => List.filter (fun '(_, table_name, _) => mem table_name tables)
                       (foreign_keys cat schema)
    end
    = List.filter (fun '(_, table_name, _) =>
                     match tables with
                     | [] => true
                     | _ => mem table_name tables
                     end)
                  (foreign_keys cat schema)).
  { destruct tables as [|t ts]; [|reflexivity].
    symmetry. apply filter_all. apply List.Forall_forall.
    now intros [[c t] d] _. }
  rewrite Hrows. clear Hrows.
  destruct (List.filter _ (foreign_keys cat schema)) as [|x rows];
    [reflexivity|].
  rewrite !List.filter_app.
  rewrite (filter_none is_foreign_key (banner "-- FOREIGN KEYS"))
    by repeat constructor.
  change (List.filter is_foreign_key [plain []]) with (@nil line).
  rewrite app_nil_r. cbn [app].
  apply filter_all. apply Forall_map. apply Forall_forall.
  now intros [[c t] d] _.
Qed.

(** X12. A schema with no enum type, sequence, table, foreign key, index or
    view adds nothing to the dump of the database when the data are left
    out; with the data included it is written out all the same, its
    heading followed by the bare DATA banner. *)
Theorem schema_without_objects now schema :
  bare_schema cat schema ->
  schema_elements float str_of_float object str_of_object unicode_upper cat
                  now false schema = []
  /\ schema_elements float str_of_float object str_of_object unicode_upper cat
                     now true schema
     = List.map text (schema_heading schema) ++ [data_banner; []].
Proof using Type.
  intros (Henum & Hseq & Htab & Hfk & Hidx & Hview).
  assert (Hlines : forall include_data,
    lines_of now None include_data schema true true
    = if include_data
      then [plain []; plain rule; plain (lit "-- DATA"); plain rule; plain []]
      else []).
  { intros include_data. unfold dump_lines, _dump_enums, _dump_sequences,
      _dump_foreign_keys, _dump_indexes, _dump_views, index_rows, index_query.
    rewrite Henum, Hseq, Htab, Hfk, Hidx, Hview.
    destruct include_data; reflexivity. }
  unfold schema_elements, dump. cbv zeta. rewrite !Hlines. split.
  - reflexivity.
  - change (render [plain []; plain rule; plain (lit "-- DATA"); plain rule;
                    plain []]) with data_banner.
    assert (Hne : is_empty (strip data_banner) = false)
      by (vm_compute; reflexivity).
    now rewrite Hne.
Qed.
End DumpSections.

Lemma schema_without_objects_witness :
  schema_elements unit (fun _ => []) unit (fun _ => []) no_upper empty_catalog
                  (lit "2026-01-01 00:00:00") false (lit "audit") = []
  /\ schema_elements unit (fun _ => []) unit (fun _ => []) no_upper
                     empty_catalog (lit "2026-01-01 00:00:00") true
                     (lit "audit")
     = List.map text (schema_heading (lit "audit")) ++ [data_banner; []].
Proof.
  apply schema_without_objects. repeat split.
Defined.

Section DumpTables.
Variable float : Type.
Variable str_of_float : float -> str.
Variable object : Type.
Variable str_of_object : object -> str.
Variable unicode_upper : N -> str.
Variable cat : catalog (value float object).

Local Abbreviation lines_of :=
  (dump_lines float str_of_float object str_of_object unicode_upper cat).
Local Abbreviation table_lines :=
  (_dump_table float object unicode_upper cat).

Lemma unmarked_no_table ls :
  Forall unmarked ls -> List.filter is_create_table ls = [].
Proof using Type.
  intros H. apply filter_none. eapply Forall_impl; [exact H|].
  intros l Hl. unfold is_create_table. now rewrite Hl.
Qed.

(** X13. The CREATE TABLE statements of a dump are those of the target
    tables, the given list or else all tables of the schema, one statement
    for each entry in the order of the list, and no other part of the dump
    creates a table. *)
Theorem dump_creates_the_target_tables now tables include_data schema
  skip_header skip_extensions :
  List.filter is_create_table
    (lines_of now tables include_data schema skip_header skip_extensions)
  = flat_map (fun table_name => tl (table_lines schema table_name))
      match tables with
      | Some ts => ts
      | None => all_tables cat schema
      end.
Proof using Type.
  unfold dump_lines.
  set (target := match tables with Some ts => ts | None => _ end).
  rewrite !List.filter_app.
  rewrite (unmarked_no_table (if skip_header then [] else _))
    by (destruct skip_header; repeat constructor).
  rewrite (unmarked_no_table (if skip_extensions then [] else _))
    by (destruct skip_extensions; [constructor|apply unmarked_extensions]).
  rewrite (unmarked_no_table (_dump_enums _ _ _ _)) by apply unmarked_enums.
  rewrite (unmarked_no_table (_dump_sequences _ _ _ _ _))
    by apply unmarked_sequences.
  rewrite (filter_none is_create_table (_dump_foreign_keys _ _ _ _ _)).
  2:{ eapply Forall_impl; [apply marks_of_foreign_keys|].
      intros l [H|(t & c & H)]; unfold is_create_table; now rewrite H. }
  rewrite (filter_none is_create_table (_dump_indexes _ _ _ _ _ _)).
  2:{ eapply Forall_impl; [apply marks_of_indexes|].
      intros l [H|(n & H)]; unfold is_create_table; now rewrite H. }
  rewrite (unmarked_no_table (_dump_views _ _ _ _)) by apply unmarked_views.
  rewrite (unmarked_no_table (if include_data then _ else [])).
  2:{ destruct include_data; [|constructor].
      apply Forall_app. split; [repeat constructor|].
      apply Forall_flat_map. apply List.Forall_forall. intros t _.
      apply unmarked_data. }
  rewrite !app_nil_r. cbn [app].
  induction target as [|t target IH]; [reflexivity|].
  rewrite !flat_map_step, List.filter_app, IH. reflexivity.
Qed.

Lemma unmarked_no_foreign_key ls :
  Forall unmarked ls -> List.filter is_foreign_key ls = [].
Proof using Type.
  intros H. apply filter_none. eapply Forall_impl; [exact H|].
  intros l Hl. unfold is_foreign_key. now rewrite Hl.
Qed.

(** Only the FOREIGN KEYS section of a dump holds foreign keys. *)
Lemma foreign_key_lines_of_dump now tables include_data schema
  skip_header skip_extensions :
  List.filter is_foreign_key
    (lines_of now tables include_data schema skip_header skip_extensions)
  = List.filter is_foreign_key
      (_dump_foreign_keys float object cat schema
         match tables with
         | Some ts => ts
         | None => all_tables cat schema
         end).
Proof using Type.
  unfold dump_lines.
  set (target := match tables with Some ts => ts | None => _ end).
  rewrite !List.filter_app.
  rewrite (unmarked_no_foreign_key (if skip_header then [] else _))
    by (destruct skip_header; repeat constructor).
  rewrite (unmarked_no_foreign_key (if skip_extensions then [] else _))
    by (destruct skip_extensions; [constructor|apply unmarked_extensions]).
  rewrite (unmarked_no_foreign_key (_dump_enums _ _ _ _))
    by apply unmarked_enums.
  rewrite (unmarked_no_foreign_key (_dump_sequences _ _ _ _ _))
    by apply unmarked_sequences.
  rewrite (filter_none is_foreign_key (flat_map _ target)).
  2:{ apply Forall_flat_map. apply List.Forall_forall. intros t _.
      apply Forall_app. split; [|repeat constructor].
      eapply Forall_impl; [apply marks_of_table|].
      intros l [H|H]; unfold is_foreign_key; now rewrite H. }
  rewrite (filter_none is_foreign_key (_dump_indexes _ _ _ _ _ _)).
  2:{ eapply Forall_impl; [apply marks_of_indexes|].
      intros l [H|(n & H)]; unfold is_foreign_key; now rewrite H. }
  rewrite (unmarked_no_foreign_key (_dump_views _ _ _ _))
    by apply unmarked_views.
  rewrite (unmarked_no_foreign_key (if include_data then _ else [])).
  2:{ destruct include_data; [|constructor].
      apply Forall_app. split; [repeat constructor|].
      apply Forall_flat_map. apply List.Forall_forall. intros t _.
      apply unmarked_data. }
  now rewrite !app_nil_r.
Qed.

(** X11. The foreign key statements of a dump are those of the target
    tables (the given list, or all tables of the schema when none is
    given), one ALTER TABLE statement each in the order of the catalog
    query; when the list is empty they are all the foreign keys of the
    schema. *)
Theorem foreign_keys_of_listed_tables now tables include_data schema
  skip_header skip_extensions :
  List.filter is_foreign_key
    (lines_of now tables include_data schema skip_header skip_extensions)
  = List.map (fk_statement schema)
      (List.filter (fun '(_, table_name, _) =>
                      match match tables with
                            | Some ts => ts
                            | None => all_tables cat schema
                            end with
                      | [] => true
                      | target => mem table_name target
                      end)
                   (foreign_keys cat schema)).
Proof using Type.
  rewrite foreign_key_lines_of_dump.
  set (target := match tables with Some ts => ts | None => _ end).
  rewrite foreign_key_lines_of_section.
  f_equal. apply List.filter_ext. intros [[c t] d].
  now destruct target.
Qed.
End DumpTables.

(** ** VerificationEngine: the result in full *)

Section VerifierResults.
Variable db : Type.
Variable ses : session db.

(** X14. Once the table names are fetched, [table_rows] has an entry for
    every table of the schema and for nothing else, whichever lookups
    fail and whatever happens to the later queries. *)
Theorem verify_lists_every_table schema s n s1 tables s2 :
  fetch_count ses (CountTables schema) s = (Returns n, s1) ->
  fetch_tables ses schema s1 = (Returns tables, s2) ->
  exists result s',
    verify db ses schema s = (Returns result, s')
    /\ forall t, is_Some (table_rows result !! t) <-> In t tables.
Proof using Type.
  intros Hn Ht. rewrite verify_unfold.
  destruct (verify_body_spec db ses schema s)
    as (done & r & s' & Hbody & _ & Hrows).
  rewrite Hbody.
  destruct (Hrows _ _ _ _ Hn Ht) as (_ & s3 & Hloop).
  assert (Hkeys : forall t, is_Some (table_rows r !! t) <-> In t tables).
  { intros t. rewrite (count_loop_keys _ _ _ _ _ _ _ _ Hloop t).
    rewrite lookup_empty. split; [intros [H|[? H]]|]; auto; discriminate. }
  destruct done as [[]|e]; eexists _, _; (split; [reflexivity|exact Hkeys]).
Qed.

(** X15. When the five stages answer, the result holds the answers and no
    error.  [table_rows] holds, for each row-count lookup in turn, the
    count the lookup returned, and -1 for a lookup that failed: a failed
    row count is an entry of [table_rows] and not an error. *)
Theorem verify_all_stages_answer schema s n s1 tables s2 a s4 b s5 c s6 :
  fetch_count ses (CountTables schema) s = (Returns n, s1) ->
  fetch_tables ses schema s1 = (Returns tables, s2) ->
  fetch_count ses (CountSequences schema) (after_lookups ses schema tables s2)
  = (Returns a, s4) ->
  fetch_count ses (CountIndexes schema) s4 = (Returns b, s5) ->
  fetch_count ses (CountViews schema) s5 = (Returns c, s6) ->
  verify db ses schema s
  = (Returns {| table_count := n;
                table_rows :=
                  fold_left
                    (fun (rows : gmap str Z) '(table, answer) =>
                       <[table := match answer with
                                  | Returns count => count
                                  | Raises _ => (-1)%Z
                                  end]> rows)
                    (lookups db ses schema tables s2) ∅;
                sequence_count := a; index_count := b; view_count := c;
                errors := [] |}, s6).
Proof using Type.
  intros Hn Ht Ha Hb Hc. rewrite verify_unfold.
  unfold verify_body, bind, call_helper, assign, _count_tables,
    _count_rows_per_table, _count_sequences, _count_indexes, _count_views.
  unfold bind. rewrite Hn. cbn beta iota. rewrite Ht. cbn beta iota.
  rewrite count_loop_run. cbn beta iota. rewrite Ha. cbn beta iota.
  rewrite Hb. cbn beta iota. rewrite Hc. reflexivity.
Qed.

(** X16. The stages run in the order tables, table names and rows,
    sequences, indexes, views, and the first one that fails ends the run:
    no further query is sent, the counts of the stages not reached stay
    zero, and the message of the failure is the only error. *)
Theorem verify_stops_at_first_failure schema s e :
  (forall s1,
     fetch_count ses (CountTables schema) s = (Raises e, s1) ->
     verify db ses schema s
     = (Returns (append_error (message e) new_verification), s1))
  /\ (forall n s1 s2,
        fetch_count ses (CountTables schema) s = (Returns n, s1) ->
        fetch_tables ses schema s1 = (Raises e, s2) ->
        verify db ses schema s
        = (Returns {| table_count := n; table_rows := ∅; sequence_count := 0;
                      index_count := 0; view_count := 0;
                      errors := [message e] |}, s2))
  /\ (forall n s1 tables s2 rows s3 s4,
        fetch_count ses (CountTables schema) s = (Returns n, s1) ->
        fetch_tables ses schema s1 = (Returns tables, s2) ->
        count_loop db ses schema tables ∅ s2 = (Returns rows, s3) ->
        fetch_count ses (CountSequences schema) s3 = (Raises e, s4) ->
        verify db ses schema s
        = (Returns {| table_count := n; table_rows := rows;
                      sequence_count := 0; index_count := 0; view_count := 0;
                      errors := [message e] |}, s4))
  /\ (forall n s1 tables s2 rows s3 a s4 s5,
        fetch_count ses (CountTables schema) s = (Returns n, s1) ->
        fetch_tables ses schema s1 = (Returns tables, s2) ->
        count_loop db ses schema tables ∅ s2 = (Returns rows, s3) ->
        fetch_count ses (CountSequences schema) s3 = (Returns a, s4) ->
        fetch_count ses (CountIndexes schema) s4 = (Raises e, s5) ->
        verify db ses schema s
        = (Returns {| table_count := n; table_rows := rows;
                      sequence_count := a; index_count := 0; view_count := 0;
                      errors := [message e] |}, s5))
  /\ (forall n s1 tables s2 rows s3 a s4 b s5 s6,
        fetch_count ses (CountTables schema) s = (Returns n, s1) ->
        fetch_tables ses schema s1 = (Returns tables, s2) ->
        count_loop db ses schema tables ∅ s2 = (Returns rows, s3) ->
        fetch_count ses (CountSequences schema) s3 = (Returns a, s4) ->
        fetch_count ses (CountIndexes schema) s4 = (Returns b, s5) ->
        fetch_count ses (CountViews schema) s5 = (Raises e, s6) ->
        verify db ses schema s
        = (Returns {| table_count := n; table_rows := rows;
                      sequence_count := a; index_count := b; view_count := 0;
                      errors := [message e] |}, s6)).
Proof using Type.
  rewrite verify_unfold.
  unfold verify_body, bind, call_helper, assign, _count_tables,
    _count_rows_per_table, _count_sequences, _count_indexes, _count_views.
  unfold bind.
  repeat split; intros;
    repeat match goal with
           | H : _ = (_, _) |- _ => rewrite H; clear H; cbn beta iota
           end;
    reflexivity.
Qed.
End VerifierResults.

Lemma verify_lists_every_table_witness :
  exists result s',
    verify nat demo_session (lit "public") 0 = (Returns result, s')
    /\ forall t, is_Some (table_rows result !! t)
                 <-> In t [lit "a"; lit "b"; lit "c"].
Proof.
  apply (verify_lists_every_table nat demo_session (lit "public") 0 3 1 _ 2);
    reflexivity.
Defined.

Lemma verify_all_stages_answer_witness :
  verify nat steady_session (lit "public") 0
  = (Returns {| table_count := 3;
                table_rows := <[lit "c" := 5%Z]>
                                (<[lit "b" := (-1)%Z]>
                                   (<[lit "a" := 5%Z]> ∅));
                sequence_count := 2; index_count := 4; view_count := 1;
                errors := [] |}, 8).
Proof.
  apply (verify_all_stages_answer nat steady_session (lit "public")
           0 3 1 [lit "a"; lit "b"; lit "c"] 2 2 6 4 7 1 8);
    reflexivity.
Defined.

(** ** ExecutionEngine: returning, and the counters *)

Section ExecutorRuns.
Variable cp949_decode : list byte -> option str.
Variable fs : str -> file_access.
Variable srv : server.

Local Abbreviation read := (_read_file cp949_decode fs).

(** *** When no exception leaves [execute_files] *)

Section Returning.
Hypothesis commit_succeeds : forall c, commit_error srv c = None.
Hypothesis rollback_succeeds : forall c, rollback_error srv c = None.
Hypothesis link_holds : forall c, breaks srv c = false.
Hypothesis refusals_are_io_errors :
  forall p e, fs p = Refused e -> exists msg, e = IOError msg.

(** The loop over the statements of a file leaves an open handle open, is
    never left by an exception, and is left by [return] only after a
    rollback has ended the transaction. *)
Lemma single_statements_steady qs : forall c r c' r' exit,
  single_statements srv qs c r = (c', r', exit) ->
  closed c = false ->
  closed c' = false
  /\ match exit with
     | Next => True
     | Return => in_transaction c' = false
     | Raise _ => False
     end.
Proof using rollback_succeeds link_holds.
  induction qs as [|q qs IH]; intros c r c' r' exit Hrun Hcl; simpl in Hrun.
  - injection Hrun as <- <- <-. auto.
  - pose proof (conn_execute_stays_open srv link_holds c q Hcl) as Hopen.
    destruct (conn_execute srv c q) as [c1 [msg|]]; simpl in Hopen.
    + rewrite (conn_rollback_accepted srv rollback_succeeds c1 Hopen) in Hrun.
      injection Hrun as <- <- <-. auto.
    + apply (IH _ _ _ _ _ Hrun Hopen).
Qed.

Lemma single_files_steady file_paths : forall c r c' r' exit,
  single_files cp949_decode fs srv file_paths c r = (c', r', exit) ->
  closed c = false ->
  closed c' = false
  /\ match exit with
     | Next => True
     | Return => in_transaction c' = false
     | Raise _ => False
     end.
Proof using rollback_succeeds link_holds refusals_are_io_errors.
  induction file_paths as [|p rest IH]; intros c r c' r' exit Hrun Hcl;
    simpl in Hrun.
  - injection Hrun as <- <- <-. auto.
  - destruct (read_returns_or_io_error cp949_decode fs refusals_are_io_errors p)
      as [[sql Hread]|[msg Hread]]; rewrite Hread in Hrun.
    + cbv zeta in Hrun.
      destruct (single_statements srv (_split_queries sql) c _)
        as [[c1 r2] exit1] eqn:Hst.
      apply single_statements_steady in Hst; [|assumption].
      destruct Hst as [Hcl1 Hexit1].
      destruct exit1 as [| |e].
      * apply (IH _ _ _ _ _ Hrun Hcl1).
      * injection Hrun as <- <- <-. auto.
      * contradiction.
    + rewrite (conn_rollback_accepted srv rollback_succeeds c Hcl) in Hrun.
      injection Hrun as <- <- <-. auto.
Qed.

(** X17. On a connection that is open and outside a transaction, when the
    link to the server holds, the server never refuses a commit or a
    rollback and the file system refuses a file only with an I/O error,
    [execute_files] returns its counters in both modes: no failing
    statement and no unreadable file makes it raise. *)
Theorem execute_files_returns file_paths single_transaction c :
  closed c = false -> in_transaction c = false ->
  exists c' r,
    execute_files cp949_decode fs srv file_paths single_transaction c
    = (c', Returns r).
Proof using commit_succeeds rollback_succeeds link_holds refusals_are_io_errors.
  intros Hcl Htx.
  unfold execute_files. cbv zeta. destruct single_transaction.
  - unfold _execute_single_transaction. cbv zeta.
    rewrite (set_autocommit_accepted false c Hcl Htx).
    destruct (single_files cp949_decode fs srv file_paths _ _)
      as [[c1 r1] exit] eqn:Hsf.
    apply single_files_steady in Hsf; [|exact Hcl].
    destruct Hsf as [Hcl1 Hexit].
    destruct exit as [| |e]; [| |contradiction].
    + rewrite (conn_commit_accepted srv commit_succeeds c1 Hcl1).
      rewrite set_autocommit_accepted by reflexivity. eauto.
    + rewrite (set_autocommit_accepted _ c1 Hcl1 Hexit). eauto.
  - unfold _execute_per_file. cbv zeta.
    pose proof (per_file_loop_by_wording cp949_decode fs srv
                  commit_succeeds rollback_succeeds link_holds
                  refusals_are_io_errors file_paths c
                  (set_total_files (len file_paths) new_result) Hcl Htx)
      as Hloop.
    destruct (files_by_wording srv _ c) as [c1 fates].
    destruct Hloop as (r1 & -> & Hcl1 & Htx1 & _).
    rewrite (set_autocommit_accepted _ c1 Hcl1 Htx1). eauto.
Qed.
End Returning.

(** *** The counters *)

Lemma per_file_step_counters file_path c r c' r' o k :
  per_file_step cp949_decode fs srv file_path c r = (c', r', inl o) ->
  per_file_counters (k + 1) r -> per_file_counters k r'.
Proof using Type.
  unfold per_file_step, per_file_counters.
  destruct (read file_path) as [sql|[msg|msg]]; [|intros [= <- <- <-]; simpl; lia
                                                 |discriminate].
  cbv zeta.
  destruct (set_autocommit false c) as [c0 [e|]] eqn:Hset; [discriminate|].
  apply set_autocommit_spec in Hset.
  destruct Hset as (_ & _ & _ & _ & _ & Hac0 & _).
  destruct (per_file_statements srv _ _ _) as [[[c1 r2] ferr] exit] eqn:Hst.
  destruct exit as [e|]; [now destruct ferr|].
  apply per_file_statements_spec in Hst; [|assumption].
  destruct Hst as (_ & _ & Htf & Hsf & Hff & Htq & Hrest).
  pose proof (len_nonneg (_split_queries sql)) as Hlen.
  simpl in Htf, Hsf, Hff, Htq, Hrest.
  destruct ferr.
  - destruct Hrest as (_ & Hec & Hsc). intros [= <- <- <-]. simpl. lia.
  - destruct Hrest as (_ & Hec & Hsc).
    destruct (conn_commit srv c1) as [c2 [msg|]]; [discriminate|].
    intros [= <- <- <-]. simpl. lia.
Qed.

Lemma per_file_loop_counters file_paths : forall c r c' r',
  per_file_loop cp949_decode fs srv file_paths c r = (c', r', None) ->
  per_file_counters (len file_paths) r -> per_file_counters 0 r'.
Proof using Type.
  induction file_paths as [|p rest IH]; intros c r c' r' Hrun Hinv.
  - simpl in Hrun. now injection Hrun as <- <-.
  - simpl in Hrun.
    destruct (per_file_step cp949_decode fs srv p c r) as [[c1 r1] [o|e]] eqn:Hs;
      [|discriminate].
    apply (IH _ _ _ _ Hrun).
    apply (per_file_step_counters _ _ _ _ _ _ _ Hs).
    now rewrite len_cons in Hinv.
Qed.

Lemma single_files_counters file_paths : forall c r c' r' exit,
  single_files cp949_decode fs srv file_paths c r = (c', r', exit) ->
  autocommit c = false ->
  single_counters (len file_paths) r ->
  match exit with
  | Next => single_counters 0 r'
  | Return => consistent r'
  | Raise _ => True
  end.
Proof using Type.
  induction file_paths as [|p rest IH]; intros c r c' r' exit Hrun Hac Hinv.
  - simpl in Hrun. now injection Hrun as <- <- <-.
  - simpl in Hrun. rewrite len_cons in Hinv.
    pose proof (len_nonneg rest) as Hk.
    destruct (read p) as [sql|[msg|msg]].
    + cbv zeta in Hrun.
      pose proof (len_nonneg (_split_queries sql)) as Hlen.
      destruct (single_statements srv _ c _) as [[c1 r2] exit1] eqn:Hst.
      apply single_statements_spec in Hst; [|assumption].
      destruct Hst as (Hac1 & _ & Htf & Hsf & Htq & Hexit).
      simpl in Htf, Hsf, Htq, Hexit.
      unfold single_counters in Hinv.
      destruct exit1 as [| |e].
      * destruct Hexit as (_ & _ & Hsc & Hec & Hff).
        apply (IH _ _ _ _ _ Hrun Hac1).
        unfold single_counters. simpl. lia.
      * injection Hrun as <- <- <-.
        destruct Hexit as (k & Hk' & _ & _ & Hsc & Hec & Hff).
        unfold consistent. unfold len in *. lia.
      * now injection Hrun as <- <- <-.
    + unfold single_counters in Hinv.
      destruct (conn_rollback srv c) as [c1 [msg'|]];
        injection Hrun as <- <- <-; [exact I|].
      unfold consistent. simpl. lia.
    + now injection Hrun as <- <- <-.
Qed.

(** X18. Whenever [execute_files] returns, in either mode, its counters
    agree: none is negative, the files counted as done or failed are at
    most the files given, the statements counted as run or failed are at
    most the statements parsed, and every statement error belongs to a
    failed file. *)
Theorem execute_files_counters_agree file_paths single_transaction c c' r :
  execute_files cp949_decode fs srv file_paths single_transaction c
  = (c', Returns r) ->
  consistent r /\ total_files r = len file_paths.
Proof using Type.
  unfold execute_files.
  pose proof (len_nonneg file_paths) as Hlen.
  destruct single_transaction.
  - destruct (_execute_single_transaction _ _ _ _ _ _)
      as [[c2 r2] exit2] eqn:Hrun.
    intros Hret. destruct exit2 as [e|]; [discriminate|].
    injection Hret as <- <-.
    unfold _execute_single_transaction in Hrun.
    destruct (set_autocommit false c) as [c0 [e0|]] eqn:Hset.
    { apply (finally_spec (autocommit c) c0 _ (Raise (Error e0))) in Hrun.
      destruct Hrun as (_ & _ & _ & _ & [(e & He & _)|(He & _)]);
        discriminate. }
    apply set_autocommit_spec in Hset.
    destruct Hset as (_ & _ & _ & _ & _ & Hac0 & _).
    destruct (single_files cp949_decode fs srv file_paths _ _)
      as [[c1 r1] exit] eqn:Hsf.
    pose proof Hsf as Hspec.
    apply single_files_spec in Hspec; [|assumption].
    destruct Hspec as (_ & _ & Htf & _).
    apply single_files_counters in Hsf;
      [|assumption|unfold single_counters; simpl; lia].
    simpl in Htf.
    destruct exit as [| |e].
    + destruct (conn_commit srv c1) as [c3 [msg|]].
      * apply (finally_spec (autocommit c) c3 r1 (Raise (Error msg))) in Hrun.
        destruct Hrun as (_ & _ & _ & _ & [(e & He & _)|(He & _)]);
          discriminate.
      * apply (finally_spec (autocommit c) c3 r1 Next) in Hrun.
        destruct Hrun as (-> & _). unfold single_counters in Hsf.
        unfold consistent. split; [lia|assumption].
    + apply (finally_spec (autocommit c) c1 r1 Return) in Hrun.
      destruct Hrun as (-> & _). now split.
    + apply (finally_spec (autocommit c) c1 r1 (Raise e)) in Hrun.
      destruct Hrun as (_ & _ & _ & _ & [(e' & He & _)|(He & _)]);
        discriminate.
  - unfold _execute_per_file. cbv zeta.
    destruct (per_file_loop cp949_decode fs srv file_paths c _)
      as [[c1 r1] [e|]] eqn:Hl; [discriminate|].
    pose proof (per_file_loop_total_files _ _ _ _ _ _ _ _ Hl) as Htf.
    apply per_file_loop_counters in Hl;
      [|unfold per_file_counters; simpl; lia].
    destruct (set_autocommit (autocommit c) c1) as [c2 [e|]]; [discriminate|].
    intros [= <- <-]. unfold per_file_counters in Hl. unfold consistent.
    simpl in Htf. split; [lia|assumption].
Qed.
End ExecutorRuns.

Lemma execute_files_returns_witness :
  exists c' r,
    execute_files no_cp949 demo_fs demo_server demo_files true idle
    = (c', Returns r).
Proof.
  apply (execute_files_returns no_cp949 demo_fs demo_server).
  - reflexivity.
  - reflexivity.
  - reflexivity.
  - apply demo_fs_refusals.
  - reflexivity.
  - reflexivity.
Defined.

Lemma execute_files_counters_agree_witness :
  consistent demo_result /\ total_files demo_result = len demo_files.
Proof.
  apply (execute_files_counters_agree no_cp949 demo_fs demo_server demo_files
           false idle demo_after).
  vm_compute. reflexivity.
Defined.

Lemma single_transaction_commit_only_on_success_witness :
  exists texts,
    texts_of no_cp949 demo_fs [lit "good.sql"] texts
    /\ [Execute (lit "INSERT INTO t VALUES (1);"); Commit]
       = List.map Execute (statements_of texts) ++ [Commit]
    /\ 1%Z = (success_count new_result + len (statements_of texts))%Z
    /\ 0%Z = error_count new_result.
Proof.
  apply (single_transaction_commit_only_on_success no_cp949 demo_fs demo_server
           [lit "good.sql"] idle new_result
           {| autocommit := true; pending := [];
              committed := [lit "INSERT INTO t VALUES (1);"];
              history := [Execute (lit "INSERT INTO t VALUES (1);"); Commit];
              in_transaction := false; closed := false |}
           {| total_files := 0; success_files := 1; failed_files := 0;
              total_queries := 1; success_count := 1; error_count := 0 |}
           None).
  - vm_compute. reflexivity.
  - reflexivity.
  - right. left. reflexivity.
Defined.

(** ** File reading: the order of the encodings *)

Section ReaderOrder.
Variable cp949_decode : list byte -> option str.
Variable fs : str -> file_access.

(** X20. A file that is valid UTF-8 is read as UTF-8 whatever the cp949
    decoder would make of it; cp949 is used only for bytes that are not
    UTF-8, and Latin-1 only when both refuse.  Line endings are read as
    line feeds in each case. *)
Theorem read_file_tries_encodings_in_order file_path bs :
  fs file_path = Readable bs ->
  (forall text,
     utf8_decode (List.map Byte.to_N bs) = Some text ->
     _read_file cp949_decode fs file_path = Returns (universal_newlines text))
  /\ (forall text,
        utf8_decode (List.map Byte.to_N bs) = None ->
        cp949_decode bs = Some text ->
        _read_file cp949_decode fs file_path
        = Returns (universal_newlines text))
  /\ (utf8_decode (List.map Byte.to_N bs) = None ->
      cp949_decode bs = None ->
      _read_file cp949_decode fs file_path
      = Returns (universal_newlines (List.map Byte.to_N bs))).
Proof using Type.
  intros Hfs. rewrite (_read_file_readable _ _ _ _ Hfs).
  repeat split.
  - now intros text ->.
  - now intros text -> ->.
  - now intros -> ->.
Qed.
End ReaderOrder.

Lemma read_file_tries_encodings_in_order_witness :
  (forall text,
     utf8_decode (List.map Byte.to_N [Byte.x53; Byte.xff; Byte.x0d; Byte.x0a])
     = Some text ->
     _read_file no_cp949 (fun _ => Readable [Byte.x53; Byte.xff; Byte.x0d;
                                             Byte.x0a]) (lit "a.sql")
     = Returns (universal_newlines text))
  /\ (forall text,
        utf8_decode (List.map Byte.to_N [Byte.x53; Byte.xff; Byte.x0d;
                                         Byte.x0a]) = None ->
        no_cp949 [Byte.x53; Byte.xff; Byte.x0d; Byte.x0a] = Some text ->
        _read_file no_cp949 (fun _ => Readable [Byte.x53; Byte.xff; Byte.x0d;
                                                Byte.x0a]) (lit "a.sql")
        = Returns (universal_newlines text))
  /\ (utf8_decode (List.map Byte.to_N [Byte.x53; Byte.xff; Byte.x0d;
                                       Byte.x0a]) = None ->
      no_cp949 [Byte.x53; Byte.xff; Byte.x0d; Byte.x0a] = None ->
      _read_file no_cp949 (fun _ => Readable [Byte.x53; Byte.xff; Byte.x0d;
                                              Byte.x0a]) (lit "a.sql")
      = Returns (universal_newlines
                   (List.map Byte.to_N [Byte.x53; Byte.xff; Byte.x0d;
                                        Byte.x0a]))).
Proof.
  apply (read_file_tries_encodings_in_order no_cp949
           (fun _ => Readable [Byte.x53; Byte.xff; Byte.x0d; Byte.x0a])
           (lit "a.sql")).
  reflexivity.
Defined.

(** ** StatementSplitter: terminators *)

(** Trimming the two ends in either order gives the same text. *)
Lemma rstrip_lstrip_comm p s :
  rstrip_by p (lstrip_by p s) = lstrip_by p (rstrip_by p s).
Proof.
  induction s as [|c s IH]; [reflexivity|].
  simpl lstrip_by at 1. destruct (p c) eqn:Hc.
  - rewrite IH, rstrip_by_cons.
    destruct (rstrip_by p s) as [|y r] eqn:E; rewrite ?Hc; [reflexivity|].
    simpl. now rewrite Hc.
  - symmetry. apply lstrip_rstrip_fixed. now apply lstrip_by_fixed.
Qed.

Lemma strip_rev s : strip (rev s) = rev (strip s).
Proof.
  unfold strip, rstrip, lstrip.
  rewrite (rstrip_lstrip_comm is_space s).
  reflexivity.
Qed.

Lemma rstrip_by_starts p c u :
  startswith [c] (rstrip_by p u) = true -> startswith [c] u = true.
Proof.
  destruct u as [|x u]; [discriminate|].
  rewrite rstrip_by_cons.
  destruct (rstrip_by p u); [destruct (p x)|]; auto; discriminate.
Qed.

Lemma lstrip_by_app p s t :
  lstrip_by p s <> [] -> lstrip_by p (s ++ t) = lstrip_by p s ++ t.
Proof.
  induction s as [|c s IH]; [contradiction|].
  simpl. destruct (p c); [exact IH|reflexivity].
Qed.

Lemma startswith_head c d u :
  startswith [c] (d :: u) = true -> d = c.
Proof.
  simpl. rewrite andb_true_r. intros H. symmetry. now apply N.eqb_eq.
Qed.

(** A text whose trimmed form starts with a character that is not white
    space still does so when more text follows. *)
Lemma strip_app_starts c t rest :
  is_space c = false ->
  startswith [c] (strip t) = true ->
  startswith [c] (strip (t ++ rest)) = true.
Proof.
  intros Hc H. unfold strip, rstrip, lstrip in *.
  apply rstrip_by_starts in H.
  destruct (lstrip_by is_space t) as [|d u] eqn:E; [discriminate|].
  apply startswith_head in H. subst d.
  rewrite lstrip_by_app by now rewrite E.
  rewrite E. simpl app. rewrite rstrip_by_cons.
  destruct (rstrip_by is_space (u ++ rest)); [rewrite Hc|];
    simpl; now rewrite N.eqb_refl.
Qed.

(** The same at the other end. *)
Lemma strip_app_ends c before l :
  is_space c = false ->
  endswith [c] (strip l) = true ->
  endswith [c] (strip (before ++ l)) = true.
Proof.
  intros Hc H. unfold endswith in *.
  rewrite <- strip_rev in *. rewrite rev_app_distr.
  now apply strip_app_starts.
Qed.

Lemma join_snoc sep ls l :
  exists before, join sep (ls ++ [l]) = before ++ l.
Proof.
  induction ls as [|x ls [before IH]]; [now exists []|].
  destruct ls as [|y ls].
  - exists (x ++ sep). simpl. now rewrite <- app_assoc.
  - exists (x ++ sep ++ before).
    change (join sep ((x :: y :: ls) ++ [l]))
      with (x ++ sep ++ join sep ((y :: ls) ++ [l])).
    rewrite IH. now rewrite <- !app_assoc.
Qed.

Lemma split_loop_terminated lines : forall st,
  List.Forall (fun q => endswith (lit ";") q = true) (queries st) ->
  List.Forall (fun q => endswith (lit ";") q = true)
              (queries (split_loop lines st)).
Proof.
  induction lines as [|l lines IH]; intros st Hst; [exact Hst|].
  unfold split_loop in *. simpl fold_left. apply IH.
  destruct (split_line_keeps_queries st l) as [->|(_ & _ & Hend & ->)];
    [exact Hst|].
  rewrite close_buffer_app. apply List.Forall_app. split; [exact Hst|].
  unfold close_buffer. cbv zeta.
  destruct (negb _ && negb _); [|constructor].
  constructor; [|constructor].
  destruct (join_snoc [nl] (current st) l) as [before ->].
  now apply (strip_app_ends 59).
Qed.

(** X21. Every statement [_split_queries] returns ends with a semicolon,
    except possibly the last one, which is what was left in the buffer at
    the end of the script. *)
Theorem split_queries_terminated sql :
  exists closed rest,
    _split_queries sql = closed ++ rest
    /\ List.Forall (fun q => endswith (lit ";") q = true) closed
    /\ length rest <= 1.
Proof.
  unfold _split_queries. cbv zeta.
  pose proof (split_loop_terminated (split nl sql) (SplitState [] [] false)
                (List.Forall_nil _)) as Hall.
  destruct (current (split_loop (split nl sql) (SplitState [] [] false)))
    as [|l rest].
  - eexists _, []. rewrite app_nil_r. repeat split; auto.
  - rewrite close_buffer_app. eexists _, _.
    split; [reflexivity|]. split; [exact Hall|].
    unfold close_buffer. cbv zeta.
    destruct (negb _ && negb _); simpl; lia.
Qed.

(** ** StatementSplitter: a statement is split into itself *)

Lemma split_line_cases st l :
  split_line st l
  = if closes (in_dollar st) l
    then SplitState (close_buffer (queries st) (current st ++ [l])) [] false
    else SplitState (queries st) (current st ++ [l])
                    (flag_after (in_dollar st) l).
Proof.
  unfold split_line, closes, flag_after, comment_or_blank.
  destruct (startswith (lit "--") (strip l) || is_empty (strip l));
    [reflexivity|].
  destruct (toggle (in_dollar st) l); [reflexivity|].
  now destruct (endswith (lit ";") (strip l)).
Qed.

Lemma no_close_open flag lines :
  no_close flag lines -> open_until_last flag lines.
Proof.
  revert flag. induction lines as [|l rest IH]; intros flag H; [exact I|].
  simpl in *. destruct rest; [exact I|]. destruct H as [H1 H2]. auto.
Qed.

Lemma no_close_snoc lines : forall flag l,
  no_close flag lines ->
  closes (fold_left flag_after lines flag) l = false ->
  no_close flag (lines ++ [l]).
Proof.
  induction lines as [|x rest IH]; intros flag l H Hl; simpl in *; [auto|].
  destruct H as [H1 H2]. auto.
Qed.

Lemma no_close_open_snoc lines : forall flag l,
  no_close flag lines -> open_until_last flag (lines ++ [l]).
Proof.
  induction lines as [|x rest IH]; intros flag l H; [exact I|].
  destruct H as [H1 H2].
  change ((x :: rest) ++ [l]) with (x :: (rest ++ [l])).
  cbn [open_until_last].
  destruct (rest ++ [l]) eqn:E; [now destruct rest|].
  rewrite <- E. auto.
Qed.

(** The buffers of the loop, started with the flag off: none of them
    holds a line that closes a statement, but possibly its last. *)
Lemma split_loop_open_buffers lines : forall st,
  no_close false (current st) ->
  in_dollar st = fold_left flag_after (current st) false ->
  exists buffers,
    queries (split_loop lines st)
    = queries st ++ flat_map (close_buffer []) buffers
    /\ concat buffers ++ current (split_loop lines st) = current st ++ lines
    /\ List.Forall (fun b => open_until_last false b) buffers
    /\ no_close false (current (split_loop lines st)).
Proof.
  induction lines as [|l lines IH]; intros st Hopen Hflag.
  - exists []. simpl. now rewrite !app_nil_r.
  - unfold split_loop in *. simpl fold_left. rewrite split_line_cases.
    destruct (closes (in_dollar st) l) eqn:Hcl.
    + destruct (IH (SplitState (close_buffer (queries st) (current st ++ [l]))
                               [] false)) as (bufs & Hq & Hc & Hall & Hcur);
        [exact I|reflexivity|].
      exists ((current st ++ [l]) :: bufs). simpl in Hq, Hc. rewrite Hq.
      repeat split.
      * rewrite close_buffer_app. simpl flat_map. now rewrite <- app_assoc.
      * simpl concat. rewrite <- app_assoc, Hc. now rewrite <- app_assoc.
      * constructor; [|exact Hall]. now apply no_close_open_snoc.
      * exact Hcur.
    + destruct (IH (SplitState (queries st) (current st ++ [l])
                               (flag_after (in_dollar st) l)))
        as (bufs & Hq & Hc & Hall & Hcur).
      * simpl. apply no_close_snoc; [exact Hopen|]. now rewrite <- Hflag.
      * simpl. rewrite fold_left_app. simpl. now rewrite <- Hflag.
      * exists bufs. simpl in Hq, Hc. rewrite Hq, Hc.
        repeat split; auto. now rewrite <- app_assoc.
Qed.

(** Lines whose only closing line can be the last make one buffer. *)
Lemma split_loop_one_buffer lines : forall st,
  lines <> [] ->
  open_until_last (in_dollar st) lines ->
  (queries (split_loop lines st) = queries st
   /\ current (split_loop lines st) = current st ++ lines)
  \/ (queries (split_loop lines st)
      = close_buffer (queries st) (current st ++ lines)
      /\ current (split_loop lines st) = []).
Proof.
  induction lines as [|l rest IH]; intros st Hne Hopen; [contradiction|].
  unfold split_loop in *. simpl fold_left. rewrite split_line_cases.
  destruct rest as [|l2 rest].
  - simpl. destruct (closes (in_dollar st) l); simpl; auto.
  - cbn [open_until_last] in Hopen. destruct Hopen as [Hcl Hrest].
    rewrite Hcl.
    destruct (IH (SplitState (queries st) (current st ++ [l])
                             (flag_after (in_dollar st) l)))
      as [[Hq Hc]|[Hq Hc]]; [discriminate|exact Hrest| |].
    + left. rewrite Hq, Hc. simpl. now rewrite <- app_assoc.
    + right. rewrite Hq, Hc. simpl. now rewrite <- app_assoc.
Qed.

Lemma split_queries_one_buffer q :
  open_until_last false (split nl q) ->
  _split_queries q = close_buffer [] (split nl q).
Proof.
  intros Hopen. unfold _split_queries. cbv zeta.
  destruct (split_loop_one_buffer (split nl q) (SplitState [] [] false))
    as [[Hq Hc]|[Hq Hc]]; [apply split_nonempty|exact Hopen| |].
  - rewrite Hq, Hc. simpl.
    pose proof (split_nonempty nl q). now destruct (split nl q).
  - now rewrite Hq, Hc.
Qed.

Lemma lstrip_by_app_nil p s t :
  lstrip_by p s = [] -> lstrip_by p (s ++ t) = lstrip_by p t.
Proof.
  induction s as [|c s IH]; [reflexivity|].
  simpl. destruct (p c); [exact IH|discriminate].
Qed.

Lemma rstrip_by_app p a b :
  rstrip_by p (a ++ b)
  = match rstrip_by p b with
    | [] => rstrip_by p a
    | r => a ++ r
    end.
Proof.
  unfold rstrip_by. rewrite rev_app_distr.
  destruct (lstrip_by p (rev b)) as [|y r] eqn:E.
  - now rewrite lstrip_by_app_nil.
  - rewrite lstrip_by_app by now rewrite E.
    rewrite E, rev_app_distr, rev_involutive.
    destruct (rev (y :: r)) eqn:E2; [|reflexivity].
    apply (f_equal (@length N)) in E2. rewrite length_rev in E2. discriminate.
Qed.

Lemma lstrip_by_In p x s : In x (lstrip_by p s) -> In x s.
Proof.
  induction s as [|c s IH]; [auto|].
  simpl. destruct (p c); [auto|]. intros H. exact H.
Qed.

Lemma rstrip_by_In p x s : In x (rstrip_by p s) -> In x s.
Proof.
  unfold rstrip_by. rewrite <- in_rev. intros H.
  apply lstrip_by_In in H. now rewrite <- in_rev in H.
Qed.

Lemma is_space_nl : is_space nl = true.
Proof. reflexivity. Qed.

(** The lines of a trimmed text. *)
Lemma lstrip_join lines :
  lines <> [] -> lstrip (join [nl] lines) = join [nl] (ltrim_lines lines).
Proof.
  induction lines as [|l rest IH]; [contradiction|]. intros _.
  destruct rest as [|l2 rest]; [reflexivity|].
  change (join [nl] (l :: l2 :: rest))
    with (l ++ [nl] ++ join [nl] (l2 :: rest)).
  cbn [ltrim_lines]. unfold lstrip in *.
  destruct (lstrip_by is_space l) as [|c r] eqn:E.
  - rewrite lstrip_by_app_nil by assumption.
    cbn [app lstrip_by]. rewrite is_space_nl. cbn [is_empty].
    now apply IH.
  - rewrite lstrip_by_app by now rewrite E. rewrite E. reflexivity.
Qed.

Lemma rtrim_lines_nonempty lines : lines <> [] -> rtrim_lines lines <> [].
Proof.
  destruct lines as [|l rest]; [contradiction|]. intros _.
  simpl. destruct rest; [discriminate|].
  destruct (is_empty _); discriminate.
Qed.

Lemma ltrim_lines_nonempty lines : lines <> [] -> ltrim_lines lines <> [].
Proof.
  induction lines as [|l rest IH]; [contradiction|]. intros _.
  simpl. destruct rest; [discriminate|].
  destruct (is_empty _); [now apply IH|discriminate].
Qed.

Lemma rstrip_join lines :
  lines <> [] -> rstrip (join [nl] lines) = join [nl] (rtrim_lines lines).
Proof.
  induction lines as [|l rest IH]; [contradiction|]. intros _.
  destruct rest as [|l2 rest]; [reflexivity|].
  change (join [nl] (l :: l2 :: rest))
    with (l ++ nl :: join [nl] (l2 :: rest)).
  change (rtrim_lines (l :: l2 :: rest))
    with (if is_empty (rstrip (join [nl] (l2 :: rest))) then [rstrip l]
          else l :: rtrim_lines (l2 :: rest)).
  unfold rstrip in *.
  rewrite rstrip_by_app, rstrip_by_cons, is_space_nl.
  specialize (IH ltac:(discriminate)).
  destruct (rstrip_by is_space (join [nl] (l2 :: rest))) as [|c r] eqn:E.
  - reflexivity.
  - cbn [is_empty]. rewrite IH.
    pose proof (rtrim_lines_nonempty (l2 :: rest) ltac:(discriminate)) as Hne.
    destruct (rtrim_lines (l2 :: rest)) as [|x xs]; [contradiction|].
    reflexivity.
Qed.

Lemma ltrim_lines_no_nl lines :
  List.Forall (fun l => ~ In nl l) lines ->
  List.Forall (fun l => ~ In nl l) (ltrim_lines lines).
Proof.
  induction 1 as [|l rest Hl Hrest IH]; [constructor|].
  simpl. destruct rest as [|l2 rest].
  - constructor; [|constructor]. intros H. now apply lstrip_by_In in H.
  - destruct (is_empty (lstrip l)); [exact IH|].
    constructor; [|exact Hrest]. intros H. now apply lstrip_by_In in H.
Qed.

Lemma rtrim_lines_no_nl lines :
  List.Forall (fun l => ~ In nl l) lines ->
  List.Forall (fun l => ~ In nl l) (rtrim_lines lines).
Proof.
  induction 1 as [|l rest Hl Hrest IH]; [constructor|].
  simpl. destruct rest as [|l2 rest].
  - constructor; [|constructor]. intros H. now apply rstrip_by_In in H.
  - destruct (is_empty _).
    + constructor; [|constructor]. intros H. now apply rstrip_by_In in H.
    + constructor; assumption.
Qed.

Lemma strip_lines lines :
  lines <> [] -> List.Forall (fun l => ~ In nl l) lines ->
  split nl (strip (join [nl] lines)) = rtrim_lines (ltrim_lines lines).
Proof.
  intros Hne Hnl. unfold strip.
  rewrite lstrip_join by assumption.
  rewrite rstrip_join by now apply ltrim_lines_nonempty.
  apply split_join.
  - now apply rtrim_lines_nonempty, ltrim_lines_nonempty.
  - now apply rtrim_lines_no_nl, ltrim_lines_no_nl.
Qed.

(** White space in front of a line changes none of the tests made on
    it. *)
Lemma dollars_after_space c l :
  is_space c = true ->
  contains (lit "$$") (c :: l) = contains (lit "$$") l
  /\ count (lit "$$") (c :: l) = count (lit "$$") l.
Proof.
  intros Hc.
  assert (Hs : startswith (lit "$$") (c :: l) = false).
  { change (lit "$$") with [36%N; 36%N]. cbn [startswith].
    destruct (N.eqb_spec 36 c) as [<-|]; [discriminate|reflexivity]. }
  split.
  - cbn [contains]. now rewrite Hs.
  - unfold count. cbn [count_from]. now rewrite Hs.
Qed.

Lemma toggle_lstrip flag l : toggle flag (lstrip l) = toggle flag l.
Proof.
  unfold lstrip. induction l as [|c l IH]; [reflexivity|].
  simpl lstrip_by. destruct (is_space c) eqn:Hc; [|reflexivity].
  rewrite IH. unfold toggle.
  destruct (dollars_after_space c l Hc) as [-> ->]. reflexivity.
Qed.

Lemma strip_lstrip l : strip (lstrip l) = strip l.
Proof. unfold strip, lstrip. now rewrite lstrip_by_idem. Qed.

Lemma closes_lstrip flag l : closes flag (lstrip l) = closes flag l.
Proof.
  unfold closes, comment_or_blank. now rewrite strip_lstrip, toggle_lstrip.
Qed.

Lemma flag_after_lstrip flag l :
  flag_after flag (lstrip l) = flag_after flag l.
Proof.
  unfold flag_after, comment_or_blank.
  now rewrite strip_lstrip, toggle_lstrip.
Qed.

Lemma flag_after_blank flag l : lstrip l = [] -> flag_after flag l = flag.
Proof.
  intros H. unfold flag_after, comment_or_blank, strip. rewrite H.
  now rewrite orb_true_r.
Qed.

Lemma open_ltrim lines : forall flag,
  open_until_last flag lines -> open_until_last flag (ltrim_lines lines).
Proof.
  induction lines as [|l rest IH]; intros flag H; [exact I|].
  cbn [ltrim_lines]. destruct rest as [|l2 rest]; [exact I|].
  cbn [open_until_last] in H. destruct H as [Hcl Hrest].
  destruct (lstrip l) as [|c r] eqn:E; cbn [is_empty].
  - apply IH. now rewrite (flag_after_blank flag l E) in Hrest.
  - rewrite <- E. cbn [open_until_last].
    now rewrite closes_lstrip, flag_after_lstrip.
Qed.

Lemma open_rtrim lines : forall flag,
  open_until_last flag lines -> open_until_last flag (rtrim_lines lines).
Proof.
  induction lines as [|l rest IH]; intros flag H; [exact I|].
  destruct rest as [|l2 rest]; [exact I|].
  change (rtrim_lines (l :: l2 :: rest))
    with (if is_empty (rstrip (join [nl] (l2 :: rest))) then [rstrip l]
          else l :: rtrim_lines (l2 :: rest)).
  cbn [open_until_last] in H. destruct H as [Hcl Hrest].
  destruct (is_empty _); [exact I|].
  pose proof (rtrim_lines_nonempty (l2 :: rest) ltac:(discriminate)) as Hne.
  specialize (IH _ Hrest).
  cbn [open_until_last].
  destruct (rtrim_lines (l2 :: rest)); [contradiction|]. auto.
Qed.

(** X22. Splitting is stable: a statement [_split_queries] returns is
    split, in turn, into exactly itself. *)
Theorem split_queries_idempotent sql q :
  In q (_split_queries sql) -> _split_queries q = [q].
Proof.
  intros Hin.
  assert (Hbuf : exists b,
            b <> [] /\ List.Forall (fun l => ~ In nl l) b
            /\ open_until_last false b /\ In q (close_buffer [] b)).
  { unfold _split_queries in Hin. cbv zeta in Hin.
    destruct (split_loop_open_buffers (split nl sql) (SplitState [] [] false))
      as (bufs & Hq & Hc & Hall & Hcur); [exact I|reflexivity|].
    simpl in Hq, Hc.
    pose proof (split_no_sep nl sql) as Hnl. rewrite <- Hc in Hnl.
    apply List.Forall_app in Hnl. destruct Hnl as [Hnlb Hnlc].
    assert (Hfrom : In q (flat_map (close_buffer []) bufs) ->
                    exists b, b <> [] /\ List.Forall (fun l => ~ In nl l) b
                              /\ open_until_last false b
                              /\ In q (close_buffer [] b)).
    { intros H. apply in_flat_map in H. destruct H as (b & Hb & Hqb).
      exists b. split; [|split; [|split; [|assumption]]].
      - intros ->. contradiction.
      - apply List.Forall_concat in Hnlb.
        rewrite List.Forall_forall in Hnlb. now apply Hnlb.
      - rewrite List.Forall_forall in Hall. now apply Hall. }
    destruct (current (split_loop (split nl sql) (SplitState [] [] false)))
      as [|l rest] eqn:Ecur.
    - rewrite Hq in Hin. now apply Hfrom.
    - rewrite close_buffer_app, Hq in Hin. apply in_app_or in Hin.
      destruct Hin as [Hin|Hin]; [now apply Hfrom|].
      exists (l :: rest). split; [discriminate|]. split; [assumption|].
      split; [now apply no_close_open|assumption]. }
  destruct Hbuf as (b & Hne & Hnl & Hopen & Hq).
  assert (Hkept : q = strip (join [nl] b) /\ kept_statement q).
  { pose proof (close_buffer_kept b) as Hk.
    unfold close_buffer in *. cbv zeta in *.
    destruct (negb _ && negb _); [|contradiction].
    destruct Hq as [<-|[]]. split; [reflexivity|]. now inversion Hk. }
  destruct Hkept as [Hq' (Hq1 & Hq2 & Hq3)].
  rewrite split_queries_one_buffer.
  - unfold close_buffer. cbv zeta. rewrite join_split, Hq2, Hq3.
    destruct q; [contradiction|reflexivity].
  - rewrite Hq', strip_lines by assumption.
    now apply open_rtrim, open_ltrim.
Qed.

Lemma split_queries_idempotent_witness :
  _split_queries plpgsql_example = [plpgsql_example].
Proof.
  apply (split_queries_idempotent plpgsql_example).
  left. vm_compute. reflexivity.
Defined.

(** ** Table selection *)

Lemma str_eqb_eq a b : str_eqb a b = true <-> a = b.
Proof. unfold str_eqb. apply bool_decide_eq_true. Qed.

Lemma str_eqb_refl a : str_eqb a a = true.
Proof. now apply str_eqb_eq. Qed.

Lemma str_eqb_neq a b : a <> b -> str_eqb a b = false.
Proof. intros H. unfold str_eqb. now apply bool_decide_eq_false. Qed.

Lemma split_once_display schema table :
  ~ In dot schema ->
  split_once dot (display_name (schema, table)) = [schema; table].
Proof.
  unfold display_name. simpl fst. simpl snd.
  induction schema as [|c s IH]; intros Hno.
  - reflexivity.
  - change ((c :: s) ++ [dot] ++ table) with (c :: (s ++ [dot] ++ table)).
    cbn [split_once].
    destruct (N.eqb_spec c dot) as [->|Hne]; [exfalso; apply Hno; now left|].
    rewrite IH; [reflexivity|]. intros H. apply Hno. now right.
Qed.

Lemma split_once_no_dot name : ~ In dot name -> split_once dot name = [name].
Proof.
  induction name as [|c s IH]; intros Hno; [reflexivity|].
  cbn [split_once].
  destruct (N.eqb_spec c dot) as [->|Hne]; [exfalso; apply Hno; now left|].
  rewrite IH; [reflexivity|]. intros H. apply Hno. now right.
Qed.

Lemma split_once_dot name :
  In dot name -> exists schema table, split_once dot name = [schema; table].
Proof.
  induction name as [|c s IH]; intros Hin; [contradiction|].
  cbn [split_once].
  destruct (N.eqb_spec c dot) as [->|Hne]; [eauto|].
  destruct Hin as [Heq|Hin]; [congruence|].
  destruct (IH Hin) as (schema & table & ->). eauto.
Qed.

Lemma dict_get_setdefault key item d k :
  dict_get k (setdefault_append key item d)
  = if str_eqb k key
    then Some (match dict_get key d with Some v => v | None => [] end
               ++ [item])
    else dict_get k d.
Proof.
  induction d as [|[k0 v0] rest IH]; simpl.
  - destruct (str_eqb k key) eqn:E.
    + apply str_eqb_eq in E. subst. now rewrite str_eqb_refl.
    + rewrite str_eqb_neq; [reflexivity|].
      intros ->. now rewrite str_eqb_refl in E.
  - destruct (str_eqb k0 key) eqn:E0; simpl.
    + apply str_eqb_eq in E0. subst k0.
      destruct (str_eqb k key) eqn:E.
      * apply str_eqb_eq in E. subst. now rewrite str_eqb_refl.
      * rewrite str_eqb_neq; [reflexivity|].
        intros ->. now rewrite str_eqb_refl in E.
    + rewrite IH. destruct (str_eqb k key) eqn:E.
      * apply str_eqb_eq in E. subst k.
        now rewrite E0.
      * reflexivity.
Qed.

Lemma keys_setdefault key item d :
  List.map fst (setdefault_append key item d)
  = if mem key (List.map fst d) then List.map fst d
    else List.map fst d ++ [key].
Proof.
  induction d as [|[k0 v0] rest IH]; [reflexivity|].
  simpl. destruct (str_eqb k0 key) eqn:E0.
  - apply str_eqb_eq in E0. subst. now rewrite str_eqb_refl.
  - simpl. rewrite IH.
    assert (E1 : str_eqb key k0 = false).
    { apply str_eqb_neq. intros ->. now rewrite str_eqb_refl in E0. }
    rewrite E1. simpl. now destruct (mem key (List.map fst rest)).
Qed.

Lemma dict_get_In d : forall k v,
  List.NoDup (List.map fst d) -> (In (k, v) d <-> dict_get k d = Some v).
Proof.
  induction d as [|[k0 v0] rest IH]; intros k v Hnd; simpl.
  - split; [contradiction|discriminate].
  - inversion Hnd as [|? ? Hnot Hrest]; subst.
    destruct (str_eqb k0 k) eqn:E.
    + apply str_eqb_eq in E. subst k0. split.
      * intros [[= ->]|Hin]; [reflexivity|].
        exfalso. apply Hnot. now apply (in_map fst) in Hin.
      * intros [= ->]. now left.
    + rewrite <- IH by assumption. split.
      * intros [[= -> ->]|Hin]; [now rewrite str_eqb_refl in E|assumption].
      * now right.
Qed.

Lemma tables_of_snoc schema pairs s t :
  tables_of schema (pairs ++ [(s, t)])
  = tables_of schema pairs ++ (if str_eqb s schema then [t] else []).
Proof.
  unfold tables_of. rewrite List.filter_app, List.map_app. simpl.
  now destruct (str_eqb s schema).
Qed.

Lemma NoDup_snoc {A} (l : list A) x :
  List.NoDup l -> ~ In x l -> List.NoDup (l ++ [x]).
Proof.
  induction 1 as [|y l Hy Hl IH]; intros Hx; simpl.
  - repeat constructor. intros [].
  - constructor.
    + rewrite in_app_iff. intros [H1|[H1|[]]]; [contradiction|].
      subst. apply Hx. now left.
    + apply IH. intros Hin. apply Hx. now right.
Qed.

Lemma group_selected_spec pairs : forall seen d,
  List.Forall (fun p => ~ In dot (fst p)) pairs ->
  List.NoDup (List.map fst d) ->
  (forall k, dict_get k d
             = match tables_of k seen with [] => None | ts => Some ts end) ->
  exists groups,
    group_selected (List.map display_name pairs) d = Returns groups
    /\ List.NoDup (List.map fst groups)
    /\ forall k, dict_get k groups
                 = match tables_of k (seen ++ pairs) with
                   | [] => None
                   | ts => Some ts
                   end.
Proof.
  induction pairs as [|[s t] pairs IH]; intros seen d Hdots Hnd Hget.
  - exists d. rewrite app_nil_r. now repeat split.
  - inversion Hdots as [|? ? Hs Hrest]; subst. simpl in Hs.
    cbn [List.map group_selected]. rewrite split_once_display by assumption.
    destruct (IH (seen ++ [(s, t)]) (setdefault_append s t d))
      as (groups & Hrun & Hnd' & Hget'); [assumption| |
      |exists groups; rewrite <- app_assoc in Hget'; now repeat split].
    + rewrite keys_setdefault.
      destruct (mem s (List.map fst d)) eqn:Em; [assumption|].
      apply NoDup_snoc; [assumption|].
      intros Hin. apply mem_In in Hin. congruence.
    + intros k. rewrite dict_get_setdefault, tables_of_snoc.
      destruct (str_eqb k s) eqn:E.
      * apply str_eqb_eq in E. subst k. rewrite str_eqb_refl, Hget.
        destruct (tables_of s seen); reflexivity.
      * rewrite Hget.
        rewrite str_eqb_neq; [now rewrite app_nil_r|].
        intros ->. now rewrite str_eqb_refl in E.
Qed.

Lemma group_selected_unpack selected : forall d,
  List.Exists (fun name => ~ In dot name) selected ->
  group_selected selected d = Raises unpack_error.
Proof.
  induction selected as [|name rest IH]; intros d Hex; [inversion Hex|].
  cbn [group_selected].
  destruct (in_dec N.eq_dec dot name) as [Hin|Hno].
  - destruct (split_once_dot name Hin) as (schema & table & ->).
    apply IH. inversion Hex; [contradiction|assumption].
  - now rewrite split_once_no_dot.
Qed.

(** The groups of a selection whose schema names hold no dot. *)
Lemma group_selected_groups pairs :
  List.Forall (fun p => ~ In dot (fst p)) pairs ->
  exists groups,
    group_selected (List.map display_name pairs) [] = Returns groups
    /\ List.NoDup (List.map fst groups)
    /\ forall schema tables,
         In (schema, tables) groups
         <-> tables <> [] /\ tables = tables_of schema pairs.
Proof.
  intros Hdots.
  destruct (group_selected_spec pairs [] [] Hdots (List.NoDup_nil _))
    as (groups & Hrun & Hnd & Hget); [reflexivity|].
  exists groups. split; [assumption|]. split; [assumption|].
  intros schema tables. rewrite (dict_get_In groups) by assumption.
  rewrite Hget. simpl.
  destruct (tables_of schema pairs) as [|t ts]; split.
  - discriminate.
  - intros [H ->]. contradiction.
  - intros [= <-]. split; [discriminate|reflexivity].
  - intros [_ ->]. reflexivity.
Qed.

(** X23. The table selection is grouped faithfully: for chosen tables whose
    schema names hold no dot, the loop returns one entry per schema that
    has a chosen table, holding exactly the chosen tables of that schema
    in the order they were chosen, so no entry is an empty list.  A
    chosen name without a dot makes the loop raise. *)
Theorem group_selected_by_schema pairs :
  List.Forall (fun p => ~ In dot (fst p)) pairs ->
  (exists groups,
     group_selected (List.map display_name pairs) [] = Returns groups
     /\ List.NoDup (List.map fst groups)
     /\ forall schema tables,
          In (schema, tables) groups
          <-> tables <> [] /\ tables = tables_of schema pairs)
  /\ forall selected,
       List.Exists (fun name => ~ In dot name) selected ->
       group_selected selected [] = Raises unpack_error.
Proof.
  intros Hdots. split.
  - now apply group_selected_groups.
  - intros selected. apply group_selected_unpack.
Qed.

Lemma group_selected_by_schema_witness :
  (exists groups,
     group_selected
       (List.map display_name
          [(lit "sales", lit "orders"); (lit "public", lit "users");
           (lit "sales", lit "order.items")]) [] = Returns groups
     /\ List.NoDup (List.map fst groups)
     /\ forall schema tables,
          In (schema, tables) groups
          <-> tables <> []
              /\ tables
                 = tables_of schema
                     [(lit "sales", lit "orders"); (lit "public", lit "users");
                      (lit "sales", lit "order.items")])
  /\ forall selected,
       List.Exists (fun name => ~ In dot name) selected ->
       group_selected selected [] = Raises unpack_error.
Proof.
  apply group_selected_by_schema.
  repeat constructor; vm_compute; intuition discriminate.
Defined.

(** ** The dump of a selection *)

Section SelectionDump.
Variable float : Type.
Variable str_of_float : float -> str.
Variable object : Type.
Variable str_of_object : object -> str.
Variable unicode_upper : N -> str.
Variable cat : catalog (value float object).
Variable clock : nat -> str.

Local Abbreviation lines_of :=
  (dump_lines float str_of_float object str_of_object unicode_upper cat).
Local Abbreviation parts_of :=
  (selection_parts float str_of_float object str_of_object unicode_upper cat
                   clock).

Lemma selection_parts_lookup groups include_data : forall first i schema tables,
  groups !! i = Some (schema, tables) ->
  parts_of first groups include_data !! i
  = Some (render (lines_of (clock (first + i)) (Some tables) include_data
                           schema false false)).
Proof using Type.
  induction groups as [|[s ts] rest IH]; intros first i schema tables Hi;
    [discriminate|].
  destruct i as [|i].
  - injection Hi as -> ->. simpl. now rewrite Nat.add_0_r.
  - simpl in Hi. cbn [selection_parts]. rewrite lookup_cons.
    rewrite (IH (S first) i schema tables Hi).
    now rewrite Nat.add_succ_r.
Qed.

Lemma selection_parts_length groups include_data : forall first,
  length (parts_of first groups include_data) = length groups.
Proof using Type.
  induction groups as [|[s ts] rest IH]; intros first; [reflexivity|].
  simpl. now rewrite IH.
Qed.

End SelectionDump.


(** ** From the file to the server *)

Lemma universal_newlines_no_cr_bounded n : forall s,
  length s <= n -> ~ In 13%N (universal_newlines s).
Proof.
  induction n as [|n IH]; intros s Hlen.
  - destruct s; [intros []|simpl in Hlen; lia].
  - destruct s as [|c s]; [intros []|].
    simpl in Hlen. cbn [universal_newlines].
    destruct (N.eqb_spec c 13) as [->|Hne].
    + destruct s as [|d s]; [intros [H|[]]; discriminate|].
      simpl in Hlen.
      destruct (d =? 10)%N; intros [H|H]; try discriminate;
        revert H; apply IH; simpl; lia.
    + intros [H|H]; [congruence|]. revert H. apply IH. lia.
Qed.

(** A text read in text mode holds no carriage return. *)
Lemma universal_newlines_no_cr s : ~ In 13%N (universal_newlines s).
Proof. now apply (universal_newlines_no_cr_bounded (length s)). Qed.

Lemma split_chars sep s : forall l c,
  In l (split sep s) -> In c l -> In c s.
Proof.
  induction s as [|x s IH]; intros l c Hl Hc; simpl in Hl.
  - destruct Hl as [<-|[]]. contradiction.
  - destruct (x =? sep)%N.
    + destruct Hl as [<-|Hl]; [contradiction|]. right. eauto.
    + pose proof (split_nonempty sep s) as Hne.
      destruct (split sep s) as [|l0 ls]; [contradiction|].
      destruct Hl as [<-|Hl].
      * destruct Hc as [->|Hc]; [now left|]. right.
        apply (IH l0); [now left|assumption].
      * right. apply (IH l); [now right|assumption].
Qed.

Lemma join_chars sep lines : forall c,
  In c (join sep lines) -> In c sep \/ exists l, In l lines /\ In c l.
Proof.
  induction lines as [|l rest IH]; intros c Hc; [contradiction|].
  destruct rest as [|l2 rest].
  - right. exists l. split; [now left|assumption].
  - change (join sep (l :: l2 :: rest))
      with (l ++ sep ++ join sep (l2 :: rest)) in Hc.
    rewrite !in_app_iff in Hc. destruct Hc as [Hc|[Hc|Hc]].
    + right. exists l. split; [now left|assumption].
    + now left.
    + destruct (IH c Hc) as [H|(l' & Hl' & H)]; [now left|].
      right. exists l'. split; [now right|assumption].
Qed.

Lemma strip_chars c s : In c (strip s) -> In c s.
Proof.
  unfold strip, rstrip, lstrip. intros H.
  now apply rstrip_by_In, lstrip_by_In in H.
Qed.

(** A statement holds no character but those of the script and the line
    feeds between its lines. *)
Lemma split_queries_chars sql q c :
  In q (_split_queries sql) -> In c q -> c = nl \/ In c sql.
Proof.
  intros Hq Hc. unfold _split_queries in Hq. cbv zeta in Hq.
  destruct (split_loop_buffers (split nl sql) (SplitState [] [] false))
    as (bufs & Hqs & Hcat & _).
  simpl in Hqs, Hcat.
  assert (Hbuf : forall b,
            (forall l, In l b -> In l (split nl sql)) ->
            In q (close_buffer [] b) -> c = nl \/ In c sql).
  { intros b Hb Hin. unfold close_buffer in Hin. cbv zeta in Hin.
    destruct (negb _ && negb _); [|contradiction].
    destruct Hin as [<-|[]]. apply strip_chars in Hc.
    apply join_chars in Hc. destruct Hc as [[<-|[]]|(l & Hl & Hc)];
      [now left|].
    right. apply (split_chars nl sql l); auto. }
  assert (Hfrom : In q (flat_map (close_buffer []) bufs) ->
                  c = nl \/ In c sql).
  { intros H. apply in_flat_map in H. destruct H as (b & Hb & Hin).
    apply (Hbuf b); [|assumption].
    intros l Hl. rewrite <- Hcat. apply in_or_app. left.
    apply in_concat. eauto. }
  destruct (current (split_loop (split nl sql) (SplitState [] [] false)))
    as [|l rest] eqn:Ecur.
  - rewrite Hqs in Hq. auto.
  - rewrite close_buffer_app, Hqs in Hq. apply in_app_or in Hq.
    destruct Hq as [Hq|Hq]; [auto|].
    apply (Hbuf (l :: rest)); [|assumption].
    intros l' Hl'. rewrite <- Hcat. apply in_or_app. now right.
Qed.

Section FileToServer.
Variable cp949_decode : list byte -> option str.
Variable fs : str -> file_access.
Variable srv : server.

(** X25. Whatever line endings a file uses, no statement read from it
    holds a carriage return: the file is read in text mode, and a
    statement holds only characters of the text read. *)
Theorem statements_have_no_carriage_return file_path text q :
  _read_file cp949_decode fs file_path = Returns text ->
  In q (_split_queries text) ->
  ~ In 13%N q.
Proof using Type.
  intros Hread Hq Hcr.
  assert (Htext : ~ In 13%N text).
  { destruct (fs file_path) as [bs|e] eqn:Hfs.
    - rewrite (_read_file_readable _ _ _ _ Hfs) in Hread.
      injection Hread as <-. apply universal_newlines_no_cr.
    - rewrite (_read_file_refused _ _ _ _ Hfs) in Hread. discriminate. }
  destruct (split_queries_chars text q 13%N Hq Hcr) as [H|H];
    [discriminate|contradiction].
Qed.

(** X26. A single-transaction run that returns ends in one of two ways.
    Either its last call on the connection is the commit, no rollback was
    sent and no file or statement failed; or its last call is a rollback,
    no commit was sent, nothing was made durable, no transaction is left
    open and at least one file is counted as failed. *)
Theorem single_transaction_ends_with_commit_or_rollback file_paths c c' r :
  execute_files cp949_decode fs srv file_paths true c = (c', Returns r) ->
  (exists calls,
     history c' = history c ++ calls ++ [Commit]
     /\ ~ In Rollback calls /\ ~ In Commit calls
     /\ failed_files r = 0%Z /\ error_count r = 0%Z
     /\ success_files r = total_files r)
  \/ (exists calls,
        history c' = history c ++ calls ++ [Rollback]
        /\ ~ In Commit calls
        /\ pending c' = [] /\ committed c' = committed c
        /\ (0 < failed_files r)%Z /\ (success_files r < total_files r)%Z).
Proof using Type.
  unfold execute_files.
  destruct (_execute_single_transaction _ _ _ _ _ _)
    as [[c2 r2] exit2] eqn:Hrun.
  intros Hret. destruct exit2 as [e|]; [discriminate|].
  injection Hret as <- <-.
  unfold _execute_single_transaction in Hrun.
  destruct (set_autocommit false c) as [c0 [e0|]] eqn:Hset.
  { apply (finally_spec (autocommit c) c0 _ (Raise (Error e0))) in Hrun.
    destruct Hrun as (_ & _ & _ & _ & [(e & He & _)|(He & _)]); discriminate. }
  apply set_autocommit_spec in Hset.
  destruct Hset as (Hp0 & Hc0 & Hh0 & _ & _ & Hac0 & _).
  destruct (single_files cp949_decode fs srv file_paths _ _)
    as [[c1 r1] exit] eqn:Hsf.
  apply single_files_spec in Hsf; [|assumption].
  destruct Hsf as (_ & Hcom & Htf & Hexit).
  simpl in Hcom, Htf, Hexit.
  pose proof (len_nonneg file_paths) as Hlen.
  destruct exit as [| |e].
  - destruct Hexit as (texts & _ & _ & Hhist & Hsf & Hff & _ & _ & Hec).
    destruct (conn_commit srv c1) as [c3 [msg|]] eqn:Hcm.
    { apply (finally_spec (autocommit c) c3 r1 (Raise (Error msg))) in Hrun.
      destruct Hrun as (_ & _ & _ & _ & [(e & He & _)|(He & _)]);
        discriminate. }
    apply (conn_commit_spec srv) in Hcm. destruct Hcm as (_ & Hh3 & _).
    apply (finally_spec (autocommit c) c3 r1 Next) in Hrun.
    destruct Hrun as (-> & _ & _ & Hh' & _).
    left. exists (List.map Execute (statements_of texts)).
    rewrite Hh', Hh3, Hhist, Hh0, <- app_assoc.
    repeat split; auto; try lia.
    + intros H. apply in_map_iff in H. now destruct H as (? & ? & _).
    + intros H. apply in_map_iff in H. now destruct H as (? & ? & _).
  - destruct Hexit as (Hpend & (calls & Hhist & Hno) & Hsf & Hcount).
    apply (finally_spec (autocommit c) c1 r1 Return) in Hrun.
    destruct Hrun as (-> & Hp' & Hc' & Hh' & _).
    right. exists calls. rewrite Hh', Hhist, Hh0, Hp', Hc', Hcom, Hc0.
    repeat split; auto; lia.
  - apply (finally_spec (autocommit c) c1 r1 (Raise e)) in Hrun.
    destruct Hrun as (_ & _ & _ & _ & [(e' & He & _)|(He & _)]); discriminate.
Qed.
End FileToServer.

Lemma statements_have_no_carriage_return_witness :
  ~ In 13%N [83; 255]%N.
Proof.
  apply (statements_have_no_carriage_return no_cp949
           (fun _ => Readable [Byte.x53; Byte.xff; Byte.x0d; Byte.x0a])
           (lit "a.sql") [83; 255; 10]%N).
  - vm_compute. reflexivity.
  - left. vm_compute. reflexivity.
Defined.

Lemma single_transaction_ends_with_commit_or_rollback_witness :
  (exists calls,
     [Execute (lit "INSERT INTO t VALUES (2);"); Execute (lit "BOOM;");
      Rollback]
     = history idle ++ calls ++ [Commit]
     /\ ~ In Rollback calls /\ ~ In Commit calls
     /\ 2%Z = 0%Z /\ 1%Z = 0%Z /\ 0%Z = 2%Z)
  \/ (exists calls,
        [Execute (lit "INSERT INTO t VALUES (2);"); Execute (lit "BOOM;");
         Rollback]
        = history idle ++ calls ++ [Rollback]
        /\ ~ In Commit calls
        /\ @nil str = [] /\ @nil str = committed idle
        /\ (0 < 2)%Z /\ (0 < 2)%Z).
Proof.
  apply (single_transaction_ends_with_commit_or_rollback no_cp949 demo_fs
           demo_server [lit "bad.sql"; lit "good.sql"] idle
           {| autocommit := true; pending := []; committed := [];
              history := [Execute (lit "INSERT INTO t VALUES (2);");
                          Execute (lit "BOOM;"); Rollback];
              in_transaction := false; closed := false |}
           {| total_files := 2; success_files := 0; failed_files := 2;
              total_queries := 3; success_count := 1; error_count := 1 |}).
  vm_compute. reflexivity.
Defined.
